(** * Vector_path: the three optimisation routines, embedded and verified

    The repository holds three algorithm modules written in JavaScript:

    - [MultiStageGraph.backwardCost]  (backward dynamic programming on a
      stage graph), with its driver [multiStageGraphWithEdges], which builds
      the cost matrix from a string of edges,
    - [TSP.nearestNeighbor]           (nearest-neighbour tour construction),
      with its driver [tsp] and the helpers [buildDistanceMatrix] and
      [generateCityPositions],
    - [FractionalKnapsack.fractionalKnapsack] with its helper [sortBoxes]
      (greedy fractional allocation).

    Each function is transcribed as an executable Rocq definition that keeps
    the control flow of the source: [for] loops become recursion over the list
    of indices they range over, the [while] loop becomes recursion on fuel,
    local arrays are lists updated by index, and the array that [sortBoxes]
    reorders in place lives in an explicit store.

    Numbers.  A JavaScript number is modelled by [jsnum]: an exact rational,
    [Infinity], [-Infinity] or [NaN].  Rounding of binary floating point is
    not modelled: arithmetic on finite values is exact.

    Built-ins.  [parseInt], [parseFloat], [String.prototype.trim],
    [Math.random] and the arithmetic of [calculateDistance] (with
    [Math.sqrt]) are parameters of the drivers: what is proved about a
    driver holds for every behaviour of them, under the assumptions that a
    statement lists. *)

From Stdlib Require Import QArith Qround Lqa ZArith Lia Sorted.
From stdpp Require Import base list strings pretty.

(** ** JavaScript values shared by the three modules *)

Module Js.

(** A JavaScript number. *)
Inductive jsnum : Type :=
  | Num (q : Q)
  | PInf
  | NInf
  | NaN.

(** [a + b] on numbers. *)
Definition js_add (a b : jsnum) : jsnum :=
  match a, b with
  | NaN, _ | _, NaN => NaN
  | PInf, NInf | NInf, PInf => NaN
  | PInf, _ | _, PInf => PInf
  | NInf, _ | _, NInf => NInf
  | Num x, Num y => Num (x + y)
  end.

Definition Qlt_bool (x y : Q) : bool := negb (Qle_bool y x).

(** [a < b] on numbers: every comparison with [NaN] is false. *)
Definition js_lt (a b : jsnum) : bool :=
  match a, b with
  | NaN, _ | _, NaN => false
  | _, NInf => false
  | PInf, _ => false
  | NInf, _ => true
  | Num _, PInf => true
  | Num x, Num y => Qlt_bool x y
  end.

(** [a !== Infinity]. *)
Definition js_not_INF (a : jsnum) : bool :=
  match a with PInf => false | _ => true end.

(** Reading [l[i]] where the value is then used as a number: a missing
    element is [undefined], which [+] and [<] convert to [NaN] and which is
    [!== Infinity], exactly as [NaN] is. *)
Definition js_get (l : list jsnum) (i : nat) : jsnum := default NaN (l !! i).

(** [l[i] = v] on an array: inside the array the element is replaced, at
    [i = length l] the array grows by one, beyond it the gap is padded with
    [hole]. *)
Definition js_store {A : Type} (hole : A) (l : list A) (i : nat) (v : A) : list A :=
  if i <? length l then <[i := v]> l
  else l ++ replicate (i - length l) hole ++ [v].

(** Equality and order of two numbers up to the value of the rationals. *)
Definition js_eq (a b : jsnum) : Prop :=
  match a, b with
  | Num x, Num y => (x == y)%Q
  | PInf, PInf | NInf, NInf => True
  | _, _ => False
  end.

Definition js_le (a b : jsnum) : Prop :=
  match a, b with
  | NaN, _ | _, NaN => False
  | NInf, _ | _, PInf => True
  | Num x, Num y => (x <= y)%Q
  | _, _ => False
  end.

(** A finite number or [Infinity]: an extended real cost. *)
Definition is_cost (a : jsnum) : Prop :=
  match a with Num _ | PInf => True | _ => False end.

Definition is_finite (a : jsnum) : Prop :=
  match a with Num _ => True | _ => False end.

(** [a / b] on finite numbers. *)
Definition js_div (a b : Q) : jsnum :=
  if Qeq_bool b 0 then
    if Qlt_bool 0 a then PInf else if Qlt_bool a 0 then NInf else NaN
  else Num (a / b).

(** [x.toFixed(2)] on a finite number, as the number that the returned
    decimal string denotes: the multiple of 1/100 nearest to [x], the one
    farther from zero when two are as near. *)
Definition toFixed2 (x : Q) : Q :=
  if Qle_bool 0 x then Qfloor (x * 100 + (1 # 2)) # 100
  else - (Qfloor (- x * 100 + (1 # 2)) # 100).

(** [x.toFixed(2)] on any number: the strings for [Infinity], [-Infinity]
    and [NaN] denote themselves. *)
Definition js_toFixed2 (x : jsnum) : jsnum :=
  match x with Num q => Num (toFixed2 q) | _ => x end.

(** How a call ends: it returns, it throws, or the loop bound of the model
    was reached before the call returned. *)
Inductive js_error : Type := TypeError.

Inductive outcome (A : Type) : Type :=
  | Ret (a : A)
  | Throw (e : js_error)
  | OutOfFuel.
Arguments Ret {A} a.
Arguments Throw {A} e.
Arguments OutOfFuel {A}.

Definition bind {A B : Type} (m : outcome A) (k : A -> outcome B) : outcome B :=
  match m with
  | Ret a => k a
  | Throw e => Throw e
  | OutOfFuel => OutOfFuel
  end.

#[global] Instance outcome_bind : MBind outcome := fun A B k m => bind m k.
#[global] Instance outcome_ret : MRet outcome := fun A a => Ret a.

End Js.
Import Js.

(** ** Multi-stage graph: [backwardCost] *)

Module MultiStageGraph.

Definition INF : jsnum := PInf.

Abbreviation matrix := (list (list jsnum)).

Record result : Type := {
  minimumCost : jsnum;
  path : list Z;
  bcostArray : list jsnum;
  decisionArray : list Z
}.

(** The inner loop [for (r = j + 1; r < n; r++)], over the remaining values
    [rs] of [r].  [G[j][r]] throws a [TypeError] when row [j] is missing. *)
Fixpoint scan_successors (G : matrix) (bcost : list jsnum) (j : nat) (rs : list nat)
    (minCost : jsnum) (nextVertex : Z) : outcome (jsnum * Z) :=
  match rs with
  | [] => Ret (minCost, nextVertex)
  | r :: rs' =>
      match G !! j with
      | None => Throw TypeError
      | Some row =>
          let edgeCost := js_get row r in
          if js_not_INF edgeCost then
            let total := js_add (js_get bcost r) edgeCost in
            if js_lt total minCost
            then scan_successors G bcost j rs' total (Z.of_nat r)
            else scan_successors G bcost j rs' minCost nextVertex
          else scan_successors G bcost j rs' minCost nextVertex
      end
  end.

(** The outer loop [for (j = n - 2; j >= 0; j--)], over the remaining values
    [js] of [j]. *)
Fixpoint backward_pass (G : matrix) (n : nat) (js : list nat)
    (bcost : list jsnum) (d : list Z) : outcome (list jsnum * list Z) :=
  match js with
  | [] => Ret (bcost, d)
  | j :: js' =>
      '(minCost, nextVertex) ← scan_successors G bcost j (seq (S j) (n - S j)) INF (-1);
      backward_pass G n js' (<[j := minCost]> bcost) (<[j := nextVertex]> d)
  end.

(** [d[current]] for a number [current]: [undefined] outside the array. *)
Definition read_decision (d : list Z) (current : Z) : option Z :=
  if (0 <=? current)%Z then d !! Z.to_nat current else None.

(** The loop [while (current !== n - 1)].  One unit of fuel is spent per
    evaluation of the loop test.  When [d[current]] is [undefined] the source
    stores [undefined] in [current]; from then on neither the loop test nor
    the [break] test can succeed, so the call never returns. *)
Fixpoint follow_decisions (fuel : nat) (n : nat) (d : list Z) (p : list Z)
    (current : Z) (index : nat) : outcome (list Z * nat) :=
  match fuel with
  | O => OutOfFuel
  | S fuel' =>
      if (current =? Z.of_nat n - 1)%Z then Ret (p, index)
      else if (current =? -1)%Z then Ret (p, index)
      else match read_decision d current with
           | None => OutOfFuel
           | Some nextNode =>
               if (nextNode =? -1)%Z then Ret (p, index)
               else follow_decisions fuel' n d (js_store 0%Z p index nextNode)
                      nextNode (S index)
           end
  end.

(** [backwardCost(G, n)].  [bcost[n - 1] = 0] writes an element only when
    [n >= 1] (for [n = 0] it sets the property [-1], which no later read
    sees). *)
Definition backwardCost (fuel : nat) (G : matrix) (n : nat) : outcome result :=
  let bcost := replicate n INF in
  let d := replicate n 0%Z in
  let bcost := match n with O => bcost | S m => <[m := Num 0]> bcost end in
  '(bcost, d) ← backward_pass G n (rev (seq 0 (n - 1))) bcost d;
  let p := replicate (n + 1) 0%Z in
  let p := <[0 := 0%Z]> p in
  '(p, index) ← follow_decisions fuel n d p 0%Z 1;
  let path := take index p in
  Ret {| minimumCost := js_get bcost 0;
         path := path;
         bcostArray := bcost;
         decisionArray := d |}.

(** *** Vocabulary of the statements *)

(** [G[u][v]] as a number. *)
Definition edge (G : matrix) (u v : nat) : jsnum :=
  match G !! u with Some row => js_get row v | None => NaN end.

(** An [n]x[n] matrix. *)
Definition square (n : nat) (G : matrix) : Prop :=
  length G = n /\ Forall (fun row => length row = n) G.

(** A valid cost matrix: square, and every entry above the diagonal is a
    finite cost or [Infinity].  Entries on or below the diagonal are never
    read and are left unconstrained. *)
Definition cost_matrix (n : nat) (G : matrix) : Prop :=
  square n G /\ forall u v, u < v < n -> is_cost (edge G u v).

(** [u :: rest] moves only to strictly higher vertices along present edges. *)
Fixpoint ascending (G : matrix) (u : nat) (rest : list nat) : Prop :=
  match rest with
  | [] => True
  | v :: rest' => u < v /\ is_finite (edge G u v) /\ ascending G v rest'
  end.

(** Total cost of the walk [u :: rest]. *)
Fixpoint walk_cost (G : matrix) (u : nat) (rest : list nat) : jsnum :=
  match rest with
  | [] => Num 0
  | v :: rest' => js_add (edge G u v) (walk_cost G v rest')
  end.

(** A directed path from [u] to the sink [n - 1]. *)
Definition path_to_sink (n : nat) (G : matrix) (u : nat) (rest : list nat) : Prop :=
  ascending G u rest /\ last (u :: rest) = Some (n - 1).

(** The example of the specification: 0->1:2, 0->2:3, 1->3:4, 2->3:5. *)
Definition example_graph : matrix :=
  [ [PInf; Num 2; Num 3; PInf];
    [PInf; PInf; PInf; Num 4];
    [PInf; PInf; PInf; Num 5];
    [PInf; PInf; PInf; PInf] ].

End MultiStageGraph.

(** ** Travelling salesman: [nearestNeighbor] *)

Module TSP.

Record result : Type := {
  tour : list nat;
  totalDistance : jsnum;
  allVisited : bool;
  numCitiesVisited : nat
}.

(** The local variables that the outer loop updates. *)
Record walk : Type := {
  visited : list bool;
  tour_so_far : list nat;
  distance_so_far : jsnum;
  currentCity : nat
}.

(** [!visited[city]]: a missing element is [undefined], which is falsy. *)
Definition unvisited (visited : list bool) (city : nat) : bool :=
  negb (default false (visited !! city)).

(** The inner loop [for (city = 0; city < n; city++)], over the remaining
    values [cities] of [city].  [nearestCity] is [-1] or a city index.
    [distances[currentCity][city]] is evaluated only for an unvisited city,
    and throws a [TypeError] when row [currentCity] is missing. *)
Fixpoint find_nearest (distances : list (list jsnum)) (visited : list bool)
    (currentCity : nat) (cities : list nat) (nearestCity : Z) (minDistance : jsnum)
    : outcome (Z * jsnum) :=
  match cities with
  | [] => Ret (nearestCity, minDistance)
  | city :: cities' =>
      if unvisited visited city then
        match distances !! currentCity with
        | None => Throw TypeError
        | Some row =>
            if js_lt (js_get row city) minDistance
            then find_nearest distances visited currentCity cities'
                   (Z.of_nat city) (js_get row city)
            else find_nearest distances visited currentCity cities'
                   nearestCity minDistance
        end
      else find_nearest distances visited currentCity cities' nearestCity minDistance
  end.

(** The outer loop [for (step = 0; step < n - 1; step++)], over the
    remaining values [steps] of [step]. *)
Fixpoint visit_cities (distances : list (list jsnum)) (n : nat) (steps : list nat)
    (w : walk) : outcome walk :=
  match steps with
  | [] => Ret w
  | _ :: steps' =>
      '(nearestCity, minDistance) ←
        find_nearest distances (visited w) (currentCity w) (seq 0 n) (-1) PInf;
      if (nearestCity =? -1)%Z then visit_cities distances n steps' w
      else
        let city := Z.to_nat nearestCity in
        visit_cities distances n steps'
          {| visited := <[city := true]> (visited w);
             tour_so_far := tour_so_far w ++ [city];
             distance_so_far := js_add (distance_so_far w) minDistance;
             currentCity := city |}
  end.

(** The function up to the end of its outer loop.  [visited[startCity] =
    true] grows the array when [startCity >= n]; the gap then reads as
    [undefined], and the call throws before [visited] is used as a whole
    (see [nearestNeighbor_start_outside]). *)
Definition visit_all (distances : list (list jsnum)) (startCity : nat) : outcome walk :=
  let n := length distances in
  let visited := replicate n false in
  let tour := [startCity] in
  let visited := js_store false visited startCity true in
  visit_cities distances n (seq 0 (n - 1))
    {| visited := visited; tour_so_far := tour;
       distance_so_far := Num 0; currentCity := startCity |}.

(** [nearestNeighbor(distances, startCity)]. *)
Definition nearestNeighbor (distances : list (list jsnum)) (startCity : nat)
    : outcome result :=
  w ← visit_all distances startCity;
  match distances !! currentCity w with
  | None => Throw TypeError
  | Some row =>
      let returnDistance := js_get row startCity in
      let totalDistance := js_add (distance_so_far w) returnDistance in
      let tour := tour_so_far w ++ [startCity] in
      let allVisited := forallb (fun v => bool_decide (v = true)) (visited w) in
      Ret {| tour := tour;
             totalDistance := totalDistance;
             allVisited := allVisited;
             numCitiesVisited := length (filter (fun v => v = true) (visited w)) |}
  end.

(** *** Vocabulary of the statements *)

(** [distances[u][v]] as a number. *)
Definition dist (distances : list (list jsnum)) (u v : nat) : jsnum :=
  match distances !! u with Some row => js_get row v | None => NaN end.

(** An [n]x[n] matrix of non-negative reals. *)
Definition distance_matrix (n : nat) (distances : list (list jsnum)) : Prop :=
  length distances = n /\ Forall (fun row => length row = n) distances /\
  forall u v, u < n -> v < n -> exists q, dist distances u v = Num q /\ (0 <= q)%Q.

(** The distances between consecutive vertices of a tour, in tour order. *)
Fixpoint legs (distances : list (list jsnum)) (t : list nat) : list jsnum :=
  match t with
  | u :: ((v :: _) as t') => dist distances u v :: legs distances t'
  | _ => []
  end.

(** The sum of a list of numbers, added from left to right starting at 0. *)
Definition js_sum (l : list jsnum) : jsnum := fold_left js_add l (Num 0).

(** The example of the specification: d(0,1)=10, d(0,2)=15, d(1,2)=12. *)
Definition example_distances : list (list jsnum) :=
  [ [Num 0; Num 10; Num 15];
    [Num 10; Num 0; Num 12];
    [Num 15; Num 12; Num 0] ].

(** Two locations with no distance between them. *)
Definition disconnected_distances : list (list jsnum) :=
  [ [Num 0; PInf]; [PInf; Num 0] ].

End TSP.

(** ** Fractional knapsack: [sortBoxes] and [fractionalKnapsack] *)

Module FractionalKnapsack.

(** A box object.  [weight] and [profit] are finite numbers; a property that
    the object does not have is [None].  The [ratio] of a caller's box is
    never read. *)
Record box : Type := {
  index : option nat;
  weight : Q;
  profit : Q;
  name : option string;
  ratio : option Q
}.

(** The store.  Arrays and box objects are reached through references, so
    that an array reordered in place is seen by whoever holds a reference to
    it.  An array holds references to its elements. *)
Definition loc : Type := nat.

Inductive object : Type :=
  | Array (elems : list loc)
  | Box (b : box).

Abbreviation heap := (list object).

(** A computation on the store that returns or throws. *)
Definition M (A : Type) : Type := heap -> outcome (A * heap).

#[global] Instance M_ret : MRet M := fun A a h => Ret (a, h).
#[global] Instance M_bind : MBind M := fun A B f m h =>
  match m h with
  | Ret (a, h') => f a h'
  | Throw e => Throw e
  | OutOfFuel => OutOfFuel
  end.

Definition throw {A : Type} (e : js_error) : M A := fun _ => Throw e.

(** A new object, at a reference that was not in use. *)
Definition alloc (o : object) : M loc :=
  fun h => Ret (length h, h ++ [o]).

(** The elements of the array at [l]. *)
Definition get_array (l : loc) : M (list loc) :=
  fun h => match h !! l with
           | Some (Array es) => Ret (es, h)
           | _ => Throw TypeError
           end.

(** The box object at [l]. *)
Definition get_box (l : loc) : M box :=
  fun h => match h !! l with
           | Some (Box b) => Ret (b, h)
           | _ => Throw TypeError
           end.

(** The reference [arr[i]]; reading a property of a missing element
    throws. *)
Definition get_ref (arr : loc) (i : nat) : M loc :=
  es ← get_array arr;
  match es !! i with
  | Some l => mret l
  | None => throw TypeError
  end.

(** The box [arr[i]]. *)
Definition elem (arr : loc) (i : nat) : M box :=
  l ← get_ref arr i; get_box l.

(** [arr[i] = v], for [i] inside the array: the array object itself is
    updated. *)
Definition set_elem (arr : loc) (i : nat) (v : loc) : M unit :=
  fun h => match h !! arr with
           | Some (Array es) => Ret (tt, <[arr := Array (<[i := v]> es)]> h)
           | _ => Throw TypeError
           end.

(** [a < b] where either side may be [undefined]: then the test is false. *)
Definition lt_defined (a b : option Q) : bool :=
  match a, b with
  | Some x, Some y => Qlt_bool x y
  | _, _ => false
  end.

(** The test that sets [swap] for the boxes [bi = boxes[i]] and
    [bj = boxes[j]]. *)
Definition out_of_order (approach : Z) (bi bj : box) : bool :=
  if (approach =? 1)%Z then Qlt_bool (weight bj) (weight bi)
  else if (approach =? 2)%Z then Qlt_bool (profit bi) (profit bj)
  else if (approach =? 3)%Z then lt_defined (ratio bi) (ratio bj)
  else false.

(** The value of [swap] at [(i, j)].  The boxes are read only under the
    approach whose test reads them. *)
Definition swap_test (boxes : loc) (approach : Z) (i j : nat) : M bool :=
  if ((approach =? 1) || (approach =? 2) || (approach =? 3))%Z then
    bi ← elem boxes i;
    bj ← elem boxes j;
    mret (out_of_order approach bi bj)
  else mret false.

(** The inner loop [for (j = i + 1; j < n; j++)], over the remaining values
    [js] of [j]. *)
Fixpoint sort_inner (boxes : loc) (approach : Z) (i : nat) (js : list nat) : M unit :=
  match js with
  | [] => mret tt
  | j :: js' =>
      swap ← swap_test boxes approach i j;
      (if swap : bool then
         temp ← get_ref boxes i;
         bj ← get_ref boxes j;
         set_elem boxes i bj;;
         set_elem boxes j temp
       else mret tt);;
      sort_inner boxes approach i js'
  end.

(** The outer loop [for (i = 0; i < n - 1; i++)], over the remaining values
    [ixs] of [i]. *)
Fixpoint sort_outer (boxes : loc) (approach : Z) (n : nat) (ixs : list nat) : M unit :=
  match ixs with
  | [] => mret tt
  | i :: ixs' =>
      sort_inner boxes approach i (seq (S i) (n - S i));;
      sort_outer boxes approach n ixs'
  end.

(** [sortBoxes(boxes, approach)]: reorders the array at [boxes] in place. *)
Definition sortBoxes (boxes : loc) (approach : Z) : M unit :=
  es ← get_array boxes;
  let n := length es in
  sort_outer boxes approach n (seq 0 (n - 1)).

(** The object that the callback of [boxes.map] builds from [box] at
    position [i].  [weight] and [profit] are numbers already, so
    [parseFloat] returns them as they are; an empty [name] is falsy. *)
Definition working_copy (i : nat) (b : box) : box :=
  {| index := Some (default i (index b));
     weight := weight b;
     profit := profit b;
     name := Some (match name b with
                   | Some s => if decide (s = EmptyString) then "Box " +:+ pretty i else s
                   | None => "Box " +:+ pretty i
                   end);
     ratio := Some (if Qlt_bool 0 (weight b) then profit b / weight b else 0)%Q |}.

(** [boxes.map(...)]: one new object per element, from position [i] on. *)
Fixpoint copy_boxes (es : list loc) (i : nat) : M (list loc) :=
  match es with
  | [] => mret []
  | e :: es' =>
      b ← get_box e;
      l ← alloc (Box (working_copy i b));
      ls ← copy_boxes es' (S i);
      mret (l :: ls)
  end.

(** An element of [selectedBoxes]: the properties of the box, copied by the
    spread into a new object, and three more.  These objects are created by
    the call and only returned, so the result holds them by value. *)
Record selection : Type := {
  selected_box : box;
  fraction : Q;
  takenWeight : Q;
  takenProfit : Q
}.

(** The loop [for (i = 0; i < temp.length && capacity > 0; i++)], over the
    remaining values [ixs] of [i]. *)
Fixpoint load (temp : loc) (ixs : list nat) (totalProfit capacity : Q)
    (selectedBoxes : list selection) : M (Q * Q * list selection) :=
  match ixs with
  | [] => mret (totalProfit, capacity, selectedBoxes)
  | i :: ixs' =>
      if Qlt_bool 0 capacity then
        b ← elem temp i;
        let w := weight b in
        let p := profit b in
        if Qle_bool w capacity then
          load temp ixs' (totalProfit + p)%Q (capacity - w)%Q
            (selectedBoxes ++
               [{| selected_box := b; fraction := 1;
                   takenWeight := w; takenProfit := p |}])
        else
          let fraction := (capacity / w)%Q in
          let fractionalProfit := (p * fraction)%Q in
          load temp ixs' (totalProfit + fractionalProfit)%Q 0%Q
            (selectedBoxes ++
               [{| selected_box := b; fraction := fraction;
                   takenWeight := capacity; takenProfit := fractionalProfit |}])
      else mret (totalProfit, capacity, selectedBoxes)
  end.

Record result : Type := {
  type : string;
  totalProfit : Q;
  selectedBoxes : list selection;
  usedCapacity : Q;
  remainingCapacity : Q;
  capacity : Q;
  efficiency : jsnum;
  approach : Z;
  approachName : string
}.

(** The object returned once the loop has ended. *)
Definition make_result (approach : Z) (truckCapacity : Q)
    (st : Q * Q * list selection) : result :=
  let '(totalProfit, capacity, selectedBoxes) := st in
  let usedCapacity := (truckCapacity - capacity)%Q in
  let efficiency :=
    if Qlt_bool 0 truckCapacity then js_div totalProfit usedCapacity else Num 0 in
  {| type := "knapsack";
     totalProfit := toFixed2 totalProfit;
     selectedBoxes := selectedBoxes;
     usedCapacity := usedCapacity;
     remainingCapacity := capacity;
     capacity := truckCapacity;
     efficiency := js_toFixed2 efficiency;
     approach := approach;
     approachName :=
       if (approach =? 1)%Z then "Weight-based"
       else if (approach =? 2)%Z then "Profit-based"
       else "Ratio-based" |}.

(** [fractionalKnapsack(boxes, approach, truckCapacity)], called with all
    three arguments. *)
Definition fractionalKnapsack (boxes : loc) (approach : Z) (truckCapacity : Q)
    : M result :=
  es ← get_array boxes;
  refs ← copy_boxes es 0;
  temp ← alloc (Array refs);
  sortBoxes temp approach;;
  sorted ← get_array temp;
  st ← load temp (seq 0 (length sorted)) 0%Q truckCapacity [];
  mret (make_result approach truckCapacity st).

(** *** Vocabulary of the statements *)

(** The caller's array at [boxes] lists the box objects [bs]. *)
Definition boxes_at (h : heap) (boxes : loc) (bs : list box) : Prop :=
  exists es, h !! boxes = Some (Array es) /\
    Forall2 (fun e b => h !! e = Some (Box b)) es bs.


Definition sum_takenProfit (sel : list selection) : Q :=
  fold_right (fun s acc => (takenProfit s + acc)%Q) 0%Q sel.


(** A store holding the three items of the example of the specification,
    (w=10,v=60), (w=20,v=100), (w=15,v=120), and the array that lists them. *)
Definition item (w p : Q) : box :=
  {| index := None; weight := w; profit := p; name := None; ratio := None |}.

Definition example_store : heap :=
  [ Box (item 10 60); Box (item 20 100); Box (item 15 120); Array [0; 1; 2] ].

Definition example_items : list box :=
  [ item 10 60; item 20 100; item 15 120 ].

(** A store whose only item weighs nothing. *)
Definition zero_weight_store : heap := [ Box (item 0 5); Array [0] ].

End FractionalKnapsack.

(** ** Travelling salesman: [buildDistanceMatrix], [generateCityPositions]
    and [tsp] *)

Module TSPDriver.

(** An element of [tourSegments]. *)
Module Segment.
Record t : Type := { from : nat; to : nat; distance : jsnum }.
End Segment.

(** The object that [tsp] returns.  [distance], [averageSegmentDistance]
    and the [distance] of a segment are the numbers that the strings made by
    [toFixed(2)] denote. *)
Record result (city : Type) : Type := {
  type : string;
  tour : list nat;
  distance : jsnum;
  cityPositions : list city;
  numCities : option Z;
  allVisited : bool;
  numCitiesVisited : nat;
  distanceMatrix : list (list jsnum);
  tourSegments : list Segment.t;
  averageSegmentDistance : jsnum
}.
Arguments type {city} r.
Arguments tour {city} r.
Arguments distance {city} r.
Arguments cityPositions {city} r.
Arguments numCities {city} r.
Arguments allVisited {city} r.
Arguments numCitiesVisited {city} r.
Arguments distanceMatrix {city} r.
Arguments tourSegments {city} r.
Arguments averageSegmentDistance {city} r.

(** [a / k] for a number [a] and an array length [k]. *)
Definition js_over (a : jsnum) (k : nat) : jsnum :=
  match a with
  | Num q => js_div q (inject_Z (Z.of_nat k))
  | _ => a
  end.

Section Driver.

(** A city object.  Its coordinates are read by [calculateDistance] only. *)
Context {city : Type}.

(** [calculateDistance(city1, city2)]: floating-point arithmetic and
    [Math.sqrt], which are not modelled; the function is taken as given. *)
Variable calculateDistance : city -> city -> jsnum.

(** The object [{id: i, x: ..., y: ...}] that [generateCityPositions]
    pushes at step [i]; its coordinates come from [Math.random]. *)
Variable random_city : nat -> city.

(** The inner loop [for (j = 0; j < n; j++)] of [buildDistanceMatrix], over
    the remaining values [js] of [j].  Reading a coordinate of a missing
    city, or writing into a missing row, throws. *)
Fixpoint fill_row (cityPositions : list city) (i : nat) (js : list nat)
    (distances : list (list jsnum)) : outcome (list (list jsnum)) :=
  match js with
  | [] => Ret distances
  | j :: js' =>
      v ← (if negb (i =? j) then
             match cityPositions !! i, cityPositions !! j with
             | Some ci, Some cj => Ret (calculateDistance ci cj)
             | _, _ => Throw TypeError
             end
           else Ret (Num 0));
      match distances !! i with
      | Some row =>
          fill_row cityPositions i js' (<[i := js_store NaN row j v]> distances)
      | None => Throw TypeError
      end
  end.

(** The outer loop [for (i = 0; i < n; i++)], over the remaining values
    [ixs] of [i]. *)
Fixpoint fill_rows (cityPositions : list city) (n : nat) (ixs : list nat)
    (distances : list (list jsnum)) : outcome (list (list jsnum)) :=
  match ixs with
  | [] => Ret distances
  | i :: ixs' =>
      distances' ← fill_row cityPositions i (seq 0 n) distances;
      fill_rows cityPositions n ixs' distances'
  end.

(** [buildDistanceMatrix(cityPositions)].  Every row of the initial matrix
    is an array of its own. *)
Definition buildDistanceMatrix (cityPositions : list city)
    : outcome (list (list jsnum)) :=
  let n := length cityPositions in
  let distances := replicate n (replicate n (Num 0)) in
  fill_rows cityPositions n (seq 0 n) distances.

(** [generateCityPositions(numCities)] with the default width and height,
    for [numCities] the result of [parseInt]: an integer, or [NaN] ([None]),
    for which the loop test [i < numCities] fails at once.  A digit string so
    long that [parseInt] reads it as [Infinity] is outside the model. *)
Definition generateCityPositions (numCities : option Z) : list city :=
  match numCities with
  | Some z => map random_city (seq 0 (Z.to_nat z))
  | None => []
  end.

(** The loop [for (i = 0; i < result.tour.length - 1; i++)] of [tsp], over
    the remaining values [ixs] of [i].  [distances[from][to].toFixed(2)]
    throws when the row or the entry is missing. *)
Fixpoint tour_segments (distances : list (list jsnum)) (tour : list nat)
    (ixs : list nat) (tourSegments : list Segment.t) : outcome (list Segment.t) :=
  match ixs with
  | [] => Ret tourSegments
  | i :: ixs' =>
      match tour !! i, tour !! (i + 1) with
      | Some from, Some to =>
          match distances !! from with
          | Some row =>
              match row !! to with
              | Some d =>
                  tour_segments distances tour ixs'
                    (tourSegments ++
                       [{| Segment.from := from; Segment.to := to;
                           Segment.distance := js_toFixed2 d |}])
              | None => Throw TypeError
              end
          | None => Throw TypeError
          end
      | _, _ => Throw TypeError
      end
  end.

(** [tsp(numCities, customCityPositions, customDistanceMatrix)], for
    [cities] the value of [parseInt(numCities)]; an argument that is [null]
    or left out is [None].  The message written with [console.error] is not
    part of the result. *)
Definition tsp (cities : option Z) (customCityPositions : option (list city))
    (customDistanceMatrix : option (list (list jsnum))) : outcome (result city) :=
  let cityPositions :=
    match customCityPositions with
    | Some cs => cs
    | None => generateCityPositions cities
    end in
  distances ← match customDistanceMatrix with
              | Some D => Ret D
              | None => buildDistanceMatrix cityPositions
              end;
  result ← TSP.nearestNeighbor distances 0;
  tourSegments ←
    tour_segments distances (TSP.tour result)
      (seq 0 (length (TSP.tour result) - 1)) [];
  Ret {| type := "tsp";
         tour := TSP.tour result;
         distance := js_toFixed2 (TSP.totalDistance result);
         cityPositions := cityPositions;
         numCities := cities;
         allVisited := TSP.allVisited result;
         numCitiesVisited := TSP.numCitiesVisited result;
         distanceMatrix := distances;
         tourSegments := tourSegments;
         averageSegmentDistance :=
           js_toFixed2 (js_over (TSP.totalDistance result)
                          (length (TSP.tour result) - 1)) |}.

End Driver.

(** *** Vocabulary of the statements *)

(** The segments between consecutive vertices of a tour, in tour order. *)
Fixpoint segments_of (distances : list (list jsnum)) (t : list nat)
    : list Segment.t :=
  match t with
  | u :: ((v :: _) as t') =>
      {| Segment.from := u; Segment.to := v;
         Segment.distance := js_toFixed2 (TSP.dist distances u v) |}
      :: segments_of distances t'
  | _ => []
  end.

End TSPDriver.

(** ** Multi-stage graph: [multiStageGraphWithEdges] *)

Module MultiStageGraphDriver.
Import Stdlib.Strings.Ascii.

(** The object that [multiStageGraphWithEdges] returns.  An element of
    [stageVertices] that was never written is [None]. *)
Record result : Type := {
  type : string;
  minimumCost : jsnum;
  cost : jsnum;
  path : list Z;
  displayPath : list Z;
  stages : Z;
  nodesPerStage : Z;
  totalVertices : nat;
  costMatrix : list (list jsnum);
  stageVertices : list (option (list Z));
  bcostArray : list jsnum;
  decisionArray : list Z
}.

(** How a call ends: [Array(n)] throws a [RangeError] unless [n] is an
    integer from 0 to [2^32 - 1]; otherwise the call ends as the rest of its
    body does. *)
Inductive ending (A : Type) : Type :=
  | RangeError
  | Proceeds (o : outcome A).
Arguments RangeError {A}.
Arguments Proceeds {A} o.

(** [s.split(sep)] for a separator that matches the single characters
    [sep]: the pieces between the separators, empty pieces included. *)
Fixpoint split_on (sep : Ascii.ascii -> bool) (s : string) : list string :=
  match s with
  | EmptyString => [EmptyString]
  | String c s' =>
      if sep c then EmptyString :: split_on sep s'
      else match split_on sep s' with
           | p :: ps => String c p :: ps
           | [] => [String c EmptyString]
           end
  end.

(** The separator [','] and the separator [/[-:]/]. *)
Definition is_comma (c : Ascii.ascii) : bool := Ascii.eqb c ","%char.

Definition is_dash_or_colon (c : Ascii.ascii) : bool :=
  Ascii.eqb c "-"%char || Ascii.eqb c ":"%char.

(** A string as a condition: the empty string is falsy. *)
Definition truthy (s : string) : bool :=
  match s with EmptyString => false | String _ _ => true end.

Definition js_isNaN (a : jsnum) : bool :=
  match a with NaN => true | _ => false end.

Section Driver.

(** [parseInt] returns an integer or [NaN] ([None]); [parseFloat] returns a
    number; [trim] returns a string.  The three are taken as given.  A digit
    string so long that [parseInt] reads it as [Infinity] is outside the
    model. *)
Variable parseInt : string -> option Z.
Variable parseFloat : string -> jsnum.
Variable trim : string -> string.

(** The body of the loop [for (const edge of edges)].  [costMatrix[from]]
    is [undefined] for a negative [from], and writing to a property of it
    throws; a negative [to] names a property that is no element of the
    row. *)
Definition set_edge (n : nat) (costMatrix : list (list jsnum)) (edge : string)
    : outcome (list (list jsnum)) :=
  match split_on is_dash_or_colon (trim edge) with
  | [p0; p1; p2] =>
      match parseInt p0, parseInt p1 with
      | Some from, Some to =>
          let cost := parseFloat p2 in
          if negb (js_isNaN cost) && (from <? Z.of_nat n)%Z && (to <? Z.of_nat n)%Z
          then
            if (from <? 0)%Z then Throw TypeError
            else
              match costMatrix !! Z.to_nat from with
              | Some row =>
                  if (to <? 0)%Z then Ret costMatrix
                  else Ret (<[Z.to_nat from := js_store NaN row (Z.to_nat to) cost]>
                              costMatrix)
              | None => Throw TypeError
              end
          else Ret costMatrix
      | _, _ => Ret costMatrix
      end
  | _ => Ret costMatrix
  end.

Fixpoint set_edges (n : nat) (edges : list string) (costMatrix : list (list jsnum))
    : outcome (list (list jsnum)) :=
  match edges with
  | [] => Ret costMatrix
  | edge :: edges' =>
      costMatrix' ← set_edge n costMatrix edge;
      set_edges n edges' costMatrix'
  end.

(** The inner loop [for (i = 0; i < nodes; i++)], over the remaining values
    [ixs] of [i]: [stageVertices[stage].push(vertexIndex)]. *)
Fixpoint push_vertices (stage : nat) (ixs : list nat)
    (stageVertices : list (option (list Z))) (vertexIndex : Z)
    : list (option (list Z)) * Z :=
  match ixs with
  | [] => (stageVertices, vertexIndex)
  | _ :: ixs' =>
      push_vertices stage ixs'
        (alter (fmap (fun row => row ++ [vertexIndex])) stage stageVertices)
        (vertexIndex + 1)%Z
  end.

(** The outer loop [for (stage = 1; stage < stages - 1; stage++)], over the
    remaining values [stage_values] of [stage]. *)
Fixpoint build_stages (nodes : Z) (stage_values : list nat)
    (stageVertices : list (option (list Z))) (vertexIndex : Z)
    : list (option (list Z)) * Z :=
  match stage_values with
  | [] => (stageVertices, vertexIndex)
  | stage :: rest =>
      let stageVertices := js_store None stageVertices stage (Some []) in
      let '(stageVertices, vertexIndex) :=
        push_vertices stage (seq 0 (Z.to_nat nodes)) stageVertices vertexIndex in
      build_stages nodes rest stageVertices vertexIndex
  end.

(** [multiStageGraphWithEdges(numStages, nodesPerStage, edgeCostsString)].
    The call of [backwardCost] runs on the fuel given. *)
Definition multiStageGraphWithEdges (fuel : nat)
    (numStages nodesPerStage edgeCostsString : string) : ending result :=
  match parseInt numStages, parseInt nodesPerStage with
  | Some stages, Some nodes =>
      let n := (1 + (stages - 2) * nodes + 1)%Z in
      if ((n <? 0) || (4294967296 <=? n))%Z then RangeError
      else
        let n := Z.to_nat n in
        Proceeds (
          let costMatrix := replicate n (replicate n MultiStageGraph.INF) in
          costMatrix ←
            (if truthy edgeCostsString && truthy (trim edgeCostsString)
             then set_edges n (split_on is_comma edgeCostsString) costMatrix
             else Ret costMatrix);
          let stageVertices := [Some [0%Z]] in
          let '(stageVertices, _) :=
            build_stages nodes (seq 1 (Z.to_nat (stages - 2))) stageVertices 1%Z in
          let stageVertices :=
            if (stages - 1 <? 0)%Z then stageVertices
            else js_store None stageVertices (Z.to_nat (stages - 1))
                   (Some [(Z.of_nat n - 1)%Z]) in
          result ← MultiStageGraph.backwardCost fuel costMatrix n;
          let displayPath := map (fun v => (v + 1)%Z) (MultiStageGraph.path result) in
          Ret {| type := "multistage";
                 minimumCost := MultiStageGraph.minimumCost result;
                 cost := MultiStageGraph.minimumCost result;
                 path := MultiStageGraph.path result;
                 displayPath := displayPath;
                 stages := stages;
                 nodesPerStage := nodes;
                 totalVertices := n;
                 costMatrix := costMatrix;
                 stageVertices := stageVertices;
                 bcostArray := MultiStageGraph.bcostArray result;
                 decisionArray := MultiStageGraph.decisionArray result |})
  | _, _ => RangeError
  end.

(** *** Vocabulary of the statements *)

(** The edge that an entry of the edge string declares, when it has the
    three parts [from], [to] and [cost] and none of them parses to [NaN]. *)
Definition declared_edge (edge : string) : option (Z * Z * jsnum) :=
  match split_on is_dash_or_colon (trim edge) with
  | [p0; p1; p2] =>
      match parseInt p0, parseInt p1 with
      | Some from, Some to =>
          if js_isNaN (parseFloat p2) then None
          else Some (from, to, parseFloat p2)
      | _, _ => None
      end
  | _ => None
  end.

(** The cost that a list of entries declares for the edge from [u] to [v]:
    that of the last entry for it, [Infinity] when there is none. *)
Definition declared_cost (edges : list string) (u v : nat) : jsnum :=
  fold_left
    (fun acc edge =>
       match declared_edge edge with
       | Some (from, to, cost) =>
           if ((from =? Z.of_nat u) && (to =? Z.of_nat v))%Z then cost else acc
       | None => acc
       end)
    edges MultiStageGraph.INF.

End Driver.

(** A string without the character [-]. *)
Fixpoint no_dash (s : string) : Prop :=
  match s with
  | EmptyString => True
  | String c s' => Ascii.eqb c "-"%char = false /\ no_dash s'
  end.

(** Stand-ins for the parsers on strings of decimal digits, on which they
    agree with [parseInt] and [parseFloat]; every other string is read as
    [NaN]. *)
Definition digit_value (c : Ascii.ascii) : option Z :=
  let k := Ascii.nat_of_ascii c in
  if (48 <=? k) && (k <=? 57) then Some (Z.of_nat (k - 48)) else None.

Fixpoint digits_value (s : string) (acc : Z) : option Z :=
  match s with
  | EmptyString => Some acc
  | String c s' =>
      match digit_value c with
      | Some k => digits_value s' (10 * acc + k)%Z
      | None => None
      end
  end.

Definition parse_digits (s : string) : option Z :=
  match s with
  | EmptyString => None
  | String _ _ => digits_value s 0
  end.

Definition parse_digits_number (s : string) : jsnum :=
  match parse_digits s with
  | Some z => Num (inject_Z z)
  | None => NaN
  end.

End MultiStageGraphDriver.

(** ** Facts about JavaScript numbers *)

Module JsFacts.

Lemma Qlt_bool_iff (x y : Q) : Qlt_bool x y = true <-> (x < y)%Q.
Proof.
  unfold Qlt_bool. rewrite negb_true_iff. split.
  - intros H. apply Qnot_le_lt. intros Hle.
    apply Qle_bool_iff in Hle. congruence.
  - intros H. destruct (Qle_bool y x) eqn:E; [|reflexivity].
    apply Qle_bool_iff in E. lra.
Qed.

Lemma Qlt_bool_false (x y : Q) : Qlt_bool x y = false <-> (y <= x)%Q.
Proof.
  unfold Qlt_bool. rewrite negb_false_iff. apply Qle_bool_iff.
Qed.

Ltac js_cases :=
  repeat match goal with
         | a : jsnum |- _ => destruct a
         end;
  simpl in *; try tauto; try discriminate.

Lemma js_le_refl (a : jsnum) : is_cost a -> js_le a a.
Proof. destruct a; simpl; try tauto. intros _. lra. Qed.

Lemma js_le_trans (a b c : jsnum) : js_le a b -> js_le b c -> js_le a c.
Proof. js_cases. lra. Qed.

Lemma js_lt_le (a b : jsnum) : js_lt a b = true -> js_le a b.
Proof. js_cases. rewrite Qlt_bool_iff. lra. Qed.

Lemma js_not_lt_le (a b : jsnum) :
  is_cost a -> is_cost b -> js_lt a b = false -> js_le b a.
Proof. js_cases. intros _ _. apply Qlt_bool_false. Qed.

Lemma js_add_cost (a b : jsnum) : is_cost a -> is_cost b -> is_cost (js_add a b).
Proof. js_cases. Qed.

Lemma js_add_le_mono (a b c : jsnum) :
  is_finite a -> js_le b c -> js_le (js_add b a) (js_add a c).
Proof. js_cases. lra. Qed.

Lemma js_get_lookup (l : list jsnum) (i : nat) (x : jsnum) :
  l !! i = Some x -> js_get l i = x.
Proof. unfold js_get. intros ->. reflexivity. Qed.

Lemma js_store_length {A : Type} (h : A) (l : list A) (i : nat) (v : A) :
  i <= length l -> S i <= length (js_store h l i v).
Proof.
  intros Hi. unfold js_store. destruct (i <? length l) eqn:E.
  - apply Nat.ltb_lt in E. rewrite length_insert. lia.
  - apply Nat.ltb_ge in E. rewrite !length_app, length_replicate. simpl. lia.
Qed.

Lemma js_store_take {A : Type} (h : A) (l : list A) (i : nat) (v : A) :
  i <= length l -> take (S i) (js_store h l i v) = take i l ++ [v].
Proof.
  intros Hi. unfold js_store. destruct (i <? length l) eqn:E.
  - apply Nat.ltb_lt in E.
    rewrite (take_S_r _ _ v) by (apply list_lookup_insert_eq; exact E).
    rewrite take_insert_ge by lia. reflexivity.
  - apply Nat.ltb_ge in E. assert (i = length l) as -> by lia.
    rewrite Nat.sub_diag. simpl.
    rewrite take_app_ge by lia. rewrite firstn_all.
    replace (S (length l) - length l) with 1 by lia. reflexivity.
Qed.

End JsFacts.

Module MultiStageGraphTheory.
Import MultiStageGraph JsFacts.

Example backwardCost_example :
  backwardCost 4 example_graph 4 =
  Ret {| minimumCost := Num (4 + 2); path := [0; 1; 3]%Z;
         bcostArray := [Num (4 + 2); Num (0 + 4); Num (0 + 5); Num 0];
         decisionArray := [1; 3; 3; 0]%Z |}.
Proof. reflexivity. Qed.

(** *** The inner loop *)

Section Scan.
Context (G : matrix) (bcost : list jsnum) (j : nat) (row : list jsnum).
Hypothesis Hrow : G !! j = Some row.

(** Whatever the entries, the scan returns, and the vertex it records is
    the initial one or one of the scanned vertices. *)
Lemma scan_successors_returns (rs : list nat) (m : jsnum) (nv : Z) :
  exists m' nv', scan_successors G bcost j rs m nv = Ret (m', nv') /\
    (nv' = nv \/ exists r, r ∈ rs /\ nv' = Z.of_nat r).
Proof using Hrow.
  revert m nv. induction rs as [|r rs IH]; intros m nv; simpl.
  - eauto.
  - rewrite Hrow.
    destruct (js_not_INF (js_get row r));
      [destruct (js_lt (js_add (js_get bcost r) (js_get row r)) m)|].
    + destruct (IH (js_add (js_get bcost r) (js_get row r)) (Z.of_nat r))
        as (m' & nv' & -> & [->|(r' & Hr' & ->)]);
        do 2 eexists; (split; [reflexivity|]); right.
      * exists r. split; [left|reflexivity].
      * exists r'. split; [right; exact Hr'|reflexivity].
    + destruct (IH m nv) as (m' & nv' & -> & [->|(r' & Hr' & ->)]);
        do 2 eexists; (split; [reflexivity|]); [left; reflexivity|right].
      exists r'. split; [right; exact Hr'|reflexivity].
    + destruct (IH m nv) as (m' & nv' & -> & [->|(r' & Hr' & ->)]);
        do 2 eexists; (split; [reflexivity|]); [left; reflexivity|right].
      exists r'. split; [right; exact Hr'|reflexivity].
Qed.

(** On costs the scan computes the least [bcost[r] + G[j][r]] over the
    scanned edges, and records a vertex that attains it. *)
Lemma scan_successors_min (rs : list nat) (m : jsnum) (nv : Z) :
  is_cost m ->
  (forall r, r ∈ rs -> is_cost (js_get row r) /\ is_cost (js_get bcost r)) ->
  exists m' nv', scan_successors G bcost j rs m nv = Ret (m', nv') /\
    is_cost m' /\ js_le m' m /\
    (forall r, r ∈ rs -> is_finite (js_get row r) ->
       js_le m' (js_add (js_get bcost r) (js_get row r))) /\
    ((m' = m /\ nv' = nv) \/
     exists r, r ∈ rs /\ is_finite (js_get row r) /\ is_finite (js_get bcost r) /\
       m' = js_add (js_get bcost r) (js_get row r) /\ nv' = Z.of_nat r).
Proof using Hrow.
  revert m nv. induction rs as [|r rs IH]; intros m nv Hm Hrs; simpl.
  - exists m, nv. split; [reflexivity|]. split; [exact Hm|].
    split; [apply js_le_refl; exact Hm|]. split; [|left; split; reflexivity].
    intros r Hr. inversion Hr.
  - rewrite Hrow.
    destruct (Hrs r) as [Hce Hcb]; [left|].
    assert (Hrs' : forall r', r' ∈ rs ->
              is_cost (js_get row r') /\ is_cost (js_get bcost r'))
      by (intros r' Hr'; apply Hrs; right; exact Hr').
    set (total := js_add (js_get bcost r) (js_get row r)).
    assert (Htot : is_cost total) by (apply js_add_cost; assumption).
    destruct (js_not_INF (js_get row r)) eqn:Einf;
      [destruct (js_lt total m) eqn:Elt|].
    + destruct (IH total (Z.of_nat r) Htot Hrs')
        as (m' & nv' & -> & Hc' & Hle & Hall & Hwit).
      exists m', nv'. split; [reflexivity|]. split; [exact Hc'|].
      split; [eapply js_le_trans; [exact Hle|apply js_lt_le; exact Elt]|].
      split.
      * intros r' Hr' Hfin. apply elem_of_cons in Hr' as [->|Hr'].
        -- exact Hle.
        -- apply Hall; assumption.
      * right. destruct Hwit as [[-> ->]|(r' & Hr' & Hw)].
        -- exists r. split; [left|].
           assert (Hft : is_finite total).
           { destruct total; simpl in *; try tauto; destruct m; discriminate. }
           unfold total in Hft |- *.
           destruct (js_get row r), (js_get bcost r); simpl in *;
             try tauto; discriminate.
        -- exists r'. split; [right; exact Hr'|exact Hw].
    + destruct (IH m nv Hm Hrs')
        as (m' & nv' & -> & Hc' & Hle & Hall & Hwit).
      exists m', nv'. split; [reflexivity|]. split; [exact Hc'|].
      split; [exact Hle|]. split.
      * intros r' Hr' Hfin. apply elem_of_cons in Hr' as [->|Hr'].
        -- eapply js_le_trans; [exact Hle|].
           apply js_not_lt_le; assumption.
        -- apply Hall; assumption.
      * destruct Hwit as [Hsame|(r' & Hr' & Hw)]; [left; exact Hsame|].
        right. exists r'. split; [right; exact Hr'|exact Hw].
    + destruct (IH m nv Hm Hrs')
        as (m' & nv' & -> & Hc' & Hle & Hall & Hwit).
      exists m', nv'. split; [reflexivity|]. split; [exact Hc'|].
      split; [exact Hle|]. split.
      * intros r' Hr' Hfin. apply elem_of_cons in Hr' as [->|Hr'].
        -- destruct (js_get row r); simpl in *; try tauto; discriminate.
        -- apply Hall; assumption.
      * destruct Hwit as [Hsame|(r' & Hr' & Hw)]; [left; exact Hsame|].
        right. exists r'. split; [right; exact Hr'|exact Hw].
Qed.
End Scan.

(** *** The outer loop: a loop rule *)

Lemma backward_pass_invariant (G : matrix) (n : nat)
    (I : nat -> list jsnum -> list Z -> Prop) (k0 : nat) :
  (forall j bcost d, j < k0 -> I (S j) bcost d ->
     exists m nv,
       scan_successors G bcost j (seq (S j) (n - S j)) INF (-1) = Ret (m, nv) /\
       I j (<[j := m]> bcost) (<[j := nv]> d)) ->
  forall k bcost d, k <= k0 -> I k bcost d ->
    exists bcost' d',
      backward_pass G n (rev (seq 0 k)) bcost d = Ret (bcost', d') /\ I 0 bcost' d'.
Proof.
  intros Hstep. induction k as [|k IH]; intros bcost d Hk HI.
  - exists bcost, d. split; [reflexivity|exact HI].
  - rewrite seq_S, rev_app_distr. simpl.
    destruct (Hstep k bcost d) as (m & nv & -> & HI'); [lia|exact HI|].
    simpl. apply IH; [lia|exact HI'].
Qed.

(** *** Path reconstruction *)

(** After the backward pass every decision below the sink is [-1] or a
    strictly higher vertex. *)
Definition ascends (n : nat) (d : list Z) (k : nat) : Prop :=
  forall v, k <= v -> v < n - 1 ->
    exists x, d !! v = Some x /\
      (x = (-1)%Z \/ exists r, x = Z.of_nat r /\ v < r < n).

(** The chain of successors that the decision array spells out from [v]. *)
Inductive chain_from (n : nat) (d : list Z) : nat -> list nat -> Prop :=
  | chain_sink v : v = n - 1 -> chain_from n d v []
  | chain_stop v : v < n - 1 -> d !! v = Some (-1)%Z -> chain_from n d v []
  | chain_step v r ch :
      v < n - 1 -> d !! v = Some (Z.of_nat r) -> v < r < n ->
      chain_from n d r ch -> chain_from n d v (r :: ch).

Lemma chain_from_bounds (n : nat) (d : list Z) (v : nat) (ch : list nat) :
  chain_from n d v ch ->
  Sorted Z.lt (map Z.of_nat (v :: ch)) /\ length ch <= n - 1 - v.
Proof.
  induction 1 as [v Hv|v Hv Hd|v r ch Hv Hd Hr Hch [IHs IHl]]; simpl.
  - split; [repeat constructor|lia].
  - split; [repeat constructor|lia].
  - split; [|lia]. constructor; [exact IHs|]. constructor. lia.
Qed.

(** The [while] loop follows the chain, and [n - v] units of fuel are enough
    to leave it when it starts at [v]. *)
Lemma follow_decisions_chain (n : nat) (d : list Z) :
  1 <= n -> ascends n d 0 ->
  forall gap v p index,
    v <= n - 1 -> n - 1 - v <= gap -> index <= length p ->
    exists p' ch,
      chain_from n d v ch /\
      take (index + length ch) p' = take index p ++ map Z.of_nat ch /\
      forall fuel, gap < fuel ->
        follow_decisions fuel n d p (Z.of_nat v) index = Ret (p', index + length ch).
Proof.
  intros Hn Hasc. induction gap as [|gap IH]; intros v p index Hv Hgap Hidx.
  - exists p, []. split; [apply chain_sink; lia|].
    split; [simpl; rewrite Nat.add_0_r, app_nil_r; reflexivity|].
    intros [|fuel] Hf; [lia|]. simpl.
    destruct (Z.eqb_spec (Z.of_nat v) (Z.of_nat n - 1)); [|lia].
    rewrite Nat.add_0_r. reflexivity.
  - destruct (decide (v = n - 1)) as [Hsink|Hbelow].
    + exists p, []. split; [apply chain_sink; exact Hsink|].
      split; [simpl; rewrite Nat.add_0_r, app_nil_r; reflexivity|].
      intros [|fuel] Hf; [lia|]. simpl.
      destruct (Z.eqb_spec (Z.of_nat v) (Z.of_nat n - 1)); [|lia].
      rewrite Nat.add_0_r. reflexivity.
    + destruct (Hasc v) as (x & Hx & Hcase); [lia|lia|].
      assert (Hread : read_decision d (Z.of_nat v) = Some x).
      { unfold read_decision.
        destruct (Z.leb_spec 0 (Z.of_nat v)); [|lia].
        rewrite Nat2Z.id. exact Hx. }
      destruct Hcase as [->|(r & -> & Hr)].
      * exists p, []. split; [apply chain_stop; [lia|exact Hx]|].
        split; [simpl; rewrite Nat.add_0_r, app_nil_r; reflexivity|].
        intros [|fuel] Hf; [lia|]. simpl.
        destruct (Z.eqb_spec (Z.of_nat v) (Z.of_nat n - 1)); [lia|].
        destruct (Z.eqb_spec (Z.of_nat v) (-1)); [lia|].
        rewrite Hread. simpl. rewrite Nat.add_0_r. reflexivity.
      * destruct (IH r (js_store 0%Z p index (Z.of_nat r)) (S index))
          as (p' & ch & Hch & Htake & Hrun); [lia|lia| |].
        { apply js_store_length. exact Hidx. }
        exists p', (r :: ch). split; [apply chain_step; try assumption; lia|].
        simpl length. rewrite Nat.add_succ_r.
        split.
        { simpl in Htake. rewrite Htake, js_store_take by exact Hidx.
          rewrite <- app_assoc. reflexivity. }
        intros [|fuel] Hf; [lia|]. simpl.
        destruct (Z.eqb_spec (Z.of_nat v) (Z.of_nat n - 1)); [lia|].
        destruct (Z.eqb_spec (Z.of_nat v) (-1)); [lia|].
        rewrite Hread.
        destruct (Z.eqb_spec (Z.of_nat r) (-1)); [lia|].
        apply Hrun. lia.
Qed.

(** The backward pass needs rows [0 .. n - 2] of the matrix and nothing
    else of its shape. *)
Lemma backward_pass_ascends (G : matrix) (n : nat) (bcost0 : list jsnum) (d0 : list Z) :
  n - 1 <= length G -> length d0 = n ->
  exists bcost d,
    backward_pass G n (rev (seq 0 (n - 1))) bcost0 d0 = Ret (bcost, d) /\
    length d = n /\ ascends n d 0.
Proof.
  intros HG Hd0.
  destruct (backward_pass_invariant G n
              (fun k _ d => length d = n /\ ascends n d k) (n - 1))
    with (k := n - 1) (bcost := bcost0) (d := d0)
    as (bcost & d & Hrun & Hlen & Hasc).
  - intros j bcost d Hj [Hlen Hasc].
    destruct (lookup_lt_is_Some_2 G j) as [row Hrow]; [lia|].
    destruct (scan_successors_returns G bcost j row Hrow
                (seq (S j) (n - S j)) INF (-1)%Z)
      as (m & nv & Hscan & Hnv).
    exists m, nv. split; [exact Hscan|].
    split; [rewrite length_insert; exact Hlen|].
    intros v Hv Hvn. destruct (decide (v = j)) as [->|Hne].
    + exists nv. split; [apply list_lookup_insert_eq; lia|].
      destruct Hnv as [->|(r & Hr & ->)]; [left; reflexivity|right].
      exists r. split; [reflexivity|].
      apply elem_of_seq in Hr. lia.
    + rewrite list_lookup_insert_ne by congruence. apply Hasc; lia.
  - lia.
  - split; [exact Hd0|]. intros v Hv Hvn. lia.
  - exists bcost, d. auto.
Qed.

(** Once the backward pass has returned, the call returns the chain from
    vertex 0, for every fuel from [n] on. *)
Lemma backwardCost_after_pass (G : matrix) (n : nat) (bcost : list jsnum) (d : list Z) :
  1 <= n ->
  backward_pass G n (rev (seq 0 (n - 1)))
    (match n with O => replicate n INF | S m => <[m := Num 0]> (replicate n INF) end)
    (replicate n 0%Z) = Ret (bcost, d) ->
  ascends n d 0 ->
  exists ch,
    chain_from n d 0 ch /\
    forall fuel, n <= fuel ->
      backwardCost fuel G n =
      Ret {| minimumCost := js_get bcost 0;
             path := 0%Z :: map Z.of_nat ch;
             bcostArray := bcost;
             decisionArray := d |}.
Proof.
  intros Hn Hpass Hasc.
  destruct (follow_decisions_chain n d Hn Hasc (n - 1) 0
              (<[0 := 0%Z]> (replicate (n + 1) 0%Z)) 1)
    as (p' & ch & Hch & Htake & Hrun); [lia|lia| |].
  { rewrite length_insert, length_replicate. lia. }
  exists ch. split; [exact Hch|].
  intros fuel Hfuel. unfold backwardCost. rewrite Hpass. simpl.
  change (Z.of_nat 0) with 0%Z in Hrun.
  rewrite (Hrun fuel) by lia. simpl.
  change (S (length ch)) with (1 + length ch). rewrite Htake.
  replace (n + 1) with (S n) by lia. reflexivity.
Qed.

(** *** Paths to the sink *)

Lemma ascending_last (G : matrix) (rest : list nat) :
  forall u k, ascending G u rest -> last (u :: rest) = Some k ->
    u <= k /\ (rest <> [] -> u < k).
Proof.
  induction rest as [|v rest IH]; intros u k Hasc Hlast.
  - simpl in Hlast. injection Hlast as ->. split; [lia|congruence].
  - destruct Hasc as (Huv & _ & Hasc).
    change (last (u :: v :: rest)) with (last (v :: rest)) in Hlast.
    destruct (IH v k Hasc Hlast) as [Hle _]. split; [lia|intros _; lia].
Qed.


Lemma path_to_sink_at_sink (n : nat) (G : matrix) (u : nat) (rest : list nat) :
  u = n - 1 -> path_to_sink n G u rest -> rest = [].
Proof.
  intros Hu [Hasc Hlast]. destruct rest as [|v rest]; [reflexivity|].
  destruct (ascending_last G (v :: rest) u (n - 1) Hasc Hlast) as [_ Hlt].
  specialize (Hlt ltac:(discriminate)). lia.
Qed.

Lemma path_to_sink_step (n : nat) (G : matrix) (u : nat) (rest : list nat) :
  1 <= n -> u < n - 1 -> path_to_sink n G u rest ->
  exists v rest', rest = v :: rest' /\ u < v < n /\
    is_finite (edge G u v) /\ path_to_sink n G v rest'.
Proof.
  intros Hn Hu [Hasc Hlast]. destruct rest as [|v rest'].
  - simpl in Hlast. injection Hlast as ->. lia.
  - exists v, rest'. split; [reflexivity|].
    destruct Hasc as (Huv & Hfin & Hasc).
    change (last (u :: v :: rest')) with (last (v :: rest')) in Hlast.
    destruct (ascending_last G rest' v (n - 1) Hasc Hlast) as [Hle _].
    repeat split; try assumption; lia.
Qed.

(** *** The invariant of the backward pass on cost matrices *)

(** [c] is the least cost of a path from [v] to the sink. *)
Definition optimal (n : nat) (G : matrix) (v : nat) (c : jsnum) : Prop :=
  is_cost c /\
  (forall rest, path_to_sink n G v rest -> js_le c (walk_cost G v rest)) /\
  (is_finite c ->
   exists rest, path_to_sink n G v rest /\ js_eq (walk_cost G v rest) c).

(** [d[v]] is [-1] when no path leaves [v], and otherwise a successor that
    attains [bcost[v]]. *)
Definition decided (n : nat) (G : matrix) (bcost : list jsnum) (d : list Z)
    (v : nat) : Prop :=
  exists x, d !! v = Some x /\
    ((js_get bcost v = PInf /\ x = (-1)%Z) \/
     exists r, x = Z.of_nat r /\ v < r < n /\
       is_finite (edge G v r) /\ is_finite (js_get bcost r) /\
       js_get bcost v = js_add (js_get bcost r) (edge G v r)).

Definition settled (n : nat) (G : matrix) (k : nat)
    (bcost : list jsnum) (d : list Z) : Prop :=
  length bcost = n /\ length d = n /\
  (forall v, k <= v -> v < n -> optimal n G v (js_get bcost v)) /\
  (forall v, k <= v -> v < n - 1 -> decided n G bcost d v).

Lemma js_get_insert_eq (l : list jsnum) (i : nat) (x : jsnum) :
  i < length l -> js_get (<[i := x]> l) i = x.
Proof. intros Hi. apply js_get_lookup, list_lookup_insert_eq, Hi. Qed.

Lemma js_get_insert_ne (l : list jsnum) (i j : nat) (x : jsnum) :
  i <> j -> js_get (<[i := x]> l) j = js_get l j.
Proof. intros Hij. unfold js_get. rewrite list_lookup_insert_ne by exact Hij. reflexivity. Qed.

Lemma settled_init (n : nat) (G : matrix) :
  1 <= n ->
  settled n G (n - 1)
    (match n with O => replicate n INF | S m => <[m := Num 0]> (replicate n INF) end)
    (replicate n 0%Z).
Proof.
  intros Hn. destruct n as [|m]; [lia|].
  replace (S m - 1) with m by lia.
  split; [rewrite length_insert, length_replicate; reflexivity|].
  split; [rewrite length_replicate; reflexivity|].
  split; [|intros v Hv Hvn; lia].
  intros v Hv Hvn. assert (v = m) as -> by lia.
  rewrite js_get_insert_eq by (rewrite length_replicate; lia).
  split; [exact I|]. split.
  - intros rest Hp.
    apply path_to_sink_at_sink in Hp as ->; [simpl; lra|lia].
  - intros _. exists []. split.
    + split; [exact I|]. simpl. f_equal. lia.
    + simpl. lra.
Qed.

Lemma settled_step (n : nat) (G : matrix) (j : nat) (bcost : list jsnum) (d : list Z) :
  cost_matrix n G -> j < n - 1 -> settled n G (S j) bcost d ->
  exists m nv,
    scan_successors G bcost j (seq (S j) (n - S j)) INF (-1) = Ret (m, nv) /\
    settled n G j (<[j := m]> bcost) (<[j := nv]> d).
Proof.
  intros [[HlenG Hrows] Hcost] Hj (Hlb & Hld & Hopt & Hdec).
  destruct (lookup_lt_is_Some_2 G j) as [row Hrow]; [lia|].
  assert (Hedge : forall r, edge G j r = js_get row r)
    by (intros r; unfold edge; rewrite Hrow; reflexivity).
  destruct (scan_successors_min G bcost j row Hrow (seq (S j) (n - S j)) INF (-1)%Z)
    as (m & nv & Hscan & Hcm & _ & Hall & Hwit); [exact I| |].
  { intros r Hr. apply elem_of_seq in Hr. split.
    - rewrite <- Hedge. apply Hcost. lia.
    - apply Hopt; lia. }
  exists m, nv. split; [exact Hscan|].
  split; [rewrite length_insert; exact Hlb|].
  split; [rewrite length_insert; exact Hld|].
  split.
  - intros v Hv Hvn. destruct (decide (v = j)) as [->|Hne].
    + rewrite js_get_insert_eq by lia. split; [exact Hcm|]. split.
      * intros rest Hp.
        destruct (path_to_sink_step n G j rest) as (v & rest' & -> & Hv' & Hfin & Hp');
          [lia|exact Hj|exact Hp|].
        simpl. eapply js_le_trans.
        -- apply (Hall v); [apply elem_of_seq; lia|rewrite <- Hedge; exact Hfin].
        -- rewrite <- Hedge. apply js_add_le_mono; [exact Hfin|].
           apply (Hopt v); [lia|lia|exact Hp'].
      * intros Hfm. destruct Hwit as [[-> _]|(r & Hr & Hfe & Hfb & -> & _)];
          [destruct Hfm|].
        apply elem_of_seq in Hr.
        destruct (Hopt r) as (_ & _ & Hex); [lia|lia|].
        destruct (Hex Hfb) as (rest & [Hasc Hlast] & Heq).
        exists (r :: rest). split.
        -- split; [|exact Hlast]. simpl. rewrite Hedge. repeat split; try assumption; lia.
        -- simpl. rewrite Hedge.
           destruct (js_get row r), (walk_cost G r rest), (js_get bcost r);
             simpl in *; try tauto. lra.
    + rewrite js_get_insert_ne by congruence. apply Hopt; lia.
  - intros v Hv Hvn. destruct (decide (v = j)) as [->|Hne].
    + exists nv. split; [apply list_lookup_insert_eq; lia|].
      rewrite js_get_insert_eq by lia.
      destruct Hwit as [[-> ->]|(r & Hr & Hfe & Hfb & -> & ->)];
        [left; split; reflexivity|right].
      apply elem_of_seq in Hr. exists r. split; [reflexivity|].
      rewrite js_get_insert_ne by lia. rewrite Hedge.
      repeat split; try assumption; lia.
    + destruct (Hdec v) as (x & Hx & Hcase); [lia|lia|].
      exists x. split; [rewrite list_lookup_insert_ne by congruence; exact Hx|].
      rewrite js_get_insert_ne by congruence.
      destruct Hcase as [Hinf|(r & -> & Hr & Hfe & Hfb & Hsum)]; [left; exact Hinf|].
      right. exists r. split; [reflexivity|].
      rewrite js_get_insert_ne by lia. repeat split; try assumption; lia.
Qed.

Lemma backward_pass_settles (n : nat) (G : matrix) :
  cost_matrix n G -> 1 <= n ->
  exists bcost d,
    backward_pass G n (rev (seq 0 (n - 1)))
      (match n with O => replicate n INF | S m => <[m := Num 0]> (replicate n INF) end)
      (replicate n 0%Z) = Ret (bcost, d) /\
    settled n G 0 bcost d.
Proof.
  intros HG Hn.
  apply (backward_pass_invariant G n (settled n G) (n - 1)) with (k := n - 1).
  - intros j bcost d Hj Hs. apply settled_step; assumption.
  - lia.
  - apply settled_init. exact Hn.
Qed.

Lemma settled_ascends (n : nat) (G : matrix) (bcost : list jsnum) (d : list Z) :
  settled n G 0 bcost d -> ascends n d 0.
Proof.
  intros (_ & _ & _ & Hdec) v Hv Hvn.
  destruct (Hdec v Hv Hvn) as (x & Hx & [[_ ->]|(r & -> & Hr & _)]).
  - exists (-1)%Z. split; [exact Hx|left; reflexivity].
  - exists (Z.of_nat r). split; [exact Hx|right]. exists r. split; [reflexivity|exact Hr].
Qed.

(** On a settled table the chain from a vertex of finite cost is a path to
    the sink of exactly that cost, and the chain from a vertex of infinite
    cost is empty. *)
Lemma chain_realises (n : nat) (G : matrix) (bcost : list jsnum) (d : list Z) :
  1 <= n -> settled n G 0 bcost d ->
  forall v ch, chain_from n d v ch ->
    (is_finite (js_get bcost v) ->
     path_to_sink n G v ch /\ js_eq (walk_cost G v ch) (js_get bcost v)) /\
    (js_get bcost v = PInf -> ch = []).
Proof.
  intros Hn (_ & _ & Hopt & Hdec).
  induction 1 as [v Hv|v Hv Hd|v r ch Hv Hd Hr Hch IH].
  - split; [|reflexivity]. intros Hfin.
    destruct (Hopt v) as (_ & _ & Hex); [lia|lia|].
    destruct (Hex Hfin) as (rest & Hp & Heq).
    pose proof (path_to_sink_at_sink n G v rest Hv Hp) as ->.
    split; assumption.
  - split; [|reflexivity]. intros Hfin.
    destruct (Hdec v) as (x & Hx & [[Hinf _]|(r & -> & _)]); [lia|lia| |].
    + rewrite Hinf in Hfin. destruct Hfin.
    + rewrite Hd in Hx. injection Hx as Hx. lia.
  - destruct (Hdec v) as (x & Hx & [[_ ->]|(r' & -> & _ & Hfe & Hfb & Hsum)]);
      [lia|lia| |].
    + rewrite Hd in Hx. injection Hx as Hx. lia.
    + rewrite Hd in Hx. injection Hx as Hx. apply Nat2Z.inj in Hx as <-.
      destruct IH as [IH _]. destruct (IH Hfb) as [[Hasc Hlast] Heq].
      split.
      * intros _. split.
        -- split; [|exact Hlast]. simpl. repeat split; try assumption; lia.
        -- simpl. rewrite Hsum.
           destruct (edge G v r), (walk_cost G r ch), (js_get bcost r);
             simpl in *; try tauto. lra.
      * intros Hinf. rewrite Hinf in Hsum.
        destruct (edge G v r), (js_get bcost r); simpl in *; try tauto; discriminate.
Qed.

(** On a cost matrix the call returns the settled tables and the chain
    from vertex 0. *)
Lemma backwardCost_settled (n : nat) (G : matrix) :
  cost_matrix n G -> 1 <= n ->
  exists bcost d ch,
    settled n G 0 bcost d /\ chain_from n d 0 ch /\
    forall fuel, n <= fuel ->
      backwardCost fuel G n =
      Ret {| minimumCost := js_get bcost 0;
             path := 0%Z :: map Z.of_nat ch;
             bcostArray := bcost;
             decisionArray := d |}.
Proof.
  intros HG Hn.
  destruct (backward_pass_settles n G HG Hn) as (bcost & d & Hpass & Hset).
  destruct (backwardCost_after_pass G n bcost d) as (ch & Hch & Hrun);
    [exact Hn|exact Hpass|eapply settled_ascends; exact Hset|].
  exists bcost, d, ch. auto.
Qed.

(** With fewer than [n - 1] rows the first read of [G[n - 2]] throws. *)
Lemma backward_pass_missing_row (G : matrix) (n : nat) (bcost : list jsnum) (d : list Z) :
  2 <= n -> length G < n - 1 ->
  backward_pass G n (rev (seq 0 (n - 1))) bcost d = Throw TypeError.
Proof.
  intros Hn HG. destruct n as [|[|m]]; [lia|lia|].
  replace (S (S m) - 1) with (S m) by lia.
  rewrite seq_S, rev_app_distr. simpl.
  replace (S m - m) with 1 by lia. simpl.
  rewrite (lookup_ge_None_2 G m) by lia. reflexivity.
Qed.

(** *** The claims about [backwardCost] *)


(** C10.  On every [n]x[n] matrix with [n >= 2], whatever its entries, the
    call returns for every fuel from [n] on (the reconstruction loop ends by
    itself), and the returned path begins at vertex 0, is strictly
    increasing, and has at most [n] entries. *)
Theorem backwardCost_path_increasing (n : nat) (G : matrix) :
  square n G -> 2 <= n ->
  exists res,
    (forall fuel, n <= fuel -> backwardCost fuel G n = Ret res) /\
    head (path res) = Some 0%Z /\
    StronglySorted Z.lt (path res) /\
    length (path res) <= n.
Proof.
  intros [HlenG _] Hn.
  destruct (backward_pass_ascends G n
              (match n with O => replicate n INF
                       | S m => <[m := Num 0]> (replicate n INF) end)
              (replicate n 0%Z))
    as (bcost & d & Hpass & _ & Hasc); [lia|apply length_replicate|].
  destruct (backwardCost_after_pass G n bcost d) as (ch & Hch & Hrun);
    [lia|exact Hpass|exact Hasc|].
  destruct (chain_from_bounds n d 0 ch Hch) as [Hsorted Hlen].
  eexists. split; [exact Hrun|]. simpl.
  split; [reflexivity|]. split.
  - apply Sorted_StronglySorted; [|exact Hsorted].
    intros x y z. apply Z.lt_trans.
  - rewrite length_map. lia.
Qed.

(** C5, as the code has it.  [backwardCost] checks no dimension and has no
    shape error: for [n >= 2] it returns a result as soon as the matrix has
    [n - 1] rows, whatever their lengths, and with fewer rows the read of the
    missing row throws a [TypeError].  On every valid cost matrix it returns,
    and when the sink is unreachable the result says so: [minimumCost] is
    [Infinity] and the path is [[0]], which does not end at [n - 1]. *)
Theorem backwardCost_failure_modes (n : nat) (G : matrix) :
  2 <= n ->
  (n - 1 <= length G ->
   exists res, forall fuel, n <= fuel -> backwardCost fuel G n = Ret res) /\
  (length G < n - 1 ->
   forall fuel, backwardCost fuel G n = Throw TypeError) /\
  (cost_matrix n G ->
   exists res,
     (forall fuel, n <= fuel -> backwardCost fuel G n = Ret res) /\
     ((~ exists rest, path_to_sink n G 0 rest) ->
      minimumCost res = PInf /\ path res = [0%Z] /\
      last (path res) <> Some (Z.of_nat n - 1)%Z)).
Proof.
  intros Hn. split; [|split].
  - intros HG.
    destruct (backward_pass_ascends G n
                (match n with O => replicate n INF
                         | S m => <[m := Num 0]> (replicate n INF) end)
                (replicate n 0%Z))
      as (bcost & d & Hpass & _ & Hasc); [exact HG|apply length_replicate|].
    destruct (backwardCost_after_pass G n bcost d) as (ch & Hch & Hrun);
      [lia|exact Hpass|exact Hasc|].
    eexists. exact Hrun.
  - intros HG fuel. unfold backwardCost.
    rewrite backward_pass_missing_row by assumption. reflexivity.
  - intros HG.
    destruct (backwardCost_settled n G HG) as (bcost & d & ch & Hset & Hch & Hrun);
      [lia|].
    eexists. split; [exact Hrun|]. simpl. intros Hnone.
    destruct (chain_realises n G bcost d ltac:(lia) Hset 0 ch Hch) as [_ Hinf].
    destruct Hset as (_ & _ & Hopt & _).
    destruct (Hopt 0) as (Hc & _ & Hex); [lia|lia|].
    assert (Hpinf : js_get bcost 0 = PInf).
    { destruct (js_get bcost 0) eqn:E; simpl in Hc; try tauto.
      destruct Hnone. destruct (Hex I) as (rest & Hp & _). exists rest. exact Hp. }
    rewrite (Hinf Hpinf). simpl. split; [exact Hpinf|]. split; [reflexivity|].
    intros Heq. injection Heq as Heq. lia.
Qed.

(** *** Concrete instances *)

Lemma example_graph_cost_matrix : cost_matrix 4 example_graph.
Proof.
  split.
  - split; [reflexivity|]. repeat constructor.
  - intros u v Huv.
    assert (Hu : u = 0 \/ u = 1 \/ u = 2) by lia.
    assert (Hv : v = 1 \/ v = 2 \/ v = 3) by lia.
    destruct Hu as [->|[->| ->]], Hv as [->|[->| ->]]; exact I.
Defined.


Lemma backwardCost_path_increasing_witness :
  square 4 example_graph /\ 2 <= 4 /\
  exists res,
    (forall fuel, 4 <= fuel -> backwardCost fuel example_graph 4 = Ret res) /\
    head (path res) = Some 0%Z /\
    StronglySorted Z.lt (path res) /\
    length (path res) <= 4.
Proof.
  split; [exact (proj1 example_graph_cost_matrix)|]. split; [lia|].
  apply (backwardCost_path_increasing 4 example_graph);
    [exact (proj1 example_graph_cost_matrix)|lia].
Defined.

(** A 1x1 matrix passed with [n = 2] is accepted: the missing entry
    [G[0][1]] reads as no edge. *)
Lemma backwardCost_accepts_malformed :
  ~ square 2 [[PInf]] /\
  backwardCost 2 [[PInf]] 2 =
  Ret {| minimumCost := PInf; path := [0%Z];
         bcostArray := [PInf; Num 0]; decisionArray := [(-1)%Z; 0%Z] |}.
Proof.
  split; [|reflexivity]. intros [Hlen _]. discriminate Hlen.
Qed.

Lemma backwardCost_failure_modes_witness :
  2 <= 2 /\
  (2 - 1 <= length [[PInf]] ->
   exists res, forall fuel, 2 <= fuel -> backwardCost fuel [[PInf]] 2 = Ret res) /\
  (length [[PInf]] < 2 - 1 ->
   forall fuel, backwardCost fuel [[PInf]] 2 = Throw TypeError) /\
  (cost_matrix 2 [[PInf]] ->
   exists res,
     (forall fuel, 2 <= fuel -> backwardCost fuel [[PInf]] 2 = Ret res) /\
     ((~ exists rest, path_to_sink 2 [[PInf]] 0 rest) ->
      minimumCost res = PInf /\ path res = [0%Z] /\
      last (path res) <> Some (Z.of_nat 2 - 1)%Z)).
Proof.
  split; [lia|]. apply (backwardCost_failure_modes 2 [[PInf]]). lia.
Defined.

End MultiStageGraphTheory.

Module TSPTheory.
Import TSP JsFacts.

Example nearestNeighbor_example :
  nearestNeighbor example_distances 0 =
  Ret {| tour := [0; 1; 2; 0]; totalDistance := Num (0 + 10 + 12 + 15);
         allVisited := true; numCitiesVisited := 3 |}.
Proof. reflexivity. Qed.

(** *** The inner loop *)

(** With the row of the current city at hand the scan returns; it keeps its
    initial pair only if no unvisited city is closer than the initial
    distance, and otherwise yields an unvisited city with its distance. *)
Lemma find_nearest_spec (D : list (list jsnum)) (vis : list bool) (cur : nat)
    (row : list jsnum) (cities : list nat) (nc0 : Z) (md0 : jsnum) :
  D !! cur = Some row ->
  exists nc md,
    find_nearest D vis cur cities nc0 md0 = Ret (nc, md) /\
    ((nc = nc0 /\ md = md0 /\
      forall c, c ∈ cities -> unvisited vis c = true ->
        js_lt (js_get row c) md0 = false) \/
     (exists c, c ∈ cities /\ unvisited vis c = true /\
        nc = Z.of_nat c /\ md = js_get row c)).
Proof.
  intros Hrow. revert nc0 md0.
  induction cities as [|c cities IH]; intros nc0 md0; simpl.
  - exists nc0, md0. split; [reflexivity|]. left.
    split; [reflexivity|]. split; [reflexivity|]. intros c Hc. inversion Hc.
  - destruct (unvisited vis c) eqn:Eun;
      [rewrite Hrow; destruct (js_lt (js_get row c) md0) eqn:Elt|].
    + destruct (IH (Z.of_nat c) (js_get row c))
        as (nc & md & -> & [(-> & -> & _)|(c' & Hc' & Hun & -> & ->)]);
        do 2 eexists; (split; [reflexivity|]); right.
      * exists c. split; [left|]. auto.
      * exists c'. split; [right; exact Hc'|]. auto.
    + destruct (IH nc0 md0)
        as (nc & md & -> & [(-> & -> & Hall)|(c' & Hc' & Hun & -> & ->)]);
        do 2 eexists; (split; [reflexivity|]).
      * left. split; [reflexivity|]. split; [reflexivity|].
        intros c' Hc' Hun. apply elem_of_cons in Hc' as [->|Hc'];
          [exact Elt|apply Hall; assumption].
      * right. exists c'. split; [right; exact Hc'|]. auto.
    + destruct (IH nc0 md0)
        as (nc & md & -> & [(-> & -> & Hall)|(c' & Hc' & Hun & -> & ->)]);
        do 2 eexists; (split; [reflexivity|]).
      * left. split; [reflexivity|]. split; [reflexivity|].
        intros c' Hc' Hun. apply elem_of_cons in Hc' as [->|Hc'];
          [congruence|apply Hall; assumption].
      * right. exists c'. split; [right; exact Hc'|]. auto.
Qed.

(** *** The outer loop: a loop rule *)

(** The walk after one iteration that found [nearestCity]. *)
Definition advance (w : walk) (nearestCity : Z) (minDistance : jsnum) : walk :=
  if (nearestCity =? -1)%Z then w
  else {| visited := <[Z.to_nat nearestCity := true]> (visited w);
          tour_so_far := tour_so_far w ++ [Z.to_nat nearestCity];
          distance_so_far := js_add (distance_so_far w) minDistance;
          currentCity := Z.to_nat nearestCity |}.

Lemma visit_cities_invariant (D : list (list jsnum)) (n : nat)
    (I : nat -> walk -> Prop) (K : nat) :
  (forall k w, k < K -> I k w ->
     exists nc md,
       find_nearest D (visited w) (currentCity w) (seq 0 n) (-1) PInf = Ret (nc, md) /\
       I (S k) (advance w nc md)) ->
  forall steps k w, k + length steps <= K -> I k w ->
    exists w', visit_cities D n steps w = Ret w' /\ I (k + length steps) w'.
Proof.
  intros Hstep. induction steps as [|s steps IH]; intros k w Hk HI; simpl.
  - exists w. rewrite Nat.add_0_r. auto.
  - simpl in Hk. destruct (Hstep k w) as (nc & md & -> & HI'); [lia|exact HI|].
    simpl. unfold advance in HI'.
    replace (k + S (length steps)) with (S k + length steps) by lia.
    destruct (nc =? -1)%Z; apply IH; (lia || exact HI').
Qed.

(** *** The invariant of the walk *)

Lemma legs_snoc (D : list (list jsnum)) (t : list nat) (u c : nat) :
  last t = Some u -> legs D (t ++ [c]) = legs D t ++ [dist D u c].
Proof.
  induction t as [|a t IH]; intros Hlast; [discriminate|].
  destruct t as [|b t].
  - simpl in Hlast. injection Hlast as ->. reflexivity.
  - change (last (a :: b :: t)) with (last (b :: t)) in Hlast.
    change (legs D ((a :: b :: t) ++ [c]))
      with (dist D a b :: legs D ((b :: t) ++ [c])).
    rewrite IH by exact Hlast. reflexivity.
Qed.

Lemma js_sum_snoc (l : list jsnum) (x : jsnum) :
  js_sum (l ++ [x]) = js_add (js_sum l) x.
Proof. unfold js_sum. rewrite fold_left_app. reflexivity. Qed.

(** What holds of the walk at every iteration, whatever the matrix. *)
Definition walk_inv (D : list (list jsnum)) (start : nat) (w : walk) : Prop :=
  length (visited w) = length D /\
  (exists picks, tour_so_far w = start :: picks) /\
  NoDup (tour_so_far w) /\
  (forall v, visited w !! v = Some true <-> v ∈ tour_so_far w) /\
  last (tour_so_far w) = Some (currentCity w) /\
  currentCity w < length D /\
  distance_so_far w = js_sum (legs D (tour_so_far w)).

Lemma walk_inv_init (D : list (list jsnum)) (start : nat) :
  start < length D ->
  walk_inv D start
    {| visited := js_store false (replicate (length D) false) start true;
       tour_so_far := [start]; distance_so_far := Num 0; currentCity := start |}.
Proof.
  intros Hs. unfold walk_inv, js_store. simpl.
  rewrite length_replicate.
  destruct (Nat.ltb_spec start (length D)) as [_|]; [|lia].
  split; [rewrite length_insert, length_replicate; reflexivity|].
  split; [exists []; reflexivity|].
  split; [apply NoDup_singleton|].
  split; [|auto].
  intros v. rewrite list_elem_of_singleton. split.
  - intros Hv. destruct (decide (v = start)) as [->|Hne]; [reflexivity|].
    rewrite list_lookup_insert_ne in Hv by congruence.
    apply lookup_replicate in Hv as [Hv _]. discriminate.
  - intros ->. apply list_lookup_insert_eq. rewrite length_replicate. exact Hs.
Qed.

Lemma unvisited_lookup (vis : list bool) (c : nat) :
  c < length vis -> unvisited vis c = true <-> vis !! c <> Some true.
Proof.
  intros Hc. unfold unvisited.
  destruct (lookup_lt_is_Some_2 vis c Hc) as [b Hb]. rewrite Hb. simpl.
  destruct b; simpl; split; congruence.
Qed.

Lemma walk_inv_advance (D : list (list jsnum)) (start : nat) (w : walk)
    (row : list jsnum) (c : nat) :
  walk_inv D start w -> D !! currentCity w = Some row ->
  c < length D -> unvisited (visited w) c = true ->
  walk_inv D start (advance w (Z.of_nat c) (js_get row c)).
Proof.
  intros (Hlen & [picks Hpicks] & Hnd & Hvis & Hlast & Hcur & Hdist) Hrow Hc Hun.
  unfold advance. destruct (Z.eqb_spec (Z.of_nat c) (-1)); [lia|].
  rewrite Nat2Z.id. unfold walk_inv. simpl.
  apply unvisited_lookup in Hun; [|lia].
  assert (Hnotin : c ∉ tour_so_far w) by (rewrite <- Hvis; exact Hun).
  split; [rewrite length_insert; exact Hlen|].
  split; [exists (picks ++ [c]); rewrite Hpicks; reflexivity|].
  split.
  { apply NoDup_app. split; [exact Hnd|]. split; [|apply NoDup_singleton].
    intros x Hx Hxc. apply list_elem_of_singleton in Hxc as ->. contradiction. }
  split.
  { intros v. rewrite elem_of_app, list_elem_of_singleton, <- Hvis.
    destruct (decide (v = c)) as [->|Hne].
    - rewrite list_lookup_insert_eq by lia. tauto.
    - rewrite list_lookup_insert_ne by congruence. tauto. }
  split; [apply last_snoc|]. split; [exact Hc|].
  rewrite (legs_snoc D _ (currentCity w) c Hlast), js_sum_snoc, <- Hdist.
  unfold dist. rewrite Hrow. reflexivity.
Qed.

(** One iteration keeps the invariant, and tells which case occurred. *)
Lemma walk_inv_step (D : list (list jsnum)) (start : nat) (w : walk) :
  walk_inv D start w ->
  exists nc md,
    find_nearest D (visited w) (currentCity w) (seq 0 (length D)) (-1) PInf
      = Ret (nc, md) /\
    walk_inv D start (advance w nc md) /\
    ((nc = (-1)%Z /\ advance w nc md = w /\
      forall c, c < length D -> c ∉ tour_so_far w ->
        js_lt (dist D (currentCity w) c) PInf = false) \/
     (exists c, nc = Z.of_nat c /\
        tour_so_far (advance w nc md) = tour_so_far w ++ [c])).
Proof.
  intros Hinv. pose proof Hinv as (Hlen & _ & _ & Hvis & _ & Hcur & _).
  destruct (lookup_lt_is_Some_2 D (currentCity w) Hcur) as [row Hrow].
  destruct (find_nearest_spec D (visited w) (currentCity w) row
              (seq 0 (length D)) (-1)%Z PInf Hrow)
    as (nc & md & Hrun & [(-> & -> & Hall)|(c & Hc & Hun & -> & ->)]).
  - exists (-1)%Z, PInf. split; [exact Hrun|]. split; [exact Hinv|]. left.
    split; [reflexivity|]. split; [reflexivity|].
    intros c Hc Hnotin. unfold dist. rewrite Hrow.
    apply Hall; [apply elem_of_seq; lia|].
    apply unvisited_lookup; [lia|]. rewrite Hvis. exact Hnotin.
  - apply elem_of_seq in Hc.
    exists (Z.of_nat c), (js_get row c). split; [exact Hrun|].
    split; [apply walk_inv_advance; (assumption || lia)|].
    right. exists c. split; [reflexivity|].
    unfold advance. destruct (Z.eqb_spec (Z.of_nat c) (-1)); [lia|].
    simpl. rewrite Nat2Z.id. reflexivity.
Qed.

(** *** From the walk to the result *)

Lemma nearestNeighbor_of_walk (D : list (list jsnum)) (start : nat) (w : walk) :
  visit_all D start = Ret w -> walk_inv D start w ->
  nearestNeighbor D start =
  Ret {| tour := tour_so_far w ++ [start];
         totalDistance := js_sum (legs D (tour_so_far w ++ [start]));
         allVisited := forallb (fun v => bool_decide (v = true)) (visited w);
         numCitiesVisited := length (filter (fun v => v = true) (visited w)) |}.
Proof.
  intros Hrun (_ & _ & _ & _ & Hlast & Hcur & Hdist).
  unfold nearestNeighbor. rewrite Hrun. simpl.
  destruct (lookup_lt_is_Some_2 D (currentCity w) Hcur) as [row Hrow].
  rewrite Hrow, (legs_snoc D _ _ start Hlast), js_sum_snoc, <- Hdist.
  unfold dist. rewrite Hrow. reflexivity.
Qed.

Lemma every_true (vis : list bool) :
  forallb (fun v => bool_decide (v = true)) vis = true <->
  forall v, v < length vis -> vis !! v = Some true.
Proof.
  induction vis as [|b vis IH]; simpl.
  - split; [intros _ v Hv; lia|reflexivity].
  - rewrite andb_true_iff, bool_decide_eq_true, IH. split.
    + intros [-> Hall] [|v] Hv; [reflexivity|]. simpl. apply Hall. lia.
    + intros Hall. split.
      * specialize (Hall 0 ltac:(lia)). simpl in Hall. congruence.
      * intros v Hv. apply (Hall (S v)). lia.
Qed.

(** Fewer than [n] vertices leave one of [0 .. n - 1] out. *)
Lemma fresh_vertex (t : list nat) (n : nat) :
  length t < n -> exists c, c < n /\ c ∉ t.
Proof.
  intros Hlen.
  destruct (decide (Forall (fun c => c ∈ t) (seq 0 n))) as [Hall|Hex].
  - assert (Hsub : seq 0 n ⊆+ t).
    { apply NoDup_submseteq; [apply NoDup_seq|].
      intros x Hx. rewrite Forall_forall in Hall. apply Hall. exact Hx. }
    apply submseteq_length in Hsub. rewrite length_seq in Hsub. lia.
  - apply not_Forall_Exists in Hex; [|intros x; apply _].
    apply Exists_exists in Hex as (c & Hc & Hnot).
    apply elem_of_seq in Hc. exists c. split; [lia|exact Hnot].
Qed.

(** *** The claims about [nearestNeighbor] *)

(** C8.  For every matrix and every start vertex of it the call returns a
    result, never an error, and the [allVisited] flag of the result is true
    if and only if every vertex is marked in the [visited] array when the
    selection loop ends; the marked vertices are those of the tour. *)
Theorem nearestNeighbor_allVisited (D : list (list jsnum)) (start : nat) :
  start < length D ->
  exists w res,
    visit_all D start = Ret w /\
    nearestNeighbor D start = Ret res /\
    (allVisited res = true <->
     forall v, v < length D -> visited w !! v = Some true) /\
    (forall v, visited w !! v = Some true <-> v ∈ tour res).
Proof.
  intros Hs.
  destruct (visit_cities_invariant D (length D)
              (fun _ w => walk_inv D start w) (length D - 1))
    with (steps := seq 0 (length D - 1)) (k := 0)
         (w := {| visited := js_store false (replicate (length D) false) start true;
                  tour_so_far := [start]; distance_so_far := Num 0;
                  currentCity := start |})
    as (w & Hrun & Hinv).
  - intros k w _ Hinv.
    destruct (walk_inv_step D start w Hinv) as (nc & md & Hfind & Hinv' & _).
    exists nc, md. auto.
  - rewrite length_seq. lia.
  - apply walk_inv_init. exact Hs.
  - exists w. eexists. split; [exact Hrun|].
    split; [apply nearestNeighbor_of_walk; [exact Hrun|exact Hinv]|]. simpl.
    destruct Hinv as (Hlen & [picks Hpicks] & _ & Hvis & _).
    split; [rewrite every_true, Hlen; reflexivity|].
    intros v. rewrite Hvis, elem_of_app, list_elem_of_singleton, Hpicks.
    split; [auto|]. intros [Hin| ->]; [exact Hin|left].
Qed.

(** C3.  For every [n]x[n] matrix of non-negative reals and every start
    vertex of it, the call returns a tour that begins and ends at the start
    vertex and, the closing vertex apart, lists every vertex exactly once: so
    the start vertex occurs exactly twice and every other vertex exactly
    once.  The returned [totalDistance] is the sum of the matrix distances
    over the consecutive pairs of the returned tour. *)
Theorem nearestNeighbor_tour (n : nat) (D : list (list jsnum)) (start : nat) :
  distance_matrix n D -> start < n ->
  exists res mid,
    nearestNeighbor D start = Ret res /\
    tour res = start :: mid ++ [start] /\
    Permutation (start :: mid) (seq 0 n) /\
    (forall v, v < n ->
       count_occ Nat.eq_dec (tour res) v = if decide (v = start) then 2 else 1) /\
    totalDistance res = js_sum (legs D (tour res)).
Proof.
  intros (Hn & _ & Hfin) Hs. subst n.
  destruct (visit_cities_invariant D (length D)
              (fun k w => walk_inv D start w /\ length (tour_so_far w) = S k)
              (length D - 1))
    with (steps := seq 0 (length D - 1)) (k := 0)
         (w := {| visited := js_store false (replicate (length D) false) start true;
                  tour_so_far := [start]; distance_so_far := Num 0;
                  currentCity := start |})
    as (w & Hrun & Hinv & Hlen).
  - intros k w Hk [Hinv Hlen].
    destruct (walk_inv_step D start w Hinv)
      as (nc & md & Hfind & Hinv' & [(_ & _ & Hnone)|(c & -> & Htour)]).
    + destruct (fresh_vertex (tour_so_far w) (length D)) as (c & Hc & Hnotin); [lia|].
      specialize (Hnone c Hc Hnotin).
      destruct Hinv as (_ & _ & _ & _ & _ & Hcur & _).
      destruct (Hfin (currentCity w) c Hcur Hc) as (q & Hq & _).
      rewrite Hq in Hnone. discriminate.
    + exists (Z.of_nat c), md. split; [exact Hfind|]. split; [exact Hinv'|].
      rewrite Htour, length_app. simpl. lia.
  - rewrite length_seq. lia.
  - split; [apply walk_inv_init; exact Hs|reflexivity].
  - rewrite length_seq in Hlen. simpl in Hlen.
    pose proof Hinv as (Hlv & [picks Hpicks] & Hnd & Hvis & _).
    assert (Hperm : Permutation (start :: picks) (seq 0 (length D))).
    { rewrite <- Hpicks. apply submseteq_length_Permutation.
      - apply NoDup_submseteq; [exact Hnd|].
        intros x Hx. apply Hvis, lookup_lt_Some in Hx.
        apply elem_of_seq. lia.
      - rewrite length_seq. lia. }
    eexists. exists picks. split; [apply nearestNeighbor_of_walk; eassumption|].
    simpl. rewrite Hpicks. split; [reflexivity|]. split; [exact Hperm|].
    split; [|reflexivity].
    intros v Hv.
    change (start :: picks ++ [start]) with ((start :: picks) ++ [start]).
    rewrite count_occ_app.
    rewrite (proj1 (Permutation_count_occ Nat.eq_dec _ _) Hperm v).
    assert (Hone : count_occ Nat.eq_dec (seq 0 (length D)) v = 1).
    { apply NoDup_count_occ'; [apply NoDup_ListNoDup, NoDup_seq|].
      apply list_elem_of_In, elem_of_seq. lia. }
    rewrite Hone. simpl.
    destruct (Nat.eq_dec start v), (decide (v = start)); congruence.
Qed.

(** *** Concrete instances *)

Lemma example_distances_matrix : distance_matrix 3 example_distances.
Proof.
  split; [reflexivity|]. split; [repeat constructor|].
  intros u v Hu Hv.
  assert (Hu' : u = 0 \/ u = 1 \/ u = 2) by lia.
  assert (Hv' : v = 0 \/ v = 1 \/ v = 2) by lia.
  destruct Hu' as [->|[->| ->]], Hv' as [->|[->| ->]];
    eexists; (split; [reflexivity|]); apply Qle_bool_imp_le; reflexivity.
Defined.

Lemma nearestNeighbor_tour_witness :
  distance_matrix 3 example_distances /\ 0 < 3 /\
  exists res mid,
    nearestNeighbor example_distances 0 = Ret res /\
    tour res = 0 :: mid ++ [0] /\
    Permutation (0 :: mid) (seq 0 3) /\
    (forall v, v < 3 ->
       count_occ Nat.eq_dec (tour res) v = if decide (v = 0) then 2 else 1) /\
    totalDistance res = js_sum (legs example_distances (tour res)).
Proof.
  split; [exact example_distances_matrix|]. split; [lia|].
  apply (nearestNeighbor_tour 3 example_distances 0);
    [exact example_distances_matrix|lia].
Defined.

(** Two locations with no distance between them: the flag is false, and
    the call still returns. *)
Example nearestNeighbor_disconnected :
  nearestNeighbor disconnected_distances 0 =
  Ret {| tour := [0; 0]; totalDistance := Num (0 + 0);
         allVisited := false; numCitiesVisited := 1 |}.
Proof. reflexivity. Qed.

Lemma nearestNeighbor_allVisited_witness :
  0 < length disconnected_distances /\
  exists w res,
    visit_all disconnected_distances 0 = Ret w /\
    nearestNeighbor disconnected_distances 0 = Ret res /\
    (allVisited res = true <->
     forall v, v < length disconnected_distances -> visited w !! v = Some true) /\
    (forall v, visited w !! v = Some true <-> v ∈ tour res).
Proof.
  split; [simpl; lia|].
  apply (nearestNeighbor_allVisited disconnected_distances 0). simpl. lia.
Defined.

(** A start vertex outside the matrix (in particular any call on the empty
    matrix) throws. *)
Lemma nearestNeighbor_start_outside (D : list (list jsnum)) (start : nat) :
  length D <= start -> nearestNeighbor D start = Throw TypeError.
Proof.
  intros Hs. unfold nearestNeighbor, visit_all.
  destruct D as [|r0 [|r1 D]].
  - reflexivity.
  - destruct start as [|start]; [simpl in Hs; lia|reflexivity].
  - remember (r0 :: r1 :: D) as M eqn:EM.
    assert (Hlen : length M = S (S (length D))) by (subst M; reflexivity).
    rewrite Hlen. replace (S (S (length D)) - 1) with (S (length D)) by lia.
    change (seq 0 (S (length D))) with (0 :: seq 1 (length D)).
    cbn [visit_cities visited currentCity].
    change (seq 0 (S (S (length D)))) with (0 :: seq 1 (S (length D))).
    cbn [find_nearest].
    assert (Hun : unvisited
              (js_store false (replicate (S (S (length D))) false) start true) 0 = true).
    { unfold unvisited, js_store. rewrite length_replicate.
      destruct (Nat.ltb_spec start (S (S (length D)))); [lia|]. reflexivity. }
    rewrite Hun, (lookup_ge_None_2 M start) by lia. reflexivity.
Qed.

End TSPTheory.

Module FractionalKnapsackTheory.
Import FractionalKnapsack JsFacts.

(** *** What the loops compute, as functions on lists *)

Section ExchangeSort.
Context {A : Type} (sw : A -> A -> bool).

(** One pass of the inner loop over the elements [ys] that follow [x]:
    the element left in front, and the elements left behind it. *)
Fixpoint sweep (x : A) (ys : list A) : A * list A :=
  match ys with
  | [] => (x, [])
  | y :: ys' =>
      if sw x y then let '(m, r) := sweep y ys' in (m, x :: r)
      else let '(m, r) := sweep x ys' in (m, y :: r)
  end.

(** [k] passes of the outer loop. *)
Fixpoint exchange_sort (k : nat) (l : list A) : list A :=
  match k, l with
  | S k', x :: ys => let '(m, r) := sweep x ys in m :: exchange_sort k' r
  | _, _ => l
  end.

Lemma sweep_cons_true (x y : A) (ys : list A) :
  sw x y = true -> sweep x (y :: ys) = ((sweep y ys).1, x :: (sweep y ys).2).
Proof. intros H. simpl. rewrite H. destruct (sweep y ys). reflexivity. Qed.

Lemma sweep_cons_false (x y : A) (ys : list A) :
  sw x y = false -> sweep x (y :: ys) = ((sweep x ys).1, y :: (sweep x ys).2).
Proof. intros H. simpl. rewrite H. destruct (sweep x ys). reflexivity. Qed.

Lemma sweep_length (ys : list A) : forall x, length (sweep x ys).2 = length ys.
Proof.
  induction ys as [|y ys IH]; intros x; [reflexivity|].
  destruct (sw x y) eqn:E.
  - rewrite sweep_cons_true by exact E. simpl. rewrite IH. reflexivity.
  - rewrite sweep_cons_false by exact E. simpl. rewrite IH. reflexivity.
Qed.

Lemma sweep_perm (ys : list A) :
  forall x, Permutation ((sweep x ys).1 :: (sweep x ys).2) (x :: ys).
Proof.
  induction ys as [|y ys IH]; intros x; [reflexivity|].
  destruct (sw x y) eqn:E.
  - rewrite sweep_cons_true by exact E. simpl.
    etrans; [apply perm_swap|]. apply perm_skip, IH.
  - rewrite sweep_cons_false by exact E. simpl.
    etrans; [apply perm_swap|].
    etrans; [apply perm_skip, IH|]. apply perm_swap.
Qed.

Lemma exchange_sort_cons (k : nat) (x : A) (ys : list A) :
  exchange_sort (S k) (x :: ys) = (sweep x ys).1 :: exchange_sort k (sweep x ys).2.
Proof. simpl. destruct (sweep x ys). reflexivity. Qed.

Lemma exchange_sort_perm (k : nat) : forall l, Permutation (exchange_sort k l) l.
Proof.
  induction k as [|k IH]; intros l; [destruct l; reflexivity|].
  destruct l as [|x ys]; [reflexivity|].
  rewrite exchange_sort_cons, IH. apply sweep_perm.
Qed.

End ExchangeSort.

(** Sorting references by the boxes they point to sorts the boxes. *)
Lemma sweep_map {A B : Type} (f : A -> B) (sw : B -> B -> bool) (ys : list A) :
  forall x,
    (f (sweep (fun a b => sw (f a) (f b)) x ys).1,
     map f (sweep (fun a b => sw (f a) (f b)) x ys).2)
    = sweep sw (f x) (map f ys).
Proof.
  induction ys as [|y ys IH]; intros x; [reflexivity|].
  destruct (sw (f x) (f y)) eqn:E.
  - rewrite sweep_cons_true by exact E.
    change (map f (y :: ys)) with (f y :: map f ys).
    rewrite sweep_cons_true by exact E. rewrite <- IH. reflexivity.
  - rewrite sweep_cons_false by exact E.
    change (map f (y :: ys)) with (f y :: map f ys).
    rewrite sweep_cons_false by exact E. rewrite <- IH. reflexivity.
Qed.

Lemma exchange_sort_map {A B : Type} (f : A -> B) (sw : B -> B -> bool) (k : nat) :
  forall l,
    map f (exchange_sort (fun a b => sw (f a) (f b)) k l)
    = exchange_sort sw k (map f l).
Proof.
  induction k as [|k IH]; intros l; [destruct l; reflexivity|].
  destruct l as [|x ys]; [reflexivity|].
  change (map f (x :: ys)) with (f x :: map f ys).
  rewrite !exchange_sort_cons. simpl. rewrite IH.
  rewrite <- (sweep_map f sw ys x). reflexivity.
Qed.

(** The selection loop on the list of the boxes it visits. *)
Fixpoint fill (bs : list box) (totalProfit capacity : Q)
    (selectedBoxes : list selection) : Q * Q * list selection :=
  match bs with
  | [] => (totalProfit, capacity, selectedBoxes)
  | b :: bs' =>
      if Qlt_bool 0 capacity then
        if Qle_bool (weight b) capacity then
          fill bs' (totalProfit + profit b)%Q (capacity - weight b)%Q
            (selectedBoxes ++
               [{| selected_box := b; fraction := 1;
                   takenWeight := weight b; takenProfit := profit b |}])
        else
          fill bs' (totalProfit + profit b * (capacity / weight b))%Q 0%Q
            (selectedBoxes ++
               [{| selected_box := b; fraction := (capacity / weight b)%Q;
                   takenWeight := capacity;
                   takenProfit := (profit b * (capacity / weight b))%Q |}])
      else (totalProfit, capacity, selectedBoxes)
  end.

(** The boxes in the order in which the selection loop visits them. *)
Definition sorted_copies (approach : Z) (bs : list box) : list box :=
  exchange_sort (out_of_order approach) (length bs - 1) (imap working_copy bs).

(** The result of a call, as a function of the caller's boxes. *)
Definition plan (approach : Z) (truckCapacity : Q) (bs : list box) : result :=
  make_result approach truckCapacity
    (fill (sorted_copies approach bs) 0%Q truckCapacity []).

(** *** Running the operations on the store *)

Lemma bind_Ret {A B : Type} (m : M A) (f : A -> M B) (h h' : heap) (a : A) :
  m h = Ret (a, h') -> (m ≫= f) h = f a h'.
Proof. unfold mbind, M_bind. intros ->. reflexivity. Qed.

Lemma get_array_Ret (h : heap) (l : loc) (es : list loc) :
  h !! l = Some (Array es) -> get_array l h = Ret (es, h).
Proof. unfold get_array. intros ->. reflexivity. Qed.

Lemma get_box_Ret (h : heap) (l : loc) (b : box) :
  h !! l = Some (Box b) -> get_box l h = Ret (b, h).
Proof. unfold get_box. intros ->. reflexivity. Qed.

Lemma get_ref_Ret (h : heap) (arr : loc) (es : list loc) (i : nat) (l : loc) :
  h !! arr = Some (Array es) -> es !! i = Some l -> get_ref arr i h = Ret (l, h).
Proof.
  intros Harr Hi. unfold get_ref.
  rewrite (bind_Ret _ _ h h es) by (apply get_array_Ret; exact Harr).
  rewrite Hi. reflexivity.
Qed.

Lemma elem_Ret (h : heap) (arr : loc) (es : list loc) (i : nat) (l : loc) (b : box) :
  h !! arr = Some (Array es) -> es !! i = Some l -> h !! l = Some (Box b) ->
  elem arr i h = Ret (b, h).
Proof.
  intros Harr Hi Hl. unfold elem.
  rewrite (bind_Ret _ _ h h l) by (eapply get_ref_Ret; eassumption).
  apply get_box_Ret. exact Hl.
Qed.

Lemma set_elem_Ret (h : heap) (arr : loc) (es : list loc) (i : nat) (v : loc) :
  h !! arr = Some (Array es) ->
  set_elem arr i v h = Ret (tt, <[arr := Array (<[i := v]> es)]> h).
Proof. unfold set_elem. intros ->. reflexivity. Qed.

Lemma out_of_order_other (approach : Z) (bi bj : box) :
  ((approach =? 1) || (approach =? 2) || (approach =? 3))%Z = false ->
  out_of_order approach bi bj = false.
Proof.
  unfold out_of_order.
  destruct (approach =? 1)%Z, (approach =? 2)%Z, (approach =? 3)%Z;
    simpl; congruence.
Qed.

Lemma swap_test_Ret (h : heap) (arr : loc) (approach : Z) (es : list loc)
    (i j : nat) (li lj : loc) (bi bj : box) :
  h !! arr = Some (Array es) -> es !! i = Some li -> es !! j = Some lj ->
  h !! li = Some (Box bi) -> h !! lj = Some (Box bj) ->
  swap_test arr approach i j h = Ret (out_of_order approach bi bj, h).
Proof.
  intros Harr Hi Hj Hli Hlj. unfold swap_test.
  destruct ((approach =? 1) || (approach =? 2) || (approach =? 3))%Z eqn:E.
  - rewrite (bind_Ret _ _ h h bi) by (eapply elem_Ret; eassumption).
    rewrite (bind_Ret _ _ h h bj) by (eapply elem_Ret; eassumption).
    reflexivity.
  - rewrite out_of_order_other by exact E. reflexivity.
Qed.

(** *** [sortBoxes] on the store *)

Section SortOnStore.
Context (approach : Z) (f : loc -> box) (arr : loc).

(** Every reference of [es] points to the box that [f] names. *)
Definition boxes_ok (h : heap) (es : list loc) : Prop :=
  forall e, e ∈ es -> h !! e = Some (Box (f e)).

Definition sw_ref (a b : loc) : bool := out_of_order approach (f a) (f b).

Lemma boxes_ok_update (h : heap) (es es0 es1 : list loc) :
  h !! arr = Some (Array es0) -> boxes_ok h es ->
  boxes_ok (<[arr := Array es1]> h) es.
Proof.
  intros Harr Hok e He. specialize (Hok e He).
  rewrite list_lookup_insert_ne; [exact Hok|]. intros <-. congruence.
Qed.

Lemma lookup_update (h : heap) (es0 es1 : list loc) :
  h !! arr = Some (Array es0) ->
  <[arr := Array es1]> h !! arr = Some (Array es1).
Proof. intros Harr. apply list_lookup_insert_eq. eapply lookup_lt_Some, Harr. Qed.

Lemma swap_middle (done pre todo : list loc) (x y : loc) :
  <[S (length done + length pre) := x]>
    (<[length done := y]> (done ++ x :: pre ++ y :: todo))
  = done ++ y :: (pre ++ [x]) ++ todo.
Proof.
  rewrite (insert_app_r_alt done _ (length done)) by lia.
  rewrite Nat.sub_diag. simpl.
  rewrite insert_app_r_alt by lia.
  replace (S (length done + length pre) - length done) with (S (length pre)) by lia.
  simpl. rewrite insert_app_r_alt by lia. rewrite Nat.sub_diag. simpl.
  rewrite <- app_assoc. reflexivity.
Qed.

Lemma sort_inner_spec (todo : list loc) :
  forall done x pre h,
    h !! arr = Some (Array (done ++ x :: pre ++ todo)) ->
    boxes_ok h (done ++ x :: pre ++ todo) ->
    sort_inner arr approach (length done)
      (seq (S (length done + length pre)) (length todo)) h
    = Ret (tt, <[arr := Array (done ++ (sweep sw_ref x todo).1
                                 :: pre ++ (sweep sw_ref x todo).2)]> h).
Proof.
  induction todo as [|y todo IH]; intros done x pre h Harr Hok.
  - simpl. rewrite list_insert_id by exact Harr. reflexivity.
  - assert (Hi : (done ++ x :: pre ++ y :: todo) !! length done = Some x)
      by apply list_lookup_middle, eq_refl.
    assert (Hj : (done ++ x :: pre ++ y :: todo) !! S (length done + length pre)
                 = Some y).
    { rewrite lookup_app_r by lia.
      replace (S (length done + length pre) - length done) with (S (length pre)) by lia.
      simpl. apply list_lookup_middle, eq_refl. }
    assert (Hx : h !! x = Some (Box (f x))).
    { apply Hok. rewrite elem_of_app, elem_of_cons. auto. }
    assert (Hy : h !! y = Some (Box (f y))).
    { apply Hok. rewrite elem_of_app, elem_of_cons, elem_of_app, elem_of_cons. auto. }
    change (length (y :: todo)) with (S (length todo)).
    cbn [seq sort_inner].
    rewrite (bind_Ret _ _ h h (sw_ref x y))
      by (eapply swap_test_Ret; eassumption).
    destruct (sw_ref x y) eqn:Esw.
    + rewrite sweep_cons_true by exact Esw. cbn [fst snd].
      set (es := done ++ x :: pre ++ y :: todo) in *.
      set (h1 := <[arr := Array (<[length done := y]> es)]> h).
      set (h2 := <[arr := Array (<[S (length done + length pre) := x]>
                                    (<[length done := y]> es))]> h1).
      assert (Hswap :
        (temp ← get_ref arr (length done);
         bj ← get_ref arr (S (length done + length pre));
         set_elem arr (length done) bj;;
         set_elem arr (S (length done + length pre)) temp) h = Ret (tt, h2)).
      { rewrite (bind_Ret _ _ h h x) by (eapply get_ref_Ret; eassumption).
        rewrite (bind_Ret _ _ h h y) by (eapply get_ref_Ret; eassumption).
        rewrite (bind_Ret _ _ h h1 tt) by (apply set_elem_Ret; exact Harr).
        apply set_elem_Ret. eapply lookup_update, Harr. }
      rewrite (bind_Ret _ _ h h2 tt) by exact Hswap.
      assert (Hh2 : h2 = <[arr := Array (done ++ y :: (pre ++ [x]) ++ todo)]> h).
      { unfold h2, h1, es. rewrite list_insert_insert_eq, swap_middle. reflexivity. }
      rewrite Hh2.
      replace (S (S (length done + length pre)))
        with (S (length done + length (pre ++ [x])))
        by (rewrite length_app; simpl; lia).
      rewrite (IH done y (pre ++ [x])).
      * rewrite list_insert_insert_eq, <- (app_assoc pre [x]). reflexivity.
      * eapply lookup_update, Harr.
      * eapply boxes_ok_update; [exact Harr|].
        intros e He. apply Hok. unfold es.
        rewrite !elem_of_app, !elem_of_cons, !elem_of_app, !elem_of_cons in *.
        rewrite elem_of_nil in He. tauto.
    + rewrite sweep_cons_false by exact Esw. cbn [fst snd].
      rewrite (bind_Ret _ _ h h tt) by reflexivity.
      replace (S (S (length done + length pre)))
        with (S (length done + length (pre ++ [y])))
        by (rewrite length_app; simpl; lia).
      rewrite (IH done x (pre ++ [y])).
      * rewrite <- (app_assoc pre [y]). reflexivity.
      * rewrite <- (app_assoc pre [y]). exact Harr.
      * rewrite <- (app_assoc pre [y]). exact Hok.
Qed.

Lemma sort_outer_spec (k : nat) :
  forall done rest h,
    k <= length rest - 1 ->
    h !! arr = Some (Array (done ++ rest)) ->
    boxes_ok h (done ++ rest) ->
    sort_outer arr approach (length (done ++ rest)) (seq (length done) k) h
    = Ret (tt, <[arr := Array (done ++ exchange_sort sw_ref k rest)]> h).
Proof.
  induction k as [|k IH]; intros done rest h Hk Harr Hok.
  - simpl. replace (exchange_sort sw_ref 0 rest) with rest by (destruct rest; reflexivity).
    rewrite list_insert_id by exact Harr. reflexivity.
  - destruct rest as [|x ys]; [simpl in Hk; lia|].
    cbn [seq sort_outer].
    replace (length (done ++ x :: ys) - S (length done)) with (length ys)
      by (rewrite length_app; simpl; lia).
    pose proof (sort_inner_spec ys done x [] h) as Hin.
    simpl in Hin. rewrite Nat.add_0_r in Hin.
    rewrite (bind_Ret _ _ h _ tt) by (apply Hin; assumption).
    rewrite exchange_sort_cons.
    set (m := (sweep sw_ref x ys).1). set (r := (sweep sw_ref x ys).2).
    assert (Hlen : length (done ++ x :: ys) = length ((done ++ [m]) ++ r)).
    { rewrite !length_app. unfold r. rewrite sweep_length. simpl. lia. }
    rewrite Hlen.
    replace (S (length done)) with (length (done ++ [m]))
      by (rewrite length_app; simpl; lia).
    rewrite (IH (done ++ [m]) r).
    + rewrite list_insert_insert_eq, <- app_assoc. reflexivity.
    + unfold r. rewrite sweep_length. simpl in Hk. lia.
    + rewrite <- app_assoc. eapply lookup_update, Harr.
    + eapply boxes_ok_update; [exact Harr|].
      intros e He. apply Hok.
      rewrite <- app_assoc in He. simpl in He.
      rewrite elem_of_app in He. rewrite elem_of_app.
      destruct He as [He|He]; [left; exact He|right].
      rewrite <- (sweep_perm sw_ref ys x). exact He.
Qed.

Lemma sortBoxes_spec (h : heap) (es : list loc) :
  h !! arr = Some (Array es) -> boxes_ok h es ->
  sortBoxes arr approach h
  = Ret (tt, <[arr := Array (exchange_sort sw_ref (length es - 1) es)]> h).
Proof.
  intros Harr Hok. unfold sortBoxes.
  rewrite (bind_Ret _ _ h h es) by (apply get_array_Ret; exact Harr).
  apply (sort_outer_spec (length es - 1) [] es h); auto.
Qed.

(** The selection loop reads the boxes of the array in order. *)
Lemma load_spec (rest : list loc) :
  forall pre h tp c sel,
    h !! arr = Some (Array (pre ++ rest)) -> boxes_ok h (pre ++ rest) ->
    load arr (seq (length pre) (length rest)) tp c sel h
    = Ret (fill (map f rest) tp c sel, h).
Proof.
  induction rest as [|e rest IH]; intros pre h tp c sel Harr Hok; [reflexivity|].
  cbn [length seq load map fill].
  destruct (Qlt_bool 0 c); [|reflexivity].
  rewrite (bind_Ret _ _ h h (f e)).
  2:{ eapply elem_Ret; [exact Harr|apply list_lookup_middle, eq_refl|].
      apply Hok. rewrite elem_of_app, elem_of_cons. auto. }
  replace (S (length pre)) with (length (pre ++ [e]))
    by (rewrite length_app; simpl; lia).
  destruct (Qle_bool (weight (f e)) c);
    apply IH; rewrite <- app_assoc; assumption.
Qed.

End SortOnStore.

(** *** [fractionalKnapsack] on the store *)

(** [boxes.map] allocates the working copies after the objects already in
    the store, and changes none of these. *)
Lemma copy_boxes_spec (es : list loc) :
  forall bs h i,
    Forall2 (fun e b => h !! e = Some (Box b)) es bs ->
    copy_boxes es i h
    = Ret (seq (length h) (length es),
           h ++ map Box (imap (fun k => working_copy (i + k)) bs)).
Proof.
  induction es as [|e es IH]; intros bs h i Hall.
  - apply Forall2_nil_inv_l in Hall as ->. simpl. rewrite app_nil_r. reflexivity.
  - apply Forall2_cons_inv_l in Hall as (b & bs' & Hb & Hall & ->).
    cbn [copy_boxes].
    rewrite (bind_Ret _ _ h h b) by (apply get_box_Ret; exact Hb).
    rewrite (bind_Ret _ _ h (h ++ [Box (working_copy i b)]) (length h))
      by reflexivity.
    assert (Hall' : Forall2 (fun e' b' =>
                       (h ++ [Box (working_copy i b)]) !! e' = Some (Box b')) es bs').
    { eapply Forall2_impl; [exact Hall|].
      intros e' b' He'. apply lookup_app_l_Some. exact He'. }
    rewrite (bind_Ret _ _ _ _ _ (IH bs' _ (S i) Hall')).
    unfold mret, M_ret. rewrite length_app. simpl length.
    rewrite imap_cons, Nat.add_0_r, Nat.add_1_r, <- app_assoc. simpl.
    do 5 f_equal. apply imap_ext. intros k x _.
    unfold compose. f_equal. lia.
Qed.

(** The box that a reference points to in a store. *)
Definition box_of (h : heap) (e : loc) : box :=
  match h !! e with
  | Some (Box b) => b
  | _ => item 0 0
  end.

(** On a well-formed input the call returns the planned result; the store
    it leaves is the initial store followed by the working copies and the
    working array. *)
Lemma fractionalKnapsack_spec (h : heap) (boxes : loc) (bs : list box)
    (approach : Z) (truckCapacity : Q) :
  boxes_at h boxes bs ->
  exists refs,
    fractionalKnapsack boxes approach truckCapacity h
    = Ret (plan approach truckCapacity bs,
           h ++ map Box (imap working_copy bs) ++ [Array refs]).
Proof.
  intros (es & Hes & Hall).
  pose proof (Forall2_length _ _ _ Hall) as Hlen.
  set (ts := imap working_copy bs).
  set (h1 := h ++ map Box ts).
  set (refs := seq (length h) (length es)).
  set (h2 := h1 ++ [Array refs]).
  set (f := box_of h2).
  assert (Hts : length ts = length es) by (unfold ts; rewrite length_imap; lia).
  assert (Hh1 : length h1 = length h + length es)
    by (unfold h1; rewrite length_app, length_map; lia).
  assert (Hf : map f refs = ts).
  { apply list_eq. intros k. unfold refs.
    rewrite list_lookup_fmap.
    destruct (decide (k < length es)) as [Hk|Hk].
    - rewrite lookup_seq_lt by exact Hk. simpl.
      destruct (lookup_lt_is_Some_2 ts k) as [t Ht]; [lia|].
      rewrite Ht. f_equal. unfold f, box_of, h2, h1.
      rewrite lookup_app_l by (rewrite length_app, length_map; lia).
      rewrite lookup_app_r by lia.
      replace (length h + k - length h) with k by lia.
      rewrite list_lookup_fmap, Ht. reflexivity.
    - rewrite lookup_seq_ge by lia. rewrite lookup_ge_None_2 by lia. reflexivity. }
  assert (Hok : boxes_ok f h2 refs).
  { intros e He. unfold refs in He. apply elem_of_seq in He.
    destruct (lookup_lt_is_Some_2 ts (e - length h)) as [t Ht]; [lia|].
    assert (Hlk : h2 !! e = Some (Box t)).
    { unfold h2, h1.
      rewrite lookup_app_l by (rewrite length_app, length_map; lia).
      rewrite lookup_app_r by lia.
      rewrite list_lookup_fmap, Ht. reflexivity. }
    unfold f, box_of. rewrite Hlk. reflexivity. }
  assert (Htemp : h2 !! length h1 = Some (Array refs))
    by (unfold h2; apply list_lookup_middle, eq_refl).
  set (refs' := exchange_sort (sw_ref approach f) (length refs - 1) refs).
  exists refs'.
  unfold fractionalKnapsack.
  rewrite (bind_Ret _ _ h h es) by (apply get_array_Ret; exact Hes).
  rewrite (bind_Ret _ _ h h1 refs).
  2:{ rewrite (copy_boxes_spec es bs h 0 Hall). reflexivity. }
  rewrite (bind_Ret _ _ h1 h2 (length h1)) by reflexivity.
  rewrite (bind_Ret _ _ h2 _ tt (sortBoxes_spec approach f _ h2 refs Htemp Hok)).
  fold refs'.
  set (h3 := <[length h1 := Array refs']> h2).
  assert (Htemp' : h3 !! length h1 = Some (Array refs'))
    by (eapply lookup_update, Htemp).
  assert (Hok' : boxes_ok f h3 refs').
  { eapply boxes_ok_update; [exact Htemp|].
    intros e He. apply Hok. unfold refs' in He.
    rewrite exchange_sort_perm in He. exact He. }
  rewrite (bind_Ret _ _ h3 h3 refs') by (apply get_array_Ret; exact Htemp').
  rewrite (bind_Ret _ _ h3 h3 _
             (load_spec f (length h1) refs' [] h3 0%Q truckCapacity [] Htemp' Hok')).
  unfold mret, M_ret. f_equal. f_equal.
  - unfold plan, sorted_copies. do 2 f_equal. unfold refs'.
    unfold sw_ref. rewrite exchange_sort_map, Hf. fold ts.
    unfold refs. rewrite length_seq, Hlen. reflexivity.
  - unfold h3, h2. rewrite insert_app_r_alt by lia.
    rewrite Nat.sub_diag. simpl. unfold h1. rewrite <- app_assoc. reflexivity.
Qed.

(** *** The selection loop *)

Lemma fill_no_capacity (bs : list box) (tp c : Q) (sel : list selection) :
  Qlt_bool 0 c = false -> fill bs tp c sel = (tp, c, sel).
Proof. intros Hc. destruct bs; simpl; [|rewrite Hc]; reflexivity. Qed.


Lemma sum_takenProfit_snoc (sel : list selection) (s : selection) :
  (sum_takenProfit (sel ++ [s]) == sum_takenProfit sel + takenProfit s)%Q.
Proof.
  unfold sum_takenProfit. induction sel as [|a sel IH]; simpl; [lra|].
  rewrite IH. lra.
Qed.


(** Every box that the loop selects is one of the boxes it was given. *)
Lemma fill_selected (bs : list box) :
  forall tp c sel tp' c' sel',
    fill bs tp c sel = (tp', c', sel') ->
    forall s, s ∈ sel' -> s ∈ sel \/ selected_box s ∈ bs.
Proof.
  induction bs as [|b bs IH]; intros tp c sel tp' c' sel' Hfill s Hs.
  - simpl in Hfill. injection Hfill as <- <- <-. left. exact Hs.
  - simpl in Hfill. destruct (Qlt_bool 0 c).
    + destruct (Qle_bool (weight b) c);
        destruct (IH _ _ _ _ _ _ Hfill s Hs) as [Hin|Hin];
        try (right; right; exact Hin);
        apply elem_of_app in Hin as [Hin|Hin]; try (left; exact Hin);
        apply list_elem_of_singleton in Hin as ->; right; left.
    + injection Hfill as <- <- <-. left. exact Hs.
Qed.

Lemma sorted_copies_perm (approach : Z) (bs : list box) :
  Permutation (sorted_copies approach bs) (imap working_copy bs).
Proof. apply exchange_sort_perm. Qed.


(** *** The claims that do not depend on the order of the boxes *)

(** C7.  For every well-formed input (an array of box objects), every
    approach and every capacity, the call returns, and every object that was
    in the store before the call (the caller's array and each box it lists
    among them) is in the store unchanged after it: the only array that
    [sortBoxes] reorders is the freshly allocated copy. *)
Theorem fractionalKnapsack_frame (h : heap) (boxes : loc) (bs : list box)
    (approach : Z) (truckCapacity : Q) :
  boxes_at h boxes bs ->
  exists res h',
    fractionalKnapsack boxes approach truckCapacity h = Ret (res, h') /\
    (forall l o, h !! l = Some o -> h' !! l = Some o) /\
    boxes_at h' boxes bs.
Proof.
  intros Hin.
  destruct (fractionalKnapsack_spec h boxes bs approach truckCapacity Hin)
    as [refs Hrun].
  do 2 eexists. split; [exact Hrun|].
  assert (Hframe : forall l o, h !! l = Some o ->
            (h ++ map Box (imap working_copy bs) ++ [Array refs]) !! l = Some o)
    by (intros l o Hl; apply lookup_app_l_Some; exact Hl).
  split; [exact Hframe|].
  destruct Hin as (es & Hes & Hall). exists es. split; [apply Hframe, Hes|].
  eapply Forall2_impl; [exact Hall|]. intros e b He. apply Hframe, He.
Qed.

(** C9.  For every well-formed input and every approach, a call with
    capacity 0 returns an empty [selectedBoxes] and a total profit of 0. *)
Theorem fractionalKnapsack_zero_capacity (h : heap) (boxes : loc) (bs : list box)
    (approach : Z) (truckCapacity : Q) :
  boxes_at h boxes bs -> (truckCapacity == 0)%Q ->
  exists res h',
    fractionalKnapsack boxes approach truckCapacity h = Ret (res, h') /\
    selectedBoxes res = [] /\ (totalProfit res == 0)%Q.
Proof.
  intros Hin Hzero.
  destruct (fractionalKnapsack_spec h boxes bs approach truckCapacity Hin)
    as [refs Hrun].
  do 2 eexists. split; [exact Hrun|].
  unfold plan. rewrite fill_no_capacity by (apply Qlt_bool_false; lra).
  simpl. split; reflexivity.
Qed.


(** C6, as the code has it.  [fractionalKnapsack] validates nothing and
    has no error of its own: on every well-formed input, whatever the
    weights, it returns a result.  The ratio computation never divides by
    zero: the ratio of a selected box is [profit / weight] when its weight
    is positive (so not zero) and 0 otherwise. *)
Theorem fractionalKnapsack_no_validation (h : heap) (boxes : loc) (bs : list box)
    (approach : Z) (truckCapacity : Q) :
  boxes_at h boxes bs ->
  exists res h',
    fractionalKnapsack boxes approach truckCapacity h = Ret (res, h') /\
    forall s, s ∈ selectedBoxes res ->
      ((0 < weight (selected_box s))%Q ->
       ~ (weight (selected_box s) == 0)%Q /\
       ratio (selected_box s)
         = Some (profit (selected_box s) / weight (selected_box s))%Q) /\
      (~ (0 < weight (selected_box s))%Q -> ratio (selected_box s) = Some 0%Q).
Proof.
  intros Hin.
  destruct (fractionalKnapsack_spec h boxes bs approach truckCapacity Hin)
    as [refs Hrun].
  do 2 eexists. split; [exact Hrun|].
  unfold plan.
  destruct (fill (sorted_copies approach bs) 0%Q truckCapacity [])
    as [[tp c] sel] eqn:Efill.
  cbn [selectedBoxes make_result]. intros s Hs.
  destruct (fill_selected _ _ _ _ _ _ _ Efill s Hs) as [Hnil|Hbox];
    [inversion Hnil|].
  rewrite sorted_copies_perm in Hbox.
  apply elem_of_lookup_imap in Hbox as (i & b & -> & _). simpl.
  destruct (Qlt_bool 0 (weight b)) eqn:Epos.
  - apply Qlt_bool_iff in Epos. split; [|intros Hn; contradiction].
    intros _. split; [lra|reflexivity].
  - apply Qlt_bool_false in Epos. split; [intros Hp; lra|reflexivity].
Qed.

(** *** The profit of an order of the boxes *)

(** The profit that the selection loop makes of [bs] with capacity [c]. *)
Fixpoint gain (bs : list box) (c : Q) : Q :=
  match bs with
  | [] => 0
  | b :: bs' =>
      if Qlt_bool 0 c then
        if Qle_bool (weight b) c then profit b + gain bs' (c - weight b)
        else profit b * (c / weight b)
      else 0
  end.

Lemma fill_gain (bs : list box) :
  forall tp c sel tp' c' sel',
    fill bs tp c sel = (tp', c', sel') ->
    (tp' == tp + gain bs c)%Q /\
    (sum_takenProfit sel' == sum_takenProfit sel + gain bs c)%Q.
Proof.
  induction bs as [|b bs IH]; intros tp c sel tp' c' sel' Hfill.
  - simpl in Hfill. injection Hfill as <- <- <-. simpl. split; lra.
  - simpl in Hfill |- *. destruct (Qlt_bool 0 c).
    + destruct (Qle_bool (weight b) c).
      * apply IH in Hfill as [Htp Hsel]. rewrite Htp, Hsel, sum_takenProfit_snoc.
        simpl. split; lra.
      * rewrite fill_no_capacity in Hfill by reflexivity.
        injection Hfill as <- <- <-. rewrite sum_takenProfit_snoc. simpl.
        split; lra.
    + injection Hfill as <- <- <-. split; lra.
Qed.

Ltac bool_to_prop :=
  repeat match goal with
         | H : Qlt_bool _ _ = true |- _ => apply Qlt_bool_iff in H
         | H : Qlt_bool _ _ = false |- _ => apply Qlt_bool_false in H
         | H : Qle_bool _ _ = true |- _ => apply Qle_bool_iff in H
         | H : Qle_bool ?a ?b = false |- _ =>
             assert (b < a)%Q
               by (apply Qnot_le_lt; intros Hle; apply Qle_bool_iff in Hle; congruence);
             clear H
         end.

Ltac case_tests :=
  repeat match goal with
         | |- context [Qlt_bool ?a ?b] => destruct (Qlt_bool a b) eqn:?
         | |- context [Qle_bool ?a ?b] => destruct (Qle_bool a b) eqn:?
         end;
  bool_to_prop.



Lemma scaled (p w x : Q) : (0 < w)%Q -> (p * (x / w) == p / w * x)%Q.
Proof. intros Hw. field. lra. Qed.

Lemma whole_profit (p w : Q) : (0 < w)%Q -> (p == p / w * w)%Q.
Proof. intros Hw. field. lra. Qed.


(** The value of a unit of weight of a box. *)
Definition density (b : box) : Q := (profit b / weight b)%Q.



(** *** [sortBoxes] under approach 3 *)








(** *** Rounding to two decimals is monotone *)

Lemma hundredths_le (z1 z2 : Z) : (z1 <= z2)%Z -> (z1 # 100 <= z2 # 100)%Q.
Proof. intros Hz. unfold Qle. simpl. lia. Qed.

Lemma toFixed2_mono (x y : Q) : (x <= y)%Q -> (toFixed2 x <= toFixed2 y)%Q.
Proof.
  intros Hxy. unfold toFixed2.
  destruct (Qle_bool 0 x) eqn:Ex, (Qle_bool 0 y) eqn:Ey; bool_to_prop.
  - apply hundredths_le, Qfloor_resp_le. lra.
  - lra.
  - assert (H1 : (0 <= Qfloor (- x * 100 + (1 # 2)))%Z)
      by (change 0%Z with (Qfloor 0); apply Qfloor_resp_le; lra).
    assert (H2 : (0 <= Qfloor (y * 100 + (1 # 2)))%Z)
      by (change 0%Z with (Qfloor 0); apply Qfloor_resp_le; lra).
    apply hundredths_le in H1, H2. lra.
  - apply Qopp_le_compat, hundredths_le, Qfloor_resp_le. lra.
Qed.

(** *** The claim about the three approaches *)


(** *** Concrete instances *)

Lemma example_store_boxes : boxes_at example_store 3 example_items.
Proof. exists [0; 1; 2]. split; [reflexivity|]. repeat constructor. Defined.


Example fractionalKnapsack_example :
  exists res h',
    fractionalKnapsack 3 3 25 example_store = Ret (res, h') /\
    (totalProfit res == 180)%Q /\
    map (fun s => (index (selected_box s), fraction s)) (selectedBoxes res)
      = [(Some 2, 1%Q); (Some 0, 1%Q)] /\
    (remainingCapacity res == 0)%Q.
Proof. do 2 eexists. split; [reflexivity|]. repeat split. Qed.



Lemma fractionalKnapsack_frame_witness :
  boxes_at example_store 3 example_items /\
  exists res h',
    fractionalKnapsack 3 1 25 example_store = Ret (res, h') /\
    (forall l o, example_store !! l = Some o -> h' !! l = Some o) /\
    boxes_at h' 3 example_items.
Proof.
  split; [exact example_store_boxes|].
  apply (fractionalKnapsack_frame example_store 3 example_items 1 25).
  exact example_store_boxes.
Defined.

Lemma fractionalKnapsack_zero_capacity_witness :
  boxes_at example_store 3 example_items /\ (0 == 0)%Q /\
  exists res h',
    fractionalKnapsack 3 3 0 example_store = Ret (res, h') /\
    selectedBoxes res = [] /\ (totalProfit res == 0)%Q.
Proof.
  split; [exact example_store_boxes|]. split; [reflexivity|].
  apply (fractionalKnapsack_zero_capacity example_store 3 example_items 3 0);
    [exact example_store_boxes|reflexivity].
Defined.

Lemma zero_weight_store_boxes : boxes_at zero_weight_store 1 [item 0 5].
Proof. exists [0]. split; [reflexivity|]. repeat constructor. Defined.

(** An item of weight 0 is accepted: the call returns, with the item
    selected whole at ratio 0. *)
Lemma fractionalKnapsack_accepts_zero_weight :
  boxes_at zero_weight_store 1 [item 0 5] /\
  (weight (item 0 5) <= 0)%Q /\
  exists res h',
    fractionalKnapsack 1 3 10 zero_weight_store = Ret (res, h') /\
    map (fun s => (ratio (selected_box s), fraction s)) (selectedBoxes res)
      = [(Some 0%Q, 1%Q)] /\
    (totalProfit res == 5)%Q.
Proof.
  split; [exact zero_weight_store_boxes|].
  split; [apply Qle_bool_imp_le; reflexivity|].
  do 2 eexists. split; [reflexivity|]. split; reflexivity.
Qed.

Lemma fractionalKnapsack_no_validation_witness :
  boxes_at zero_weight_store 1 [item 0 5] /\
  exists res h',
    fractionalKnapsack 1 3 10 zero_weight_store = Ret (res, h') /\
    forall s, s ∈ selectedBoxes res ->
      ((0 < weight (selected_box s))%Q ->
       ~ (weight (selected_box s) == 0)%Q /\
       ratio (selected_box s)
         = Some (profit (selected_box s) / weight (selected_box s))%Q) /\
      (~ (0 < weight (selected_box s))%Q -> ratio (selected_box s) = Some 0%Q).
Proof.
  split; [exact zero_weight_store_boxes|].
  apply (fractionalKnapsack_no_validation zero_weight_store 1 [item 0 5] 3 10).
  exact zero_weight_store_boxes.
Defined.

End FractionalKnapsackTheory.

(** ** More about [backwardCost]: the two tables *)

Module MultiStageGraphTables.
Import MultiStageGraph JsFacts MultiStageGraphTheory.





(** In [seq a k] the elements before [r] are those below [r]. *)
Lemma seq_split_before (a k : nat) (pre post : list nat) (r r' : nat) :
  seq a k = pre ++ r :: post -> a <= r' < r -> r' ∈ pre.
Proof.
  intros Hseq Hr'.
  assert (Hr : r = a + length pre).
  { assert (H : seq a k !! length pre = Some r)
      by (rewrite Hseq; apply list_lookup_middle, eq_refl).
    apply lookup_seq in H. lia. }
  assert (Hin : r' ∈ seq a k).
  { apply elem_of_seq. split; [lia|].
    pose proof (f_equal length Hseq) as Hlen.
    rewrite length_seq, length_app in Hlen. simpl in Hlen. lia. }
  rewrite Hseq, elem_of_app, elem_of_cons in Hin.
  destruct Hin as [Hin|[->|Hin]]; [exact Hin|lia|].
  apply list_elem_of_lookup in Hin as [i Hi].
  assert (H : seq a k !! (length pre + S i) = Some r').
  { rewrite Hseq, lookup_app_r by lia.
    replace (length pre + S i - length pre) with (S i) by lia. exact Hi. }
  apply lookup_seq in H. lia.
Qed.










End MultiStageGraphTables.

(** ** More about [nearestNeighbor]: the shape of the tour and its legs *)

Module TSPLegs.
Import TSP JsFacts TSPTheory.

Lemma js_lt_transitive (a b c : jsnum) :
  js_lt a b = true -> js_lt b c = true -> js_lt a c = true.
Proof.
  destruct a, b, c; simpl; try congruence.
  rewrite !Qlt_bool_iff. lra.
Qed.

Lemma js_lt_asym (a b : jsnum) : js_lt a b = true -> js_lt b a = false.
Proof.
  destruct a, b; simpl; try congruence.
  rewrite Qlt_bool_iff, Qlt_bool_false. lra.
Qed.

Lemma js_lt_irrefl (a : jsnum) : js_lt a a = false.
Proof. destruct a; simpl; try reflexivity. apply Qlt_bool_false. lra. Qed.

Lemma js_lt_under (a b c : jsnum) :
  c <> NaN -> js_lt a b = true -> js_lt c b = false -> js_lt a c = true.
Proof.
  destruct a, b, c; simpl; try congruence.
  rewrite !Qlt_bool_iff, Qlt_bool_false. lra.
Qed.

Lemma js_lt_not_closer (a c : jsnum) :
  (c <> NaN -> js_lt a c = true) -> js_lt c a = false.
Proof.
  intros H. destruct c; try (apply js_lt_asym, H; discriminate). reflexivity.
Qed.

(** The scan in order: when it yields a city, no unvisited city scanned
    after it is closer, and every unvisited city scanned before it is
    strictly farther. *)
Lemma find_nearest_first (D : list (list jsnum)) (vis : list bool) (cur : nat)
    (row : list jsnum) (cities : list nat) :
  D !! cur = Some row ->
  forall nc0 md0,
    exists nc md,
      find_nearest D vis cur cities nc0 md0 = Ret (nc, md) /\
      ((nc = nc0 /\ md = md0 /\
        forall c, c ∈ cities -> unvisited vis c = true ->
          js_lt (js_get row c) md0 = false) \/
       exists pre c post,
         cities = pre ++ c :: post /\ unvisited vis c = true /\
         nc = Z.of_nat c /\ md = js_get row c /\ js_lt md md0 = true /\
         Forall (fun c' => unvisited vis c' = true -> js_get row c' <> NaN ->
                           js_lt md (js_get row c') = true) pre /\
         Forall (fun c' => unvisited vis c' = true ->
                           js_lt (js_get row c') md = false) post).
Proof.
  intros Hrow. induction cities as [|c cities IH]; intros nc0 md0; simpl.
  - exists nc0, md0. split; [reflexivity|]. left.
    split; [reflexivity|]. split; [reflexivity|]. intros c Hc. inversion Hc.
  - destruct (unvisited vis c) eqn:Eun;
      [rewrite Hrow; destruct (js_lt (js_get row c) md0) eqn:Elt|].
    + destruct (IH (Z.of_nat c) (js_get row c))
        as (nc & md & Hrun &
            [(-> & -> & Hall)
            |(pre & c2 & post & -> & Hun & -> & -> & Hlt & Hpre & Hpost)]);
        do 2 eexists; (split; [exact Hrun|]); right.
      * exists [], c, cities. split; [reflexivity|]. repeat split; try assumption.
        -- constructor.
        -- apply Forall_forall. intros c' Hc' Hun'. apply Hall; assumption.
      * exists (c :: pre), c2, post. split; [reflexivity|].
        repeat split; try assumption.
        -- eapply js_lt_transitive; eassumption.
        -- constructor; [intros _ _; exact Hlt|exact Hpre].
    + destruct (IH nc0 md0)
        as (nc & md & Hrun &
            [(-> & -> & Hall)
            |(pre & c2 & post & -> & Hun & -> & -> & Hlt & Hpre & Hpost)]);
        do 2 eexists; (split; [exact Hrun|]).
      * left. split; [reflexivity|]. split; [reflexivity|].
        intros c' Hc' Hun'. apply elem_of_cons in Hc' as [->|Hc'];
          [exact Elt|apply Hall; assumption].
      * right. exists (c :: pre), c2, post. split; [reflexivity|].
        repeat split; try assumption.
        constructor; [|exact Hpre]. intros _ Hnan.
        eapply js_lt_under; eassumption.
    + destruct (IH nc0 md0)
        as (nc & md & Hrun &
            [(-> & -> & Hall)
            |(pre & c2 & post & -> & Hun & -> & -> & Hlt & Hpre & Hpost)]);
        do 2 eexists; (split; [exact Hrun|]).
      * left. split; [reflexivity|]. split; [reflexivity|].
        intros c' Hc' Hun'. apply elem_of_cons in Hc' as [->|Hc'];
          [congruence|apply Hall; assumption].
      * right. exists (c :: pre), c2, post. split; [reflexivity|].
        repeat split; try assumption.
        constructor; [|exact Hpre]. intros Hun'. congruence.
Qed.

(** The leg from [u] to [v], chosen when the tour was [take (S k) t]: [v] is
    at a distance below [Infinity], no city outside the tour so far is
    closer to [u], and every such city of lower index whose distance
    compares is strictly farther. *)
Definition leg_ok (D : list (list jsnum)) (t : list nat) (k u v : nat) : Prop :=
  js_lt (dist D u v) PInf = true /\
  (forall c, c < length D -> c ∉ take (S k) t ->
     js_lt (dist D u c) (dist D u v) = false) /\
  (forall c, c < v -> c ∉ take (S k) t -> dist D u c <> NaN ->
     js_lt (dist D u v) (dist D u c) = true).

Definition legs_ok (D : list (list jsnum)) (t : list nat) : Prop :=
  forall k u v, t !! k = Some u -> t !! S k = Some v -> leg_ok D t k u v.

(** The number of [true] entries of [visited]. *)
Definition marked (vis : list bool) : nat :=
  length (filter (fun b => b = true) vis).

Lemma marked_replicate (n : nat) : marked (replicate n false) = 0.
Proof.
  unfold marked. induction n as [|n IH]; [reflexivity|].
  simpl. rewrite filter_cons_False by discriminate. exact IH.
Qed.

Lemma marked_insert (vis : list bool) :
  forall c, vis !! c = Some false -> marked (<[c := true]> vis) = S (marked vis).
Proof.
  unfold marked. induction vis as [|b vis IH]; intros c Hc; [discriminate|].
  destruct c as [|c]; simpl in *.
  - injection Hc as ->. rewrite !filter_cons. reflexivity.
  - destruct b.
    + rewrite !filter_cons_True by reflexivity. simpl. rewrite IH by exact Hc.
      reflexivity.
    + rewrite !filter_cons_False by discriminate. apply IH, Hc.
Qed.

Lemma marked_all (vis : list bool) :
  forallb (fun v => bool_decide (v = true)) vis = true <-> marked vis = length vis.
Proof.
  unfold marked. induction vis as [|b vis IH]; simpl; [tauto|].
  pose proof (length_filter (fun b => b = true) vis) as Hle.
  rewrite andb_true_iff, bool_decide_eq_true, IH. destruct b.
  - rewrite filter_cons_True by reflexivity. simpl. split; [intros [_ ->]|]; auto.
  - rewrite filter_cons_False by discriminate. split; [intros [? _]; discriminate|lia].
Qed.

Lemma advance_city (w : walk) (c : nat) (md : jsnum) :
  advance w (Z.of_nat c) md =
  {| visited := <[c := true]> (visited w);
     tour_so_far := tour_so_far w ++ [c];
     distance_so_far := js_add (distance_so_far w) md;
     currentCity := c |}.
Proof.
  unfold advance. destruct (Z.eqb_spec (Z.of_nat c) (-1)); [lia|].
  rewrite Nat2Z.id. reflexivity.
Qed.

Definition full_inv (D : list (list jsnum)) (start : nat) (w : walk) : Prop :=
  walk_inv D start w /\ legs_ok D (tour_so_far w) /\
  marked (visited w) = length (tour_so_far w).

Lemma full_inv_step (D : list (list jsnum)) (start : nat) (w : walk) :
  full_inv D start w ->
  exists nc md,
    find_nearest D (visited w) (currentCity w) (seq 0 (length D)) (-1) PInf
      = Ret (nc, md) /\
    full_inv D start (advance w nc md).
Proof.
  intros (Hinv & Hlegs & Hcount).
  pose proof Hinv as (Hlen & _ & _ & Hvis & Hlast & Hcur & _).
  destruct (lookup_lt_is_Some_2 D (currentCity w) Hcur) as [row Hrow].
  assert (Hdist : forall c, dist D (currentCity w) c = js_get row c)
    by (intros c; unfold dist; rewrite Hrow; reflexivity).
  destruct (find_nearest_first D (visited w) (currentCity w) row
              (seq 0 (length D)) Hrow (-1)%Z PInf)
    as (nc & md & Hrun &
        [(-> & -> & _)|(pre & c & post & Hseq & Hun & -> & -> & Hlt & Hpre & Hpost)]).
  - exists (-1)%Z, PInf. split; [exact Hrun|]. split; [exact Hinv|]. auto.
  - assert (Hc : c < length D).
    { assert (Hin : c ∈ seq 0 (length D))
        by (rewrite Hseq, elem_of_app, elem_of_cons; auto).
      apply elem_of_seq in Hin. lia. }
    assert (Hout : forall c', c' < length D -> c' ∉ tour_so_far w ->
              unvisited (visited w) c' = true).
    { intros c' Hc' Hnotin. apply unvisited_lookup; [lia|].
      rewrite Hvis. exact Hnotin. }
    exists (Z.of_nat c), (js_get row c). split; [exact Hrun|].
    split; [apply walk_inv_advance; assumption|].
    rewrite advance_city. simpl. split.
    + intros k u v Hk HSk.
      destruct (decide (S k < length (tour_so_far w))) as [Hin|Hend].
      * rewrite lookup_app_l in Hk, HSk by lia.
        destruct (Hlegs k u v Hk HSk) as (H1 & H2 & H3).
        unfold leg_ok. rewrite take_app_le by lia. auto.
      * assert (HSk' : S k = length (tour_so_far w)).
        { apply lookup_lt_Some in HSk. rewrite length_app in HSk. simpl in HSk. lia. }
        rewrite lookup_app_l in Hk by lia.
        rewrite lookup_app_r in HSk by lia.
        replace (S k - length (tour_so_far w)) with 0 in HSk by lia.
        injection HSk as <-.
        assert (u = currentCity w) as ->.
        { rewrite last_lookup in Hlast.
          replace (pred (length (tour_so_far w))) with k in Hlast by lia.
          congruence. }
        unfold leg_ok. rewrite HSk', take_app_length, !Hdist.
        split; [exact Hlt|]. split.
        -- intros c' Hc' Hnotin. rewrite Hdist.
           pose proof (Hout c' Hc' Hnotin) as Hun'.
           assert (Hin : c' ∈ seq 0 (length D)) by (apply elem_of_seq; lia).
           rewrite Hseq, elem_of_app, elem_of_cons in Hin.
           rewrite Forall_forall in Hpre, Hpost.
           destruct Hin as [Hin|[->|Hin]].
           ++ apply js_lt_not_closer. intros Hnan. apply Hpre; assumption.
           ++ apply js_lt_irrefl.
           ++ apply Hpost; assumption.
        -- intros c' Hc' Hnotin Hnan. rewrite Hdist in Hnan |- *.
           rewrite Forall_forall in Hpre. apply Hpre; [|apply Hout; [lia|]|]; try assumption.
           eapply MultiStageGraphTables.seq_split_before; [exact Hseq|lia].
    + rewrite marked_insert, Hcount, length_app; [simpl; lia|].
      apply unvisited_lookup in Hun; [|lia].
      destruct (lookup_lt_is_Some_2 (visited w) c) as [b Hb]; [lia|].
      rewrite Hb in Hun |- *. destruct b; congruence.
Qed.

(** The walk at the end of the selection loop. *)
Lemma visit_all_full (D : list (list jsnum)) (start : nat) :
  start < length D ->
  exists w, visit_all D start = Ret w /\ full_inv D start w.
Proof.
  intros Hs.
  destruct (visit_cities_invariant D (length D)
              (fun _ w => full_inv D start w) (length D - 1))
    with (steps := seq 0 (length D - 1)) (k := 0)
         (w := {| visited := js_store false (replicate (length D) false) start true;
                  tour_so_far := [start]; distance_so_far := Num 0;
                  currentCity := start |})
    as (w & Hrun & Hinv).
  - intros k w _ Hinv. apply full_inv_step. exact Hinv.
  - rewrite length_seq. lia.
  - split; [apply walk_inv_init; exact Hs|]. simpl. split.
    + intros k u v Hk HSk. destruct k; discriminate.
    + unfold js_store. rewrite length_replicate.
      destruct (Nat.ltb_spec start (length D)); [|lia].
      rewrite marked_insert, marked_replicate; [reflexivity|].
      apply lookup_replicate. auto.
  - exists w. auto.
Qed.

(** X3.  For every matrix, whatever its entries, and every start vertex of
    it, the call returns a tour that is a sequence without repetition of
    vertices of the matrix, beginning at the start vertex, followed by the
    start vertex once more; it has at most [n + 1] entries.
    [numCitiesVisited] is the number of vertices before the closing one, and
    [allVisited] is true exactly when that number is [n]. *)
Theorem nearestNeighbor_shape (D : list (list jsnum)) (start : nat) :
  start < length D ->
  exists res body,
    nearestNeighbor D start = Ret res /\
    tour res = body ++ [start] /\
    head body = Some start /\
    NoDup body /\
    (forall v, v ∈ body -> v < length D) /\
    length (tour res) <= length D + 1 /\
    numCitiesVisited res = length body /\
    (allVisited res = true <-> numCitiesVisited res = length D).
Proof.
  intros Hs.
  destruct (visit_all_full D start Hs) as (w & Hrun & Hinv & _ & Hcount).
  exists {| tour := tour_so_far w ++ [start];
            totalDistance := js_sum (legs D (tour_so_far w ++ [start]));
            allVisited := forallb (fun v => bool_decide (v = true)) (visited w);
            numCitiesVisited := length (filter (fun v => v = true) (visited w)) |}.
  exists (tour_so_far w).
  split; [apply nearestNeighbor_of_walk; assumption|]. simpl.
  destruct Hinv as (Hlen & [picks Hpicks] & Hnd & Hvis & _).
  assert (Hbound : forall v, v ∈ tour_so_far w -> v < length D).
  { intros v Hv. apply Hvis, lookup_lt_Some in Hv. lia. }
  split; [reflexivity|]. split; [rewrite Hpicks; reflexivity|].
  split; [exact Hnd|]. split; [exact Hbound|]. split.
  - rewrite length_app. simpl.
    assert (Hsub : tour_so_far w ⊆+ seq 0 (length D)).
    { apply NoDup_submseteq; [exact Hnd|].
      intros x Hx. apply elem_of_seq. specialize (Hbound x Hx). lia. }
    apply submseteq_length in Hsub. rewrite length_seq in Hsub. lia.
  - split; [exact Hcount|].
    rewrite marked_all. unfold marked in *. rewrite Hlen. reflexivity.
Qed.

(** X4.  For every matrix and every start vertex of it, each leg of the
    returned tour but the closing one goes to a nearest city not yet in the
    tour: its distance is below [Infinity], no city outside the tour so far
    is closer, and among those at the same distance the one of lowest index
    is taken (every city outside the tour so far and of lower index, whose
    distance compares, is strictly farther). *)
Theorem nearestNeighbor_greedy (D : list (list jsnum)) (start : nat) :
  start < length D ->
  exists res,
    nearestNeighbor D start = Ret res /\
    forall k u v,
      tour res !! k = Some u -> tour res !! S k = Some v ->
      S (S k) < length (tour res) ->
      leg_ok D (tour res) k u v.
Proof.
  intros Hs.
  destruct (visit_all_full D start Hs) as (w & Hrun & Hinv & Hlegs & _).
  eexists. split; [apply nearestNeighbor_of_walk; eassumption|]. simpl.
  intros k u v Hk HSk Hlt. rewrite length_app in Hlt. simpl in Hlt.
  rewrite lookup_app_l in Hk, HSk by lia.
  destruct (Hlegs k u v Hk HSk) as (H1 & H2 & H3).
  unfold leg_ok. rewrite take_app_le by lia. auto.
Qed.

Lemma nearestNeighbor_shape_witness :
  0 < length disconnected_distances /\
  exists res body,
    nearestNeighbor disconnected_distances 0 = Ret res /\
    tour res = body ++ [0] /\
    head body = Some 0 /\
    NoDup body /\
    (forall v, v ∈ body -> v < length disconnected_distances) /\
    length (tour res) <= length disconnected_distances + 1 /\
    numCitiesVisited res = length body /\
    (allVisited res = true <-> numCitiesVisited res = length disconnected_distances).
Proof.
  split; [simpl; lia|].
  apply (nearestNeighbor_shape disconnected_distances 0). simpl. lia.
Defined.

Lemma nearestNeighbor_greedy_witness :
  0 < length example_distances /\
  exists res,
    nearestNeighbor example_distances 0 = Ret res /\
    forall k u v,
      tour res !! k = Some u -> tour res !! S k = Some v ->
      S (S k) < length (tour res) ->
      leg_ok example_distances (tour res) k u v.
Proof.
  split; [simpl; lia|].
  apply (nearestNeighbor_greedy example_distances 0). simpl. lia.
Defined.

End TSPLegs.

(** ** More about [sortBoxes] and [fractionalKnapsack] *)

Module FractionalKnapsackMore.
Import FractionalKnapsack JsFacts FractionalKnapsackTheory.

(** *** The order that the exchange sort leaves *)

Section SortedBy.
Context {A : Type} (sw : A -> A -> bool) (le : A -> A -> Prop) (P : A -> Prop).
Hypothesis le_trans : forall x y z, le x y -> le y z -> le x z.
Hypothesis sw_true : forall x y, P x -> P y -> sw x y = true -> le y x.
Hypothesis sw_false : forall x y, P x -> P y -> sw x y = false -> le x y.

Lemma sweep_least (ys : list A) :
  forall x, P x -> Forall P ys ->
    le (sweep sw x ys).1 x /\ Forall (le (sweep sw x ys).1) (sweep sw x ys).2.
Proof using le_trans sw_true sw_false.
  induction ys as [|y ys IH]; intros x Hx Hys.
  - simpl. split; [|constructor].
    destruct (sw x x) eqn:E; [apply sw_true|apply sw_false]; assumption.
  - apply Forall_cons in Hys as [Hy Hys].
    destruct (sw x y) eqn:E.
    + rewrite sweep_cons_true by exact E. simpl.
      destruct (IH y Hy Hys) as [Hle Hall].
      assert (Hmx : le (sweep sw y ys).1 x)
        by (eapply le_trans; [exact Hle|apply sw_true; assumption]).
      split; [exact Hmx|]. constructor; assumption.
    + rewrite sweep_cons_false by exact E. simpl.
      destruct (IH x Hx Hys) as [Hle Hall].
      split; [exact Hle|]. constructor; [|exact Hall].
      eapply le_trans; [exact Hle|apply sw_false; assumption].
Qed.

Lemma exchange_sort_sorted_by (k : nat) :
  forall l, length l <= S k -> Forall P l ->
    StronglySorted le (exchange_sort sw k l).
Proof using le_trans sw_true sw_false.
  induction k as [|k IH]; intros l Hlen Hl.
  - destruct l as [|x [|y l]]; simpl in *; try lia; repeat constructor.
  - destruct l as [|x ys]; [constructor|].
    apply Forall_cons in Hl as [Hx Hys].
    rewrite exchange_sort_cons.
    destruct (sweep_least ys x Hx Hys) as [_ Hall].
    assert (Hr : Forall P (sweep sw x ys).2).
    { apply Forall_forall. intros z Hz.
      assert (Hin : z ∈ x :: ys)
        by (rewrite <- (sweep_perm sw ys x); right; exact Hz).
      apply elem_of_cons in Hin as [->|Hin]; [exact Hx|].
      rewrite Forall_forall in Hys. apply Hys, Hin. }
    apply SSorted_cons.
    + apply IH; [rewrite sweep_length; simpl in Hlen; lia|exact Hr].
    + rewrite exchange_sort_perm. exact Hall.
Qed.

End SortedBy.

Lemma sweep_never {A : Type} (sw : A -> A -> bool) (ys : list A) :
  (forall x y, sw x y = false) -> forall x, sweep sw x ys = (x, ys).
Proof.
  intros Hsw. induction ys as [|y ys IH]; intros x; [reflexivity|].
  rewrite sweep_cons_false by apply Hsw. rewrite IH. reflexivity.
Qed.

Lemma exchange_sort_never {A : Type} (sw : A -> A -> bool) (k : nat) :
  (forall x y, sw x y = false) -> forall l, exchange_sort sw k l = l.
Proof.
  intros Hsw. induction k as [|k IH]; intros l; [destruct l; reflexivity|].
  destruct l as [|x ys]; [reflexivity|].
  rewrite exchange_sort_cons, sweep_never by exact Hsw. simpl. rewrite IH.
  reflexivity.
Qed.

(** The ratio of a box whose [ratio] is defined. *)
Definition ratio_value (b : box) : Q := default 0%Q (ratio b).

(** X5.  Called on an array of box objects, [sortBoxes] returns without
    error for every approach value and changes no object but that array,
    whose elements it permutes.  Afterwards the array is in ascending order
    of weight under approach 1, in descending order of profit under
    approach 2, in descending order of ratio under approach 3 (when every
    box has a ratio), and unchanged under any other approach. *)
Theorem sortBoxes_sorts (h : heap) (arr : loc) (es : list loc) (approach : Z) :
  h !! arr = Some (Array es) ->
  (forall e, e ∈ es -> exists b, h !! e = Some (Box b)) ->
  exists es',
    sortBoxes arr approach h = Ret (tt, <[arr := Array es']> h) /\
    Permutation es' es /\
    (approach = 1%Z ->
     StronglySorted (fun a b => (weight (box_of h a) <= weight (box_of h b))%Q) es') /\
    (approach = 2%Z ->
     StronglySorted (fun a b => (profit (box_of h b) <= profit (box_of h a))%Q) es') /\
    (approach = 3%Z ->
     (forall e, e ∈ es -> is_Some (ratio (box_of h e))) ->
     StronglySorted
       (fun a b => (ratio_value (box_of h b) <= ratio_value (box_of h a))%Q) es') /\
    (approach <> 1%Z -> approach <> 2%Z -> approach <> 3%Z -> es' = es).
Proof.
  intros Harr Hboxes.
  assert (Hok : boxes_ok (box_of h) h es).
  { intros e He. destruct (Hboxes e He) as [b Hb].
    unfold box_of. rewrite Hb. reflexivity. }
  eexists. split; [apply (sortBoxes_spec approach (box_of h) arr h es Harr Hok)|].
  split; [apply exchange_sort_perm|].
  assert (Hlen : length es <= S (length es - 1)) by lia.
  split; [|split; [|split]].
  - intros ->.
    apply (exchange_sort_sorted_by _ _ (fun _ => True)); auto.
    + intros x y z. apply Qle_trans.
    + intros x y _ _ Hsw. unfold sw_ref, out_of_order in Hsw. simpl in Hsw.
      apply Qlt_bool_iff in Hsw. lra.
    + intros x y _ _ Hsw. unfold sw_ref, out_of_order in Hsw. simpl in Hsw.
      apply Qlt_bool_false in Hsw. exact Hsw.
    + apply Forall_forall. auto.
  - intros ->.
    apply (exchange_sort_sorted_by _ _ (fun _ => True)); auto.
    + intros x y z Hxy Hyz. eapply Qle_trans; eassumption.
    + intros x y _ _ Hsw. unfold sw_ref, out_of_order in Hsw. simpl in Hsw.
      apply Qlt_bool_iff in Hsw. lra.
    + intros x y _ _ Hsw. unfold sw_ref, out_of_order in Hsw. simpl in Hsw.
      apply Qlt_bool_false in Hsw. exact Hsw.
    + apply Forall_forall. auto.
  - intros -> Hratio.
    apply (exchange_sort_sorted_by _ _ (fun e => is_Some (ratio (box_of h e)))); auto.
    + intros x y z Hxy Hyz. eapply Qle_trans; eassumption.
    + intros x y [rx Hx] [ry Hy] Hsw.
      unfold sw_ref, out_of_order, ratio_value in *. simpl in Hsw.
      rewrite Hx, Hy in Hsw |- *. simpl in *. apply Qlt_bool_iff in Hsw. lra.
    + intros x y [rx Hx] [ry Hy] Hsw.
      unfold sw_ref, out_of_order, ratio_value in *. simpl in Hsw.
      rewrite Hx, Hy in Hsw |- *. simpl in *. apply Qlt_bool_false in Hsw. exact Hsw.
    + apply Forall_forall. exact Hratio.
  - intros H1 H2 H3. apply exchange_sort_never. intros x y.
    apply out_of_order_other.
    destruct (Z.eqb_spec approach 1), (Z.eqb_spec approach 2),
      (Z.eqb_spec approach 3); simpl; congruence.
Qed.

Lemma sortBoxes_sorts_witness :
  example_store !! 3 = Some (Array [0; 1; 2]) /\
  (forall e, e ∈ [0; 1; 2] -> exists b, example_store !! e = Some (Box b)) /\
  exists es',
    sortBoxes 3 2 example_store = Ret (tt, <[3 := Array es']> example_store) /\
    Permutation es' [0; 1; 2] /\
    (2%Z = 1%Z ->
     StronglySorted (fun a b => (weight (box_of example_store a)
                                 <= weight (box_of example_store b))%Q) es') /\
    (2%Z = 2%Z ->
     StronglySorted (fun a b => (profit (box_of example_store b)
                                 <= profit (box_of example_store a))%Q) es') /\
    (2%Z = 3%Z ->
     (forall e, e ∈ [0; 1; 2] -> is_Some (ratio (box_of example_store e))) ->
     StronglySorted
       (fun a b => (ratio_value (box_of example_store b)
                    <= ratio_value (box_of example_store a))%Q) es') /\
    (2%Z <> 1%Z -> 2%Z <> 2%Z -> 2%Z <> 3%Z -> es' = [0; 1; 2]).
Proof.
  assert (Hb : forall e, e ∈ [0; 1; 2] ->
            exists b, example_store !! e = Some (Box b)).
  { intros e He. repeat (apply elem_of_cons in He as [->|He]; [eexists; reflexivity|]).
    inversion He. }
  split; [reflexivity|]. split; [exact Hb|].
  apply (sortBoxes_sorts example_store 3 [0; 1; 2] 2); [reflexivity|exact Hb].
Defined.

(** *** The order of the working copies *)





(** *** The shape of the selection *)





(** *** Sums of rationals *)










(** *** A truck that holds every box *)





(** *** The profit as a function of the capacity *)

(** A box of positive weight and non-negative profit. *)
Definition sound (b : box) : Prop := (0 < weight b)%Q /\ (0 <= profit b)%Q.

Lemma sound_density (b : box) :
  sound b -> (0 <= density b)%Q /\ (profit b == density b * weight b)%Q.
Proof.
  intros [Hw Hp]. split.
  - unfold density. apply Qle_shift_div_l; lra.
  - apply whole_profit, Hw.
Qed.

Lemma gain_nonneg (bs : list box) :
  Forall sound bs -> forall c, (0 <= gain bs c)%Q.
Proof.
  induction 1 as [|b bs Hb _ IH]; intros c; simpl; [lra|].
  destruct (sound_density b Hb) as [Hd Hp]. destruct Hb as [Hw Hpos].
  case_tests; try lra.
  - specialize (IH (c - weight b)%Q). lra.
  - rewrite scaled by exact Hw. fold (density b).
    apply Qmult_le_0_compat; lra.
Qed.

Lemma gain_mono (bs : list box) :
  Forall sound bs ->
  forall c1 c2, (c1 <= c2)%Q -> (gain bs c1 <= gain bs c2)%Q.
Proof.
  induction 1 as [|b bs Hb Hbs IH]; intros c1 c2 Hc; simpl; [lra|].
  destruct (sound_density b Hb) as [Hd Hp].
  pose proof (gain_nonneg bs Hbs) as Hnn.
  destruct Hb as [Hw Hpos].
  case_tests; try lra;
    rewrite ?(scaled (profit b) (weight b)) by exact Hw; fold (density b).
  - specialize (IH (c1 - weight b)%Q (c2 - weight b)%Q). lra.
  - specialize (Hnn (c2 - weight b)%Q).
    assert (H1 : (density b * c1 <= density b * weight b)%Q)
      by (rewrite !(Qmult_comm (density b)); apply Qmult_le_compat_r; lra).
    lra.
  - rewrite !(Qmult_comm (density b)). apply Qmult_le_compat_r; lra.
  - specialize (Hnn (c2 - weight b)%Q). lra.
  - apply Qmult_le_0_compat; lra.
Qed.

(** X8.  A larger truck never earns less: when every weight is positive
    and every profit non-negative, the total profit returned under an
    approach does not decrease when the capacity grows. *)
Theorem fractionalKnapsack_capacity_monotone (h : heap) (boxes : loc)
    (bs : list box) (approach : Z) (c1 c2 : Q) :
  boxes_at h boxes bs -> Forall sound bs -> (c1 <= c2)%Q ->
  exists r1 r2 h1 h2,
    fractionalKnapsack boxes approach c1 h = Ret (r1, h1) /\
    fractionalKnapsack boxes approach c2 h = Ret (r2, h2) /\
    (totalProfit r1 <= totalProfit r2)%Q /\
    (sum_takenProfit (selectedBoxes r1) <= sum_takenProfit (selectedBoxes r2))%Q.
Proof.
  intros Hin Hsound Hc.
  destruct (fractionalKnapsack_spec h boxes bs approach c1 Hin) as [refs1 Hrun1].
  destruct (fractionalKnapsack_spec h boxes bs approach c2 Hin) as [refs2 Hrun2].
  do 4 eexists. split; [exact Hrun1|]. split; [exact Hrun2|].
  unfold plan.
  destruct (fill (sorted_copies approach bs) 0%Q c1 []) as [[tp1 d1] sel1] eqn:E1.
  destruct (fill (sorted_copies approach bs) 0%Q c2 []) as [[tp2 d2] sel2] eqn:E2.
  apply fill_gain in E1 as [Ht1 Hs1], E2 as [Ht2 Hs2].
  assert (Hsc : Forall sound (sorted_copies approach bs)).
  { rewrite sorted_copies_perm. apply Forall_forall. intros t Ht.
    apply elem_of_lookup_imap in Ht as (i & b & -> & Hb).
    rewrite Forall_forall in Hsound. apply (Hsound b), list_elem_of_lookup_2 with i, Hb. }
  pose proof (gain_mono _ Hsc c1 c2 Hc) as Hg.
  cbn [totalProfit selectedBoxes make_result].
  change (sum_takenProfit []) with 0%Q in Hs1, Hs2.
  split; [apply toFixed2_mono; lra|lra].
Qed.

Lemma example_items_sound : Forall sound example_items.
Proof. repeat constructor; apply Qle_bool_imp_le; reflexivity. Defined.

Lemma fractionalKnapsack_capacity_monotone_witness :
  boxes_at example_store 3 example_items /\ Forall sound example_items /\
  (20 <= 25)%Q /\
  exists r1 r2 h1 h2,
    fractionalKnapsack 3 3 20 example_store = Ret (r1, h1) /\
    fractionalKnapsack 3 3 25 example_store = Ret (r2, h2) /\
    (totalProfit r1 <= totalProfit r2)%Q /\
    (sum_takenProfit (selectedBoxes r1) <= sum_takenProfit (selectedBoxes r2))%Q.
Proof.
  assert (Hc : (20 <= 25)%Q) by (apply Qle_bool_imp_le; reflexivity).
  split; [exact example_store_boxes|]. split; [exact example_items_sound|].
  split; [exact Hc|].
  apply (fractionalKnapsack_capacity_monotone example_store 3 example_items 3 20 25);
    [exact example_store_boxes|exact example_items_sound|exact Hc].
Defined.

(** *** The ratio order against every way of loading the truck *)













(** *** The efficiency *)





End FractionalKnapsackMore.

(** ** [buildDistanceMatrix] and [tsp] *)

Module TSPDriverTheory.
Import JsFacts TSPTheory TSPLegs TSPDriver.

(** *** The matrix that [buildDistanceMatrix] fills *)

(** The value that the loops store at [(i, j)]. *)
Definition entry {city : Type} (calculateDistance : city -> city -> jsnum)
    (cs : list city) (i j : nat) : jsnum :=
  if negb (i =? j) then
    match cs !! i, cs !! j with
    | Some ci, Some cj => calculateDistance ci cj
    | _, _ => NaN
    end
  else Num 0.

Section Build.
Context {city : Type} (calculateDistance : city -> city -> jsnum) (cs : list city).

Lemma fill_row_run (i : nat) :
  i < length cs ->
  forall k j D row,
    j + k = length cs -> D !! i = Some row -> length row = length cs ->
    fill_row calculateDistance cs i (seq j k) D
    = Ret (<[i := take j row ++ map (entry calculateDistance cs i) (seq j k)]> D).
Proof.
  intros Hi. induction k as [|k IH]; intros j D row Hjk HD Hrow.
  - simpl. rewrite app_nil_r, take_ge by lia. rewrite list_insert_id by exact HD.
    reflexivity.
  - cbn [seq fill_row].
    assert (Hv : (if negb (i =? j)
                  then match cs !! i, cs !! j with
                       | Some ci, Some cj => Ret (calculateDistance ci cj)
                       | _, _ => Throw TypeError
                       end
                  else Ret (Num 0)) = Ret (entry calculateDistance cs i j)).
    { unfold entry.
      destruct (lookup_lt_is_Some_2 cs i Hi) as [ci ->].
      destruct (lookup_lt_is_Some_2 cs j ltac:(lia)) as [cj ->].
      destruct (negb (i =? j)); reflexivity. }
    rewrite Hv. cbn [mbind outcome_bind bind]. rewrite HD.
    unfold js_store. rewrite (proj2 (Nat.ltb_lt j (length row))) by lia.
    set (v := entry calculateDistance cs i j).
    rewrite (IH (S j) _ (<[j := v]> row)).
    + rewrite list_insert_insert_eq. f_equal. f_equal.
      rewrite (take_S_r _ j v) by (apply list_lookup_insert_eq; lia).
      rewrite take_insert_ge by lia. rewrite <- app_assoc. reflexivity.
    + lia.
    + apply list_lookup_insert_eq. apply lookup_lt_Some in HD. exact HD.
    + rewrite length_insert. exact Hrow.
Qed.

(** The row that is final once the inner loop has run for [i]. *)
Definition final_row (i : nat) : list jsnum :=
  map (entry calculateDistance cs i) (seq 0 (length cs)).

Lemma fill_rows_run :
  forall k i D,
    i + k = length cs -> length D = length cs ->
    (forall i' row, D !! i' = Some row -> length row = length cs) ->
    fill_rows calculateDistance cs (length cs) (seq i k) D
    = Ret (take i D ++ map final_row (seq i k)).
Proof.
  induction k as [|k IH]; intros i D Hik HD Hrows.
  - simpl. rewrite app_nil_r, take_ge by lia. reflexivity.
  - cbn [seq fill_rows].
    destruct (lookup_lt_is_Some_2 D i ltac:(lia)) as [row Hrow].
    rewrite (fill_row_run i ltac:(lia) (length cs) 0 D row eq_refl Hrow
               (Hrows i row Hrow)).
    cbn [mbind outcome_bind bind take app]. fold (final_row i).
    rewrite IH.
    + f_equal.
      rewrite (take_S_r _ i (final_row i))
        by (apply list_lookup_insert_eq; lia).
      rewrite take_insert_ge by lia. rewrite <- app_assoc. reflexivity.
    + lia.
    + rewrite length_insert. exact HD.
    + intros i' r Hr. destruct (decide (i' = i)) as [->|Hne].
      * rewrite list_lookup_insert_eq in Hr by lia. injection Hr as <-.
        unfold final_row. rewrite length_map, length_seq. reflexivity.
      * rewrite list_lookup_insert_ne in Hr by congruence. eapply Hrows, Hr.
Qed.

Lemma buildDistanceMatrix_run :
  buildDistanceMatrix calculateDistance cs
  = Ret (map final_row (seq 0 (length cs))).
Proof.
  unfold buildDistanceMatrix. rewrite fill_rows_run.
  - reflexivity.
  - reflexivity.
  - apply length_replicate.
  - intros i row Hrow. apply lookup_replicate in Hrow as [-> _].
    apply length_replicate.
Qed.

Lemma final_row_dist (i j : nat) :
  i < length cs -> j < length cs ->
  TSP.dist (map final_row (seq 0 (length cs))) i j = entry calculateDistance cs i j.
Proof.
  intros Hi Hj. unfold TSP.dist.
  rewrite list_lookup_fmap, lookup_seq_lt by exact Hi. simpl.
  unfold js_get, final_row.
  rewrite list_lookup_fmap, lookup_seq_lt by exact Hj. reflexivity.
Qed.

End Build.

(** X11.  For every array of cities [buildDistanceMatrix] returns, without
    error, a matrix with one row per city and one entry per city in each
    row; an entry on the diagonal is 0 and the entry at [(i, j)] off the
    diagonal is [calculateDistance(cityPositions[i], cityPositions[j])]. *)
Theorem buildDistanceMatrix_spec {city : Type}
    (calculateDistance : city -> city -> jsnum) (cs : list city) :
  exists D,
    buildDistanceMatrix calculateDistance cs = Ret D /\
    length D = length cs /\
    Forall (fun row => length row = length cs) D /\
    forall i j ci cj,
      cs !! i = Some ci -> cs !! j = Some cj ->
      TSP.dist D i j = if decide (i = j) then Num 0 else calculateDistance ci cj.
Proof.
  eexists. split; [apply buildDistanceMatrix_run|].
  split; [rewrite length_map, length_seq; reflexivity|]. split.
  - apply Forall_forall. intros row Hrow.
    apply list_elem_of_fmap in Hrow as (i & -> & _).
    unfold final_row. rewrite length_map, length_seq. reflexivity.
  - intros i j ci cj Hi Hj.
    rewrite final_row_dist by (eapply lookup_lt_Some; eassumption).
    unfold entry. rewrite Hi, Hj.
    destruct (Nat.eqb_spec i j), (decide (i = j)); simpl; congruence.
Qed.

(** *** When [nearestNeighbor] returns *)

(** X12.  [nearestNeighbor] returns a result exactly when the start vertex
    is a vertex of the matrix, and throws a [TypeError] exactly when it is
    not (in particular on the empty matrix); no call runs without end. *)
Theorem nearestNeighbor_outcome (D : list (list jsnum)) (start : nat) :
  ((exists res, TSP.nearestNeighbor D start = Ret res) <-> start < length D) /\
  (TSP.nearestNeighbor D start = Throw TypeError <-> length D <= start).
Proof.
  destruct (decide (start < length D)) as [Hs|Hs].
  - destruct (visit_all_full D start Hs) as (w & Hrun & Hinv & _).
    pose proof (nearestNeighbor_of_walk D start w Hrun Hinv) as Hret.
    split; split; try (intros; lia || exact Hs).
    + intros _. eexists. exact Hret.
    + intros Hthrow. rewrite Hret in Hthrow. discriminate.
  - pose proof (nearestNeighbor_start_outside D start ltac:(lia)) as Hthrow.
    split; split; try (intros; lia).
    + intros [res Hret]. rewrite Hthrow in Hret. discriminate.
    + intros _. exact Hthrow.
Qed.

(** *** The segments of the tour *)

Lemma segments_of_short (D : list (list jsnum)) (t : list nat) :
  length t <= 1 -> segments_of D t = [].
Proof. destruct t as [|u [|v t]]; simpl; intros; [reflexivity..|lia]. Qed.

Lemma segments_of_length (D : list (list jsnum)) (t : list nat) :
  length (segments_of D t) = length t - 1.
Proof.
  induction t as [|u [|v t] IH]; [reflexivity..|].
  change (segments_of D (u :: v :: t)) with
    ({| Segment.from := u; Segment.to := v;
        Segment.distance := js_toFixed2 (TSP.dist D u v) |}
     :: segments_of D (v :: t)).
  simpl length in *. rewrite IH. lia.
Qed.

Lemma tour_segments_run (D : list (list jsnum)) (t : list nat) :
  (forall i u v, t !! i = Some u -> t !! (i + 1) = Some v ->
     exists row d, D !! u = Some row /\ row !! v = Some d) ->
  forall k i acc,
    i + k = length t - 1 ->
    tour_segments D t (seq i k) acc = Ret (acc ++ segments_of D (drop i t)).
Proof.
  intros Hlegs. induction k as [|k IH]; intros i acc Hik.
  - simpl. rewrite segments_of_short by (rewrite length_drop; lia).
    rewrite app_nil_r. reflexivity.
  - cbn [seq tour_segments].
    destruct (lookup_lt_is_Some_2 t i ltac:(lia)) as [u Hu].
    destruct (lookup_lt_is_Some_2 t (i + 1) ltac:(lia)) as [v Hv].
    destruct (Hlegs i u v Hu Hv) as (row & d & Hrow & Hd).
    rewrite Hu, Hv, Hrow, Hd. rewrite IH by lia.
    rewrite (drop_S t u i Hu).
    replace (i + 1) with (S i) in Hv by lia.
    rewrite (drop_S t v (S i) Hv).
    rewrite <- app_assoc. simpl. unfold TSP.dist, js_get. rewrite Hrow, Hd.
    reflexivity.
Qed.

(** The run of [tsp] on a matrix whose rows are all there and long enough. *)
Lemma tsp_run {city : Type} (calculateDistance : city -> city -> jsnum)
    (random_city : nat -> city) (cities : option Z)
    (customCityPositions : option (list city))
    (customDistanceMatrix : option (list (list jsnum)))
    (D : list (list jsnum)) (r : TSP.result) (body : list nat) :
  match customDistanceMatrix with
  | Some D' => Ret D'
  | None => buildDistanceMatrix calculateDistance
              (match customCityPositions with
               | Some cs => cs
               | None => generateCityPositions random_city cities
               end)
  end = Ret D ->
  Forall (fun row => length D <= length row) D ->
  TSP.nearestNeighbor D 0 = Ret r ->
  TSP.tour r = body ++ [0] ->
  (forall v, v ∈ body -> v < length D) ->
  0 < length D ->
  exists res,
    tsp calculateDistance random_city cities customCityPositions
      customDistanceMatrix = Ret res /\
    tour res = TSP.tour r /\
    allVisited res = TSP.allVisited r /\
    numCitiesVisited res = TSP.numCitiesVisited r /\
    distance res = js_toFixed2 (TSP.totalDistance r) /\
    distanceMatrix res = D /\
    tourSegments res = segments_of D (TSP.tour r) /\
    cityPositions res = match customCityPositions with
                        | Some cs => cs
                        | None => generateCityPositions random_city cities
                        end /\
    averageSegmentDistance res
      = js_toFixed2 (js_over (TSP.totalDistance r) (length body)).
Proof.
  intros HD Hrows Hnn Htour Hbody Hn.
  assert (Hin : forall i u, TSP.tour r !! i = Some u -> u < length D).
  { intros i u Hu. apply list_elem_of_lookup_2 in Hu. rewrite Htour in Hu.
    apply elem_of_app in Hu as [Hu|Hu]; [apply Hbody, Hu|].
    apply list_elem_of_singleton in Hu as ->. exact Hn. }
  assert (Hlegs : forall i u v, TSP.tour r !! i = Some u ->
            TSP.tour r !! (i + 1) = Some v ->
            exists row d, D !! u = Some row /\ row !! v = Some d).
  { intros i u v Hu Hv. apply Hin in Hu, Hv.
    destruct (lookup_lt_is_Some_2 D u Hu) as [row Hrow].
    rewrite Forall_forall in Hrows.
    pose proof (Hrows row (list_elem_of_lookup_2 _ _ _ Hrow)) as Hlen.
    destruct (lookup_lt_is_Some_2 row v ltac:(lia)) as [d Hd]. eauto. }
  eexists. split.
  - unfold tsp. rewrite HD. cbn [mbind outcome_bind bind]. rewrite Hnn.
    cbn [mbind outcome_bind bind].
    rewrite (tour_segments_run D (TSP.tour r) Hlegs _ 0 []) by lia.
    cbn [mbind outcome_bind bind]. reflexivity.
  - cbn. repeat split; try reflexivity.
    rewrite Htour, length_app. simpl. do 2 f_equal. lia.
Qed.

(** X13.  Called with a distance matrix that has at least one row, every
    row with an entry for every vertex, [tsp] uses that matrix as it is and
    returns: the tour, the two flags and the distance (rounded to two
    decimals) are those of [nearestNeighbor] from vertex 0; the segments are
    the consecutive pairs of the tour in tour order, each with its rounded
    matrix entry, and there are as many of them as cities visited; the
    average is the total distance over that number, rounded. *)
Theorem tsp_on_matrix {city : Type} (calculateDistance : city -> city -> jsnum)
    (random_city : nat -> city) (cities : option Z)
    (customCityPositions : option (list city)) (D : list (list jsnum)) :
  0 < length D -> Forall (fun row => length D <= length row) D ->
  exists r res,
    TSP.nearestNeighbor D 0 = Ret r /\
    tsp calculateDistance random_city cities customCityPositions (Some D)
      = Ret res /\
    tour res = TSP.tour r /\
    allVisited res = TSP.allVisited r /\
    numCitiesVisited res = TSP.numCitiesVisited r /\
    distance res = js_toFixed2 (TSP.totalDistance r) /\
    distanceMatrix res = D /\
    tourSegments res = segments_of D (tour res) /\
    length (tourSegments res) = numCitiesVisited res /\
    averageSegmentDistance res
      = js_toFixed2 (js_over (TSP.totalDistance r) (numCitiesVisited res)).
Proof.
  intros Hn Hrows.
  destruct (visit_all_full D 0 Hn) as (w & Hrun & Hinv & _ & Hcount).
  pose proof (nearestNeighbor_of_walk D 0 w Hrun Hinv) as Hret.
  set (r := {| TSP.tour := TSP.tour_so_far w ++ [0];
               TSP.totalDistance := TSP.js_sum (TSP.legs D (TSP.tour_so_far w ++ [0]));
               TSP.allVisited :=
                 forallb (fun v => bool_decide (v = true)) (TSP.visited w);
               TSP.numCitiesVisited :=
                 length (filter (fun v => v = true) (TSP.visited w)) |}) in *.
  assert (Hbody : forall v, v ∈ TSP.tour_so_far w -> v < length D).
  { destruct Hinv as (Hlen & _ & _ & Hvis & _).
    intros v Hv. apply Hvis, lookup_lt_Some in Hv. lia. }
  destruct (tsp_run calculateDistance random_city cities customCityPositions
              (Some D) D r (TSP.tour_so_far w) eq_refl Hrows Hret eq_refl Hbody Hn)
    as (res & Hres & Ht & Ha & Hc & Hd & Hm & Hs & _ & Hav).
  exists r, res. split; [exact Hret|]. split; [exact Hres|].
  split; [exact Ht|]. split; [exact Ha|]. split; [exact Hc|].
  split; [exact Hd|]. split; [exact Hm|]. rewrite Ht.
  split; [exact Hs|].
  assert (Hnum : numCitiesVisited res = length (TSP.tour_so_far w))
    by (rewrite Hc; exact Hcount).
  split.
  - rewrite Hs, segments_of_length, Hnum. simpl. rewrite length_app. simpl. lia.
  - rewrite Hav, Hnum. reflexivity.
Qed.

Lemma tsp_on_matrix_witness :
  0 < length TSP.example_distances /\
  Forall (fun row => length TSP.example_distances <= length row)
    TSP.example_distances /\
  exists r res,
    TSP.nearestNeighbor TSP.example_distances 0 = Ret r /\
    tsp (fun _ _ : unit => NaN) (fun _ => tt) (Some 3%Z) None
      (Some TSP.example_distances) = Ret res /\
    tour res = TSP.tour r /\
    allVisited res = TSP.allVisited r /\
    numCitiesVisited res = TSP.numCitiesVisited r /\
    distance res = js_toFixed2 (TSP.totalDistance r) /\
    distanceMatrix res = TSP.example_distances /\
    tourSegments res = segments_of TSP.example_distances (tour res) /\
    length (tourSegments res) = numCitiesVisited res /\
    averageSegmentDistance res
      = js_toFixed2 (js_over (TSP.totalDistance r) (numCitiesVisited res)).
Proof.
  assert (Hn : 0 < length TSP.example_distances) by (simpl; lia).
  assert (Hrows : Forall (fun row => length TSP.example_distances <= length row)
                    TSP.example_distances)
    by (repeat constructor).
  split; [exact Hn|]. split; [exact Hrows|].
  apply (tsp_on_matrix (fun _ _ : unit => NaN) (fun _ => tt) (Some 3%Z) None
           TSP.example_distances Hn Hrows).
Defined.

(** *** From city positions to a complete tour *)

(** On a matrix whose entries between distinct vertices are all finite the
    walk from vertex 0 takes in every vertex. *)
Lemma visit_all_complete (D : list (list jsnum)) :
  0 < length D ->
  (forall u v, u < length D -> v < length D -> u <> v ->
     is_finite (TSP.dist D u v)) ->
  exists w,
    TSP.visit_all D 0 = Ret w /\ walk_inv D 0 w /\
    length (TSP.tour_so_far w) = length D.
Proof.
  intros Hn Hfin.
  destruct (visit_cities_invariant D (length D)
              (fun k w => walk_inv D 0 w /\ length (TSP.tour_so_far w) = S k)
              (length D - 1))
    with (steps := seq 0 (length D - 1)) (k := 0)
         (w := {| TSP.visited := js_store false (replicate (length D) false) 0 true;
                  TSP.tour_so_far := [0]; TSP.distance_so_far := Num 0;
                  TSP.currentCity := 0 |})
    as (w & Hrun & Hinv & Hlen).
  - intros k w Hk [Hinv Hlen].
    destruct (walk_inv_step D 0 w Hinv)
      as (nc & md & Hfind & Hinv' & [(_ & _ & Hnone)|(c & -> & Htour)]).
    + destruct (fresh_vertex (TSP.tour_so_far w) (length D)) as (c & Hc & Hnotin);
        [lia|].
      specialize (Hnone c Hc Hnotin).
      destruct Hinv as (_ & _ & _ & _ & Hlast & Hcur & _).
      assert (Hne : TSP.currentCity w <> c).
      { intros <-. apply Hnotin. apply last_Some in Hlast as [l' ->].
        apply elem_of_app. right. apply list_elem_of_singleton. reflexivity. }
      specialize (Hfin (TSP.currentCity w) c Hcur Hc Hne).
      destruct (TSP.dist D (TSP.currentCity w) c); simpl in Hfin;
        try contradiction. discriminate.
    + exists (Z.of_nat c), md. split; [exact Hfind|]. split; [exact Hinv'|].
      rewrite Htour, length_app. simpl. lia.
  - rewrite length_seq. lia.
  - split; [apply walk_inv_init; exact Hn|reflexivity].
  - exists w. split; [exact Hrun|]. split; [exact Hinv|].
    rewrite length_seq in Hlen. simpl in Hlen. lia.
Qed.

(** X14.  Called with city positions (given, or generated for the count
    asked for) and no distance matrix, there being at least one city and
    [calculateDistance] finite between the cities, [tsp] builds the matrix
    itself and returns a complete tour: it starts and ends at city 0 and
    lists every city exactly once before it closes, both flags say that all
    cities were visited, and there is one segment per city. *)
Theorem tsp_on_positions {city : Type} (calculateDistance : city -> city -> jsnum)
    (random_city : nat -> city) (cities : option Z)
    (customCityPositions : option (list city)) (cs : list city) :
  match customCityPositions with
  | Some given => given
  | None => generateCityPositions random_city cities
  end = cs ->
  cs <> [] ->
  (forall ci cj, ci ∈ cs -> cj ∈ cs -> is_finite (calculateDistance ci cj)) ->
  exists res mid,
    tsp calculateDistance random_city cities customCityPositions None = Ret res /\
    cityPositions res = cs /\
    tour res = 0 :: mid ++ [0] /\
    Permutation (0 :: mid) (seq 0 (length cs)) /\
    allVisited res = true /\
    numCitiesVisited res = length cs /\
    length (tourSegments res) = length cs.
Proof.
  intros Hcs Hne Hfin.
  set (D := map (final_row calculateDistance cs) (seq 0 (length cs))).
  assert (HlenD : length D = length cs)
    by (unfold D; rewrite length_map, length_seq; reflexivity).
  assert (Hn : 0 < length D) by (rewrite HlenD; destruct cs; simpl; [congruence|lia]).
  assert (Hrows : Forall (fun row => length D <= length row) D).
  { apply Forall_forall. intros row Hrow.
    apply list_elem_of_fmap in Hrow as (i & -> & _).
    unfold final_row. rewrite length_map, length_seq, HlenD. lia. }
  assert (HfinD : forall u v, u < length D -> v < length D -> u <> v ->
            is_finite (TSP.dist D u v)).
  { intros u v Hu Hv Huv. rewrite HlenD in Hu, Hv. unfold D.
    rewrite final_row_dist by assumption. unfold entry.
    destruct (lookup_lt_is_Some_2 cs u Hu) as [cu Hcu].
    destruct (lookup_lt_is_Some_2 cs v Hv) as [cv Hcv].
    rewrite Hcu, Hcv. destruct (Nat.eqb_spec u v); [congruence|]. simpl.
    apply Hfin; eapply list_elem_of_lookup_2; eassumption. }
  destruct (visit_all_complete D Hn HfinD) as (w & Hrun & Hinv & Hfull).
  destruct (visit_all_full D 0 Hn) as (w' & Hrun' & _ & _ & Hcount).
  rewrite Hrun in Hrun'. injection Hrun' as <-.
  pose proof (nearestNeighbor_of_walk D 0 w Hrun Hinv) as Hret.
  pose proof Hinv as (Hlv & [picks Hpicks] & Hnd & Hvis & _).
  assert (Hbody : forall v, v ∈ TSP.tour_so_far w -> v < length D).
  { intros v Hv. apply Hvis, lookup_lt_Some in Hv. lia. }
  destruct (tsp_run calculateDistance random_city cities customCityPositions
              None D _ (TSP.tour_so_far w)
              ltac:(rewrite Hcs; apply buildDistanceMatrix_run)
              Hrows Hret eq_refl Hbody Hn)
    as (res & Hres & Ht & Ha & Hc & _ & _ & Hs & Hp & _).
  simpl in Ht, Ha, Hc, Hs.
  exists res, picks. split; [exact Hres|].
  split; [rewrite Hp; exact Hcs|].
  split; [rewrite Ht, Hpicks; reflexivity|]. split.
  - rewrite <- Hpicks, <- HlenD. apply submseteq_length_Permutation.
    + apply NoDup_submseteq; [exact Hnd|].
      intros x Hx. apply elem_of_seq. specialize (Hbody x Hx). lia.
    + rewrite length_seq. lia.
  - unfold marked in Hcount.
    split; [|split].
    + rewrite Ha. apply marked_all. unfold marked. lia.
    + rewrite Hc. lia.
    + rewrite Hs, segments_of_length, length_app. simpl. lia.
Qed.

Lemma tsp_on_positions_witness :
  match Some [1%Z; 4%Z] with
  | Some given => given
  | None => generateCityPositions (fun i => Z.of_nat i) (Some 2%Z)
  end = [1%Z; 4%Z] /\
  [1%Z; 4%Z] <> [] /\
  (forall ci cj, ci ∈ [1%Z; 4%Z] -> cj ∈ [1%Z; 4%Z] ->
     is_finite (Num (inject_Z (Z.abs (ci - cj))))) /\
  exists res mid,
    tsp (fun ci cj => Num (inject_Z (Z.abs (ci - cj)))) (fun i => Z.of_nat i)
      (Some 2%Z) (Some [1%Z; 4%Z]) None = Ret res /\
    cityPositions res = [1%Z; 4%Z] /\
    tour res = 0 :: mid ++ [0] /\
    Permutation (0 :: mid) (seq 0 (length [1%Z; 4%Z])) /\
    allVisited res = true /\
    numCitiesVisited res = length [1%Z; 4%Z] /\
    length (tourSegments res) = length [1%Z; 4%Z].
Proof.
  assert (Hne : [1%Z; 4%Z] <> []) by discriminate.
  assert (Hfin : forall ci cj, ci ∈ [1%Z; 4%Z] -> cj ∈ [1%Z; 4%Z] ->
            is_finite (Num (inject_Z (Z.abs (ci - cj)))))
    by (intros; exact I).
  split; [reflexivity|]. split; [exact Hne|]. split; [exact Hfin|].
  apply (tsp_on_positions (fun ci cj => Num (inject_Z (Z.abs (ci - cj))))
           (fun i => Z.of_nat i) (Some 2%Z) (Some [1%Z; 4%Z]) [1%Z; 4%Z]
           eq_refl Hne Hfin).
Defined.

(** X15.  Without a city [tsp] throws a [TypeError], from the read of
    [distances[0][0]] in [nearestNeighbor]: when the city count parses to
    [NaN] or to a number that is not positive and neither positions nor a
    matrix are given, when the given positions are an empty array and no
    matrix is given, and when the given matrix is an empty array. *)
Theorem tsp_without_cities {city : Type} (calculateDistance : city -> city -> jsnum)
    (random_city : nat -> city) :
  tsp calculateDistance random_city None None None = Throw TypeError /\
  (forall z, (z <= 0)%Z ->
     tsp calculateDistance random_city (Some z) None None = Throw TypeError) /\
  (forall cities,
     tsp calculateDistance random_city cities (Some []) None = Throw TypeError) /\
  (forall cities customCityPositions,
     tsp calculateDistance random_city cities customCityPositions (Some [])
     = Throw TypeError).
Proof.
  split; [reflexivity|]. split; [|split; reflexivity].
  intros z Hz. unfold tsp, generateCityPositions.
  replace (Z.to_nat z) with 0 by lia. reflexivity.
Qed.

End TSPDriverTheory.

(** ** [multiStageGraphWithEdges] *)

Module MultiStageGraphDriverTheory.
Import JsFacts MultiStageGraph MultiStageGraphTheory MultiStageGraphDriver.

(** *** The parts of an entry *)

(** A string none of whose characters is a separator. *)
Fixpoint avoids (sep : Ascii.ascii -> bool) (s : string) : Prop :=
  match s with
  | EmptyString => True
  | String c s' => sep c = false /\ avoids sep s'
  end.

Lemma split_on_avoids (sep : Ascii.ascii -> bool) (s : string) :
  Forall (avoids sep) (split_on sep s).
Proof.
  induction s as [|c s IH]; simpl.
  - repeat constructor.
  - destruct (sep c) eqn:Ec.
    + constructor; [exact I|exact IH].
    + destruct (split_on sep s) as [|p ps].
      * repeat constructor. exact Ec.
      * apply Forall_cons in IH as [Hp Hps].
        constructor; [split; assumption|exact Hps].
Qed.

Lemma avoids_no_dash (s : string) : avoids is_dash_or_colon s -> no_dash s.
Proof.
  induction s as [|c s IH]; simpl; [trivial|].
  intros [Hc Hs]. split; [|apply IH, Hs].
  unfold is_dash_or_colon in Hc. apply orb_false_iff in Hc as [Hc _]. exact Hc.
Qed.

Section Parsed.
Variable parseInt : string -> option Z.
Variable parseFloat : string -> jsnum.
Variable trim : string -> string.

(** What the source relies on: read from a string without [-], an integer
    is not negative and a number is not [-Infinity]. *)
Hypothesis parseInt_sign :
  forall s z, no_dash s -> parseInt s = Some z -> (0 <= z)%Z.
Hypothesis parseFloat_sign :
  forall s, no_dash s -> parseFloat s <> NInf.

(** The value of a cell once an entry has been read. *)
Definition overwrite (u v : nat) (acc : jsnum) (edge : string) : jsnum :=
  match declared_edge parseInt parseFloat trim edge with
  | Some (from, to, cost) =>
      if ((from =? Z.of_nat u) && (to =? Z.of_nat v))%Z then cost else acc
  | None => acc
  end.

(** Every cell holds a finite cost or [Infinity]. *)
Definition costs_only (n : nat) (M : matrix) : Prop :=
  forall u v, u < n -> v < n -> is_cost (edge M u v).

Lemma edge_insert (M : matrix) (row : list jsnum) (i j : nat) (c : jsnum)
    (u v : nat) :
  M !! i = Some row -> j < length row ->
  edge (<[i := <[j := c]> row]> M) u v
  = if decide (u = i /\ v = j) then c else edge M u v.
Proof.
  intros Hrow Hj. unfold edge.
  destruct (decide (u = i)) as [->|Hne].
  - rewrite list_lookup_insert_eq by (eapply lookup_lt_Some, Hrow).
    rewrite Hrow. destruct (decide (v = j)) as [->|Hv].
    + rewrite js_get_insert_eq by exact Hj.
      destruct (decide (i = i /\ j = j)) as [_|[]]; auto.
    + rewrite js_get_insert_ne by congruence.
      destruct (decide (i = i /\ v = j)) as [[_ ?]|_]; [congruence|reflexivity].
  - rewrite list_lookup_insert_ne by congruence.
    destruct (decide (u = i /\ v = j)) as [[? _]|_]; [congruence|reflexivity].
Qed.

Lemma set_edge_run (n : nat) (M : matrix) (e : string) :
  square n M -> costs_only n M ->
  exists M',
    set_edge parseInt parseFloat trim n M e = Ret M' /\
    square n M' /\ costs_only n M' /\
    forall u v, u < n -> v < n -> edge M' u v = overwrite u v (edge M u v) e.
Proof using parseInt_sign parseFloat_sign.
  intros Hsq Hcosts.
  assert (Hsame : exists M',
            Ret M = Ret M' /\ square n M' /\ costs_only n M' /\
            forall u v, u < n -> v < n -> edge M' u v = edge M u v)
    by (exists M; auto).
  unfold set_edge, overwrite, declared_edge.
  pose proof (split_on_avoids is_dash_or_colon (trim e)) as Hparts.
  destruct (split_on is_dash_or_colon (trim e)) as [|p0 [|p1 [|p2 [|p3 ps]]]];
    try exact Hsame.
  apply Forall_cons in Hparts as [H0 Hparts].
  apply Forall_cons in Hparts as [H1 Hparts].
  apply Forall_cons in Hparts as [H2 _].
  apply avoids_no_dash in H0, H1, H2.
  destruct (parseInt p0) as [f|] eqn:Ef; [|exact Hsame].
  destruct (parseInt p1) as [t|] eqn:Et; [|exact Hsame].
  pose proof (parseInt_sign p0 f H0 Ef) as Hf.
  pose proof (parseInt_sign p1 t H1 Et) as Ht.
  pose proof (parseFloat_sign p2 H2) as Hc.
  destruct (js_isNaN (parseFloat p2)) eqn:En; [exact Hsame|]. cbn [negb andb].
  destruct (Z.ltb_spec f (Z.of_nat n)) as [Hfn|Hfn];
    [destruct (Z.ltb_spec t (Z.of_nat n)) as [Htn|Htn]|]; cbn [andb].
  - rewrite (proj2 (Z.ltb_ge f 0)), (proj2 (Z.ltb_ge t 0)) by lia.
    destruct Hsq as [Hlen Hrows].
    destruct (lookup_lt_is_Some_2 M (Z.to_nat f) ltac:(lia)) as [row Hrow].
    assert (Hrl : length row = n).
    { rewrite Forall_forall in Hrows. apply Hrows.
      eapply list_elem_of_lookup_2, Hrow. }
    rewrite Hrow. unfold js_store.
    rewrite (proj2 (Nat.ltb_lt (Z.to_nat t) (length row))) by lia.
    assert (Hedge : forall u v, u < n -> v < n ->
              edge (<[Z.to_nat f := <[Z.to_nat t := parseFloat p2]> row]> M) u v
              = if ((f =? Z.of_nat u) && (t =? Z.of_nat v))%Z
                then parseFloat p2 else edge M u v).
    { intros u v Hu Hv. rewrite (edge_insert M row) by (assumption || lia).
      destruct (decide (u = Z.to_nat f /\ v = Z.to_nat t)) as [[-> ->]|Hne].
      - rewrite !Z2Nat.id, !Z.eqb_refl by lia. reflexivity.
      - destruct (Z.eqb_spec f (Z.of_nat u)), (Z.eqb_spec t (Z.of_nat v));
          try reflexivity.
        exfalso. apply Hne. split; lia. }
    eexists. split; [reflexivity|]. split; [|split; [|exact Hedge]].
    + split; [rewrite length_insert; exact Hlen|].
      apply Forall_insert; [exact Hrows|]. rewrite length_insert. exact Hrl.
    + intros u v Hu Hv. rewrite Hedge by assumption.
      destruct ((f =? Z.of_nat u) && (t =? Z.of_nat v))%Z; [|apply Hcosts; assumption].
      destruct (parseFloat p2); simpl in *; try exact I; congruence.
  - destruct Hsame as (M' & HM & Hsq' & Hc' & He). exists M'.
    split; [exact HM|]. split; [exact Hsq'|]. split; [exact Hc'|].
    intros u v Hu Hv. rewrite He by assumption.
    destruct (Z.eqb_spec t (Z.of_nat v)); [lia|]. rewrite andb_false_r. reflexivity.
  - destruct Hsame as (M' & HM & Hsq' & Hc' & He). exists M'.
    split; [exact HM|]. split; [exact Hsq'|]. split; [exact Hc'|].
    intros u v Hu Hv. rewrite He by assumption.
    destruct (Z.eqb_spec f (Z.of_nat u)); [lia|]. reflexivity.
Qed.

Lemma set_edges_run (n : nat) (edges : list string) :
  forall M,
    square n M -> costs_only n M ->
    exists M',
      set_edges parseInt parseFloat trim n edges M = Ret M' /\
      square n M' /\ costs_only n M' /\
      forall u v, u < n -> v < n ->
        edge M' u v = fold_left (overwrite u v) edges (edge M u v).
Proof using parseInt_sign parseFloat_sign.
  induction edges as [|e edges IH]; intros M Hsq Hcosts.
  - exists M. simpl. auto.
  - destruct (set_edge_run n M e Hsq Hcosts) as (M1 & Hrun1 & Hsq1 & Hc1 & He1).
    destruct (IH M1 Hsq1 Hc1) as (M' & Hrun & Hsq' & Hc' & He).
    exists M'. cbn [set_edges]. rewrite Hrun1. cbn [mbind outcome_bind bind].
    split; [exact Hrun|]. split; [exact Hsq'|]. split; [exact Hc'|].
    intros u v Hu Hv. rewrite He, He1 by assumption. reflexivity.
Qed.

End Parsed.

(** *** The stages *)

(** [m] consecutive integers from [a] on. *)
Definition zseq (a : Z) (m : nat) : list Z :=
  map (fun i => (a + Z.of_nat i)%Z) (seq 0 m).

(** [m] consecutive blocks of [k] consecutive integers, from [a] on. *)
Fixpoint blocks_from (a : Z) (k m : nat) : list (list Z) :=
  match m with
  | O => []
  | S m' => zseq a k :: blocks_from (a + Z.of_nat k)%Z k m'
  end.

Lemma zseq_S (a : Z) (m : nat) : zseq a (S m) = a :: zseq (a + 1) m.
Proof.
  unfold zseq. cbn [seq map]. f_equal; [lia|].
  rewrite <- seq_shift, map_map. apply map_ext. intros i. lia.
Qed.

Lemma zseq_app (a : Z) (m1 m2 : nat) :
  zseq a (m1 + m2) = zseq a m1 ++ zseq (a + Z.of_nat m1) m2.
Proof.
  revert a. induction m1 as [|m1 IH]; intros a.
  - simpl. f_equal. lia.
  - cbn [Nat.add]. rewrite !zseq_S, IH. simpl. do 3 f_equal. lia.
Qed.

Lemma concat_blocks_from (a : Z) (k m : nat) :
  concat (blocks_from a k m) = zseq a (m * k).
Proof.
  revert a. induction m as [|m IH]; intros a; [reflexivity|].
  cbn [blocks_from concat Nat.mul]. rewrite IH, zseq_app. reflexivity.
Qed.

Lemma length_blocks_from (a : Z) (k m : nat) : length (blocks_from a k m) = m.
Proof. revert a. induction m as [|m IH]; intros a; simpl; [|rewrite IH]; reflexivity. Qed.

Lemma alter_at {A : Type} (f : A -> A) (l : list A) (i : nat) (x : A) :
  l !! i = Some x -> alter f i l = <[i := f x]> l.
Proof.
  intros Hx. apply list_eq. intros j. rewrite list_lookup_alter.
  destruct (decide (i = j)) as [<-|Hne].
  - rewrite Hx, list_lookup_insert_eq by (eapply lookup_lt_Some, Hx). reflexivity.
  - rewrite list_lookup_insert_ne by exact Hne. reflexivity.
Qed.

Lemma push_vertices_run (stage : nat) (ixs : list nat) :
  forall sv vi row,
    sv !! stage = Some (Some row) ->
    push_vertices stage ixs sv vi
    = (<[stage := Some (row ++ zseq vi (length ixs))]> sv,
       (vi + Z.of_nat (length ixs))%Z).
Proof.
  induction ixs as [|i ixs IH]; intros sv vi row Hrow.
  - simpl. rewrite app_nil_r, list_insert_id by exact Hrow. f_equal. lia.
  - cbn [push_vertices length]. rewrite (alter_at _ sv stage (Some row) Hrow).
    rewrite (IH _ _ (row ++ [vi])).
    + rewrite list_insert_insert_eq, zseq_S, <- app_assoc. simpl. f_equal. lia.
    + apply list_lookup_insert_eq. eapply lookup_lt_Some, Hrow.
Qed.

Lemma build_stages_run (nodes : Z) (m : nat) :
  forall a sv vi,
    length sv = a ->
    build_stages nodes (seq a m) sv vi
    = (sv ++ map Some (blocks_from vi (Z.to_nat nodes) m),
       (vi + Z.of_nat (m * Z.to_nat nodes))%Z).
Proof.
  induction m as [|m IH]; intros a sv vi Ha.
  - simpl. rewrite app_nil_r. f_equal. lia.
  - cbn [seq build_stages]. unfold js_store.
    rewrite (proj2 (Nat.ltb_ge a (length sv))) by lia.
    replace (a - length sv) with 0 by lia. cbn [replicate app].
    rewrite (push_vertices_run a _ _ vi []), length_seq
      by (subst a; apply list_lookup_middle; reflexivity).
    cbn [app]. rewrite insert_app_r_alt by lia.
    replace (a - length sv) with 0 by lia. cbn [insert list_insert].
    rewrite (IH (S a)) by (rewrite length_app; simpl; lia).
    rewrite <- app_assoc. cbn [blocks_from map app]. f_equal. lia.
Qed.

(** The value of [stageVertices] at the end of a call. *)
Definition stage_table (stages nodes : Z) (n : nat) : list (option (list Z)) :=
  let '(stageVertices, _) :=
    build_stages nodes (seq 1 (Z.to_nat (stages - 2))) [Some [0%Z]] 1%Z in
  if (stages - 1 <? 0)%Z then stageVertices
  else js_store None stageVertices (Z.to_nat (stages - 1))
         (Some [(Z.of_nat n - 1)%Z]).

Lemma stage_table_blocks (stages nodes : Z) (n : nat) :
  (2 <= stages)%Z ->
  stage_table stages nodes n
  = map Some ([0%Z] :: blocks_from 1 (Z.to_nat nodes) (Z.to_nat (stages - 2))
              ++ [[(Z.of_nat n - 1)%Z]]).
Proof.
  intros Hs. unfold stage_table.
  rewrite (build_stages_run nodes _ 1 [Some [0%Z]] 1%Z eq_refl).
  rewrite (proj2 (Z.ltb_ge (stages - 1) 0)) by lia.
  unfold js_store. rewrite length_app, length_map, length_blocks_from.
  cbn [length].
  rewrite (proj2 (Nat.ltb_ge _ _)) by lia.
  replace (Z.to_nat (stages - 1) - (1 + Z.to_nat (stages - 2))) with 0 by lia.
  cbn [replicate app map]. rewrite map_app. reflexivity.
Qed.

(** *** The run of a call *)

Section Run.
Variable parseInt : string -> option Z.
Variable parseFloat : string -> jsnum.
Variable trim : string -> string.
Hypothesis parseInt_sign :
  forall s z, no_dash s -> parseInt s = Some z -> (0 <= z)%Z.
Hypothesis parseFloat_sign :
  forall s, no_dash s -> parseFloat s <> NInf.

(** The number of vertices that a call computes. *)
Definition vertex_count (numStages nodesPerStage : string) : option Z :=
  match parseInt numStages, parseInt nodesPerStage with
  | Some stages, Some nodes => Some (1 + (stages - 2) * nodes + 1)%Z
  | _, _ => None
  end.

(** The entries of the edge string that a call reads. *)
Definition listed_edges (edgeCostsString : string) : list string :=
  if truthy edgeCostsString && truthy (trim edgeCostsString)
  then split_on is_comma edgeCostsString
  else [].

Lemma initial_matrix (n : nat) :
  square n (replicate n (replicate n INF)) /\
  costs_only n (replicate n (replicate n INF)) /\
  forall u v, u < n -> v < n -> edge (replicate n (replicate n INF)) u v = INF.
Proof.
  assert (He : forall u v, u < n -> v < n ->
            edge (replicate n (replicate n INF)) u v = INF).
  { intros u v Hu Hv. unfold edge, js_get.
    rewrite lookup_replicate_2 by exact Hu.
    rewrite lookup_replicate_2 by exact Hv. reflexivity. }
  split; [|split; [|exact He]].
  - split; [apply length_replicate|].
    apply Forall_forall. intros row Hrow.
    apply elem_of_replicate in Hrow as [-> _]. apply length_replicate.
  - intros u v Hu Hv. rewrite He by assumption. exact I.
Qed.

Lemma multiStageGraphWithEdges_run (numStages nodesPerStage edgeCostsString : string)
    (stages nodes : Z) (n : nat) :
  parseInt numStages = Some stages -> parseInt nodesPerStage = Some nodes ->
  (1 + (stages - 2) * nodes + 1 = Z.of_nat n)%Z ->
  (Z.of_nat n < 4294967296)%Z ->
  exists M,
    square n M /\ costs_only n M /\
    (forall u v, u < n -> v < n ->
       edge M u v
       = declared_cost parseInt parseFloat trim (listed_edges edgeCostsString) u v) /\
    forall fuel,
      multiStageGraphWithEdges parseInt parseFloat trim fuel
        numStages nodesPerStage edgeCostsString
      = Proceeds
          (r ← backwardCost fuel M n;
           Ret {| type := "multistage";
                  minimumCost := MultiStageGraph.minimumCost r;
                  cost := MultiStageGraph.minimumCost r;
                  path := MultiStageGraph.path r;
                  displayPath := map (fun v => (v + 1)%Z) (MultiStageGraph.path r);
                  stages := stages;
                  nodesPerStage := nodes;
                  totalVertices := n;
                  costMatrix := M;
                  stageVertices := stage_table stages nodes n;
                  bcostArray := MultiStageGraph.bcostArray r;
                  decisionArray := MultiStageGraph.decisionArray r |}).
Proof using parseInt_sign parseFloat_sign.
  intros Hs Hk Hn Hmax.
  destruct (initial_matrix n) as (Hsq0 & Hc0 & He0).
  destruct (set_edges_run parseInt parseFloat trim parseInt_sign parseFloat_sign
              n (listed_edges edgeCostsString) _ Hsq0 Hc0)
    as (M & Hrun & Hsq & Hc & He).
  exists M. split; [exact Hsq|]. split; [exact Hc|]. split.
  - intros u v Hu Hv. rewrite He, He0 by assumption. reflexivity.
  - intros fuel. unfold multiStageGraphWithEdges. rewrite Hs, Hk, Hn.
    rewrite (proj2 (Z.ltb_ge (Z.of_nat n) 0)) by lia.
    rewrite (proj2 (Z.leb_gt 4294967296 (Z.of_nat n))) by lia.
    cbn [orb]. rewrite Nat2Z.id. f_equal.
    assert (Hedges :
              (if truthy edgeCostsString && truthy (trim edgeCostsString)
               then set_edges parseInt parseFloat trim n
                      (split_on is_comma edgeCostsString)
                      (replicate n (replicate n INF))
               else Ret (replicate n (replicate n INF))) = Ret M).
    { rewrite <- Hrun. unfold listed_edges.
      destruct (truthy edgeCostsString && truthy (trim edgeCostsString));
        reflexivity. }
    rewrite Hedges. cbn [mbind outcome_bind bind]. unfold stage_table.
    destruct (build_stages nodes (seq 1 (Z.to_nat (stages - 2))) [Some [0%Z]] 1%Z)
      as [sv vi].
    reflexivity.
Qed.

End Run.

(** *** Stand-in parsers *)

Lemma digits_value_sign (s : string) :
  forall acc z, (0 <= acc)%Z -> digits_value s acc = Some z -> (0 <= z)%Z.
Proof.
  induction s as [|c s IH]; intros acc z Hacc Hz; simpl in Hz.
  - injection Hz as <-. exact Hacc.
  - unfold digit_value in Hz.
    destruct ((48 <=? Ascii.nat_of_ascii c) && (Ascii.nat_of_ascii c <=? 57));
      [|discriminate].
    eapply IH; [|exact Hz]. lia.
Defined.

Lemma parse_digits_sign (s : string) (z : Z) :
  no_dash s -> parse_digits s = Some z -> (0 <= z)%Z.
Proof.
  intros _ Hz. destruct s as [|c s]; [discriminate|].
  unfold parse_digits in Hz. eapply digits_value_sign; [|exact Hz]. lia.
Defined.

Lemma parse_digits_number_sign (s : string) :
  no_dash s -> parse_digits_number s <> NInf.
Proof. intros _. unfold parse_digits_number. destruct (parse_digits s); discriminate. Defined.

(** *** The cost matrix of a call *)

(** X16.  The matrix that a call builds from the edge string.  When the
    vertex count [n = 1 + (stages - 2) * nodes + 1] is at least 1 (and an
    array length), the call returns for every fuel [>= n]; the returned
    [costMatrix] is [n] by [n], every cell is a finite cost or [Infinity],
    and the cell [(u, v)] holds the cost of the last entry of the string
    that declares the edge from [u] to [v], and [Infinity] when no entry
    does.  Entries that do not have three parts, whose parts do not parse,
    or that name a vertex [>= n] change nothing. *)
Theorem multiStageGraphWithEdges_matrix (parseInt : string -> option Z)
    (parseFloat : string -> jsnum) (trim : string -> string)
    (numStages nodesPerStage edgeCostsString : string) (stages nodes : Z) (n : nat) :
  (forall s z, no_dash s -> parseInt s = Some z -> (0 <= z)%Z) ->
  (forall s, no_dash s -> parseFloat s <> NInf) ->
  parseInt numStages = Some stages -> parseInt nodesPerStage = Some nodes ->
  (1 + (stages - 2) * nodes + 1 = Z.of_nat n)%Z ->
  1 <= n -> (Z.of_nat n < 4294967296)%Z ->
  exists res,
    (forall fuel, n <= fuel ->
       multiStageGraphWithEdges parseInt parseFloat trim fuel
         numStages nodesPerStage edgeCostsString = Proceeds (Ret res)) /\
    totalVertices res = n /\
    MultiStageGraphDriver.stages res = stages /\
    MultiStageGraphDriver.nodesPerStage res = nodes /\
    square n (costMatrix res) /\
    forall u v, u < n -> v < n ->
      is_cost (edge (costMatrix res) u v) /\
      edge (costMatrix res) u v
      = declared_cost parseInt parseFloat trim
          (listed_edges trim edgeCostsString) u v.
Proof.
  intros Hint Hfloat Hs Hk Hn Hpos Hmax.
  destruct (multiStageGraphWithEdges_run parseInt parseFloat trim Hint Hfloat
              numStages nodesPerStage edgeCostsString stages nodes n Hs Hk Hn Hmax)
    as (M & Hsq & Hc & He & Hrun).
  destruct (backwardCost_settled n M) as (bcost & d & ch & _ & _ & Hret);
    [split; [exact Hsq|]; intros u v Huv; apply Hc; lia|exact Hpos|].
  eexists. split.
  - intros fuel Hfuel. rewrite Hrun, (Hret fuel Hfuel). reflexivity.
  - cbn. repeat split; try reflexivity; try exact (proj1 Hsq); try exact (proj2 Hsq).
    + apply Hc; assumption.
    + apply He; assumption.
Qed.

Lemma multiStageGraphWithEdges_matrix_witness :
  (forall s z, no_dash s -> parse_digits s = Some z -> (0 <= z)%Z) /\
  (forall s, no_dash s -> parse_digits_number s <> NInf) /\
  parse_digits "3" = Some 3%Z /\ parse_digits "2" = Some 2%Z /\
  (1 + (3 - 2) * 2 + 1 = Z.of_nat 4)%Z /\ 1 <= 4 /\
  (Z.of_nat 4 < 4294967296)%Z /\
  exists res,
    (forall fuel, 4 <= fuel ->
       multiStageGraphWithEdges parse_digits parse_digits_number (fun s => s) fuel
         "3" "2" "0-1:2,0-2:3,1-3:4,2-3:5" = Proceeds (Ret res)) /\
    totalVertices res = 4 /\
    MultiStageGraphDriver.stages res = 3%Z /\
    MultiStageGraphDriver.nodesPerStage res = 2%Z /\
    square 4 (costMatrix res) /\
    forall u v, u < 4 -> v < 4 ->
      is_cost (edge (costMatrix res) u v) /\
      edge (costMatrix res) u v
      = declared_cost parse_digits parse_digits_number (fun s => s)
          (listed_edges (fun s => s) "0-1:2,0-2:3,1-3:4,2-3:5") u v.
Proof.
  split; [exact parse_digits_sign|]. split; [exact parse_digits_number_sign|].
  split; [reflexivity|]. split; [reflexivity|]. split; [reflexivity|].
  split; [lia|]. split; [reflexivity|].
  apply (multiStageGraphWithEdges_matrix parse_digits parse_digits_number
           (fun s => s) "3" "2" "0-1:2,0-2:3,1-3:4,2-3:5" 3 2 4
           parse_digits_sign parse_digits_number_sign eq_refl eq_refl eq_refl);
    [lia|reflexivity].
Defined.

(** *** The minimum cost of a call *)



Example multiStageGraphWithEdges_example :
  exists res,
    multiStageGraphWithEdges parse_digits parse_digits_number (fun s => s) 4
      "3" "2" "0-1:2,0-2:3,1-3:4,2-3:5" = Proceeds (Ret res) /\
    js_eq (minimumCost res) (Num 6) /\
    displayPath res = [1; 2; 4]%Z /\
    costMatrix res = example_graph /\
    stageVertices res = [Some [0]; Some [1; 2]; Some [3]]%Z.
Proof. eexists. split; [reflexivity|]. repeat split. Qed.

(** *** The stages of a call *)

Lemma length_zseq (a : Z) (m : nat) : length (zseq a m) = m.
Proof. unfold zseq. rewrite length_map, length_seq. reflexivity. Qed.

Lemma blocks_from_lengths (a : Z) (k m : nat) :
  Forall (fun b => length b = k) (blocks_from a k m).
Proof.
  revert a. induction m as [|m IH]; intros a; simpl; constructor;
    [apply length_zseq|apply IH].
Qed.

(** X18.  With at least two stages and a node count that is not negative,
    the returned [stageVertices] has one entry per stage and no gap: the
    first stage holds the source 0 alone, the last the sink [n - 1] alone,
    and each stage between them holds [nodes] vertices.  Read stage after
    stage they are the vertices [0 .. n - 1] in order, so every vertex
    belongs to exactly one stage and every stage lies before the next. *)
Theorem multiStageGraphWithEdges_stages (parseInt : string -> option Z)
    (parseFloat : string -> jsnum) (trim : string -> string)
    (numStages nodesPerStage edgeCostsString : string) (stages nodes : Z) (n : nat) :
  (forall s z, no_dash s -> parseInt s = Some z -> (0 <= z)%Z) ->
  (forall s, no_dash s -> parseFloat s <> NInf) ->
  parseInt numStages = Some stages -> parseInt nodesPerStage = Some nodes ->
  (1 + (stages - 2) * nodes + 1 = Z.of_nat n)%Z ->
  (2 <= stages)%Z -> (0 <= nodes)%Z -> (Z.of_nat n < 4294967296)%Z ->
  exists res first middle last,
    (forall fuel, n <= fuel ->
       multiStageGraphWithEdges parseInt parseFloat trim fuel
         numStages nodesPerStage edgeCostsString = Proceeds (Ret res)) /\
    stageVertices res = map Some (first :: middle ++ [last]) /\
    length (stageVertices res) = Z.to_nat stages /\
    first = [0%Z] /\ last = [(Z.of_nat n - 1)%Z] /\
    Forall (fun b => length b = Z.to_nat nodes) middle /\
    concat (first :: middle ++ [last]) = map Z.of_nat (seq 0 n).
Proof.
  intros Hint Hfloat Hs Hk Hn Hstages Hnodes Hmax.
  destruct (multiStageGraphWithEdges_run parseInt parseFloat trim Hint Hfloat
              numStages nodesPerStage edgeCostsString stages nodes n Hs Hk Hn Hmax)
    as (M & Hsq & Hc & _ & Hrun).
  destruct (backwardCost_settled n M) as (bcost & d & ch & _ & _ & Hret);
    [split; [exact Hsq|]; intros u v Huv; apply Hc; lia|nia|].
  set (k := Z.to_nat nodes). set (m := Z.to_nat (stages - 2)).
  assert (Hcount : n = 1 + m * k + 1) by (unfold m, k; nia).
  eexists. exists [0%Z], (blocks_from 1 k m), [(Z.of_nat n - 1)%Z]. split.
  - intros fuel Hfuel. rewrite Hrun, (Hret fuel Hfuel). reflexivity.
  - cbn [stageVertices]. rewrite stage_table_blocks by exact Hstages.
    fold k m. split; [reflexivity|]. split.
    + rewrite length_map. cbn [length]. rewrite length_app, length_blocks_from.
      simpl. unfold m. lia.
    + split; [reflexivity|]. split; [reflexivity|].
      split; [apply blocks_from_lengths|].
      cbn [concat]. rewrite concat_app, concat_blocks_from. cbn [concat].
      rewrite app_nil_r.
      transitivity (zseq 0 n).
      * rewrite Hcount. rewrite !zseq_app. simpl length. cbn [zseq seq map app].
        do 3 f_equal. lia.
      * unfold zseq. apply map_ext. intros i. lia.
Qed.

Lemma multiStageGraphWithEdges_stages_witness :
  (forall s z, no_dash s -> parse_digits s = Some z -> (0 <= z)%Z) /\
  (forall s, no_dash s -> parse_digits_number s <> NInf) /\
  parse_digits "4" = Some 4%Z /\ parse_digits "3" = Some 3%Z /\
  (1 + (4 - 2) * 3 + 1 = Z.of_nat 8)%Z /\ (2 <= 4)%Z /\ (0 <= 3)%Z /\
  (Z.of_nat 8 < 4294967296)%Z /\
  exists res first middle last,
    (forall fuel, 8 <= fuel ->
       multiStageGraphWithEdges parse_digits parse_digits_number (fun s => s) fuel
         "4" "3" "0-1:2" = Proceeds (Ret res)) /\
    stageVertices res = map Some (first :: middle ++ [last]) /\
    length (stageVertices res) = Z.to_nat 4 /\
    first = [0%Z] /\ last = [(Z.of_nat 8 - 1)%Z] /\
    Forall (fun b => length b = Z.to_nat 3) middle /\
    concat (first :: middle ++ [last]) = map Z.of_nat (seq 0 8).
Proof.
  split; [exact parse_digits_sign|]. split; [exact parse_digits_number_sign|].
  split; [reflexivity|]. split; [reflexivity|]. split; [reflexivity|].
  split; [lia|]. split; [lia|]. split; [reflexivity|].
  apply (multiStageGraphWithEdges_stages parse_digits parse_digits_number
           (fun s => s) "4" "3" "0-1:2" 4 3 8
           parse_digits_sign parse_digits_number_sign eq_refl eq_refl eq_refl);
    [lia|lia|reflexivity].
Defined.

(** *** How a call ends *)

Lemma backwardCost_no_vertex (G : matrix) (fuel : nat) :
  backwardCost fuel G 0 = OutOfFuel.
Proof. destruct fuel; reflexivity. Qed.

(** X19.  How a call ends, by the vertex count
    [1 + (stages - 2) * nodes + 1] that it computes.  When a count fails to
    parse, or the vertex count is negative or no array length, [Array(n)]
    throws a [RangeError].  When the vertex count is 0 (one stage and two
    nodes, say) the call never returns: the loop that rebuilds the path in
    [backwardCost] runs without end, whatever the fuel.  In every other case
    the call returns a result. *)
Theorem multiStageGraphWithEdges_outcome (parseInt : string -> option Z)
    (parseFloat : string -> jsnum) (trim : string -> string)
    (numStages nodesPerStage edgeCostsString : string) :
  (forall s z, no_dash s -> parseInt s = Some z -> (0 <= z)%Z) ->
  (forall s, no_dash s -> parseFloat s <> NInf) ->
  (vertex_count parseInt numStages nodesPerStage = None ->
   forall fuel,
     multiStageGraphWithEdges parseInt parseFloat trim fuel
       numStages nodesPerStage edgeCostsString = RangeError) /\
  (forall n, vertex_count parseInt numStages nodesPerStage = Some n ->
     (n < 0 \/ 4294967296 <= n)%Z ->
     forall fuel,
       multiStageGraphWithEdges parseInt parseFloat trim fuel
         numStages nodesPerStage edgeCostsString = RangeError) /\
  (vertex_count parseInt numStages nodesPerStage = Some 0%Z ->
   forall fuel,
     multiStageGraphWithEdges parseInt parseFloat trim fuel
       numStages nodesPerStage edgeCostsString = Proceeds OutOfFuel) /\
  (forall n, vertex_count parseInt numStages nodesPerStage = Some n ->
     (1 <= n < 4294967296)%Z ->
     exists res, forall fuel, (n <= Z.of_nat fuel)%Z ->
       multiStageGraphWithEdges parseInt parseFloat trim fuel
         numStages nodesPerStage edgeCostsString = Proceeds (Ret res)).
Proof.
  intros Hint Hfloat. unfold vertex_count.
  destruct (parseInt numStages) as [stages|] eqn:Hs;
    [destruct (parseInt nodesPerStage) as [nodes|] eqn:Hk|].
  - split; [discriminate|]. split; [|split].
    + intros n Hn Hout fuel. injection Hn as <-.
      unfold multiStageGraphWithEdges. rewrite Hs, Hk.
      destruct Hout as [Hneg|Hbig].
      * rewrite (proj2 (Z.ltb_lt _ 0) Hneg). reflexivity.
      * rewrite (proj2 (Z.leb_le 4294967296 _) Hbig), orb_true_r. reflexivity.
    + intros Hn fuel. injection Hn as Hn.
      destruct (multiStageGraphWithEdges_run parseInt parseFloat trim Hint Hfloat
                  numStages nodesPerStage edgeCostsString stages nodes 0 Hs Hk)
        as (M & _ & _ & _ & Hrun); [rewrite Hn; reflexivity|reflexivity|].
      rewrite Hrun, backwardCost_no_vertex. reflexivity.
    + intros n Hn Hrange. injection Hn as Hn.
      destruct (multiStageGraphWithEdges_run parseInt parseFloat trim Hint Hfloat
                  numStages nodesPerStage edgeCostsString stages nodes (Z.to_nat n)
                  Hs Hk)
        as (M & Hsq & Hc & _ & Hrun); [lia|lia|].
      destruct (backwardCost_settled (Z.to_nat n) M)
        as (bcost & d & ch & _ & _ & Hret);
        [split; [exact Hsq|]; intros u v Huv; apply Hc; lia|lia|].
      eexists. intros fuel Hfuel. rewrite Hrun, (Hret fuel) by lia. reflexivity.
  - split; [|split; [|split]]; try discriminate.
    intros _ fuel. unfold multiStageGraphWithEdges. rewrite Hs, Hk. reflexivity.
  - split; [|split; [|split]]; try discriminate.
    intros _ fuel. unfold multiStageGraphWithEdges. rewrite Hs. reflexivity.
Qed.

Lemma multiStageGraphWithEdges_outcome_witness :
  (forall s z, no_dash s -> parse_digits s = Some z -> (0 <= z)%Z) /\
  (forall s, no_dash s -> parse_digits_number s <> NInf) /\
  (vertex_count parse_digits "1" "2" = None ->
   forall fuel,
     multiStageGraphWithEdges parse_digits parse_digits_number (fun s => s) fuel
       "1" "2" "" = RangeError) /\
  (forall n, vertex_count parse_digits "1" "2" = Some n ->
     (n < 0 \/ 4294967296 <= n)%Z ->
     forall fuel,
       multiStageGraphWithEdges parse_digits parse_digits_number (fun s => s) fuel
         "1" "2" "" = RangeError) /\
  (vertex_count parse_digits "1" "2" = Some 0%Z ->
   forall fuel,
     multiStageGraphWithEdges parse_digits parse_digits_number (fun s => s) fuel
       "1" "2" "" = Proceeds OutOfFuel) /\
  (forall n, vertex_count parse_digits "1" "2" = Some n ->
     (1 <= n < 4294967296)%Z ->
     exists res, forall fuel, (n <= Z.of_nat fuel)%Z ->
       multiStageGraphWithEdges parse_digits parse_digits_number (fun s => s) fuel
         "1" "2" "" = Proceeds (Ret res)).
Proof.
  split; [exact parse_digits_sign|]. split; [exact parse_digits_number_sign|].
  apply (multiStageGraphWithEdges_outcome parse_digits parse_digits_number
           (fun s => s) "1" "2" "" parse_digits_sign parse_digits_number_sign).
Defined.

(** One stage and two nodes: the call does not return. *)
Example multiStageGraphWithEdges_hangs (fuel : nat) :
  vertex_count parse_digits "1" "2" = Some 0%Z /\
  multiStageGraphWithEdges parse_digits parse_digits_number (fun s => s) fuel
    "1" "2" "" = Proceeds OutOfFuel.
Proof. split; [reflexivity|]. destruct fuel; reflexivity. Qed.

(** One stage and three nodes: the call throws. *)
Example multiStageGraphWithEdges_range (fuel : nat) :
  vertex_count parse_digits "1" "3" = Some (-1)%Z /\
  multiStageGraphWithEdges parse_digits parse_digits_number (fun s => s) fuel
    "1" "3" "" = RangeError.
Proof. split; reflexivity. Qed.

End MultiStageGraphDriverTheory.

(** ** What [backwardCost] reads of the matrix *)

Module MultiStageGraphReads.
Import JsFacts MultiStageGraph.

Lemma scan_successors_agree (G G' : matrix) (bcost : list jsnum) (j : nat)
    (rs : list nat) :
  is_Some (G !! j) -> is_Some (G' !! j) ->
  (forall r, r ∈ rs -> edge G j r = edge G' j r) ->
  forall minCost nextVertex,
    scan_successors G bcost j rs minCost nextVertex
    = scan_successors G' bcost j rs minCost nextVertex.
Proof.
  intros [row Hrow] [row' Hrow'].
  induction rs as [|r rs IH]; intros Hsame minCost nextVertex; [reflexivity|].
  cbn [scan_successors]. rewrite Hrow, Hrow'.
  assert (Hr : js_get row r = js_get row' r).
  { specialize (Hsame r ltac:(left)). unfold edge in Hsame.
    rewrite Hrow, Hrow' in Hsame. exact Hsame. }
  assert (Hrest : forall r', r' ∈ rs -> edge G j r' = edge G' j r')
    by (intros r' Hr'; apply Hsame; right; exact Hr').
  rewrite Hr.
  destruct (js_not_INF (js_get row' r)); [|apply IH, Hrest].
  destruct (js_lt (js_add (js_get bcost r) (js_get row' r)) minCost);
    apply IH, Hrest.
Qed.

Lemma backward_pass_agree (G G' : matrix) (n : nat) (js : list nat) :
  (forall j, j ∈ js -> is_Some (G !! j) /\ is_Some (G' !! j)) ->
  (forall u v, u < v < n -> edge G u v = edge G' u v) ->
  forall bcost d,
    backward_pass G n js bcost d = backward_pass G' n js bcost d.
Proof.
  intros Hrows Hsame. induction js as [|j js IH]; intros bcost d; [reflexivity|].
  cbn [backward_pass].
  destruct (Hrows j ltac:(left)) as [HG HG'].
  rewrite (scan_successors_agree G G' bcost j _ HG HG').
  - destruct (scan_successors G' bcost j (seq (S j) (n - S j)) INF (-1))
      as [[minCost nextVertex]| |]; try reflexivity.
    cbn [mbind outcome_bind bind]. apply IH.
    intros j' Hj'. apply Hrows. right. exact Hj'.
  - intros r Hr. apply elem_of_seq in Hr. apply Hsame. lia.
Qed.

(** X20.  [backwardCost] reads the matrix above the diagonal only: two
    matrices, each with a row for every vertex below the sink, that agree
    in every cell [(u, v)] with [u < v < n] give the same result, whatever
    they hold on and below the diagonal and whatever the fuel.  An edge to
    a lower or to the same vertex never changes the answer. *)
Theorem backwardCost_upper_triangle (G G' : matrix) (n fuel : nat) :
  n - 1 <= length G -> n - 1 <= length G' ->
  (forall u v, u < v < n -> edge G u v = edge G' u v) ->
  backwardCost fuel G n = backwardCost fuel G' n.
Proof.
  intros HG HG' Hsame. unfold backwardCost.
  rewrite (backward_pass_agree G G' n (rev (seq 0 (n - 1)))); [reflexivity| |exact Hsame].
  intros j Hj. apply list_elem_of_In, in_rev, list_elem_of_In, elem_of_seq in Hj.
  split; apply lookup_lt_is_Some_2; lia.
Qed.

(** The example graph with edges added against the direction of the
    stages. *)
Definition example_graph_backward : matrix :=
  [ [Num 7; Num 2; Num 3; PInf];
    [Num 1; PInf; PInf; Num 4];
    [PInf; Num 9; NaN; Num 5];
    [Num 0; NInf; Num 1; Num 3] ].

Lemma backwardCost_upper_triangle_witness :
  4 - 1 <= length example_graph /\ 4 - 1 <= length example_graph_backward /\
  (forall u v, u < v < 4 ->
     edge example_graph u v = edge example_graph_backward u v) /\
  backwardCost 4 example_graph 4 = backwardCost 4 example_graph_backward 4.
Proof.
  assert (Hsame : forall u v, u < v < 4 ->
            edge example_graph u v = edge example_graph_backward u v).
  { intros u v Huv.
    destruct u as [|[|[|u]]]; destruct v as [|[|[|[|v]]]]; try lia; reflexivity. }
  split; [simpl; lia|]. split; [simpl; lia|]. split; [exact Hsame|].
  apply (backwardCost_upper_triangle example_graph example_graph_backward 4 4);
    [simpl; lia|simpl; lia|exact Hsame].
Defined.

End MultiStageGraphReads.
